(** * Huffman file compressor: a shallow embedding of the C sources

    The development follows the repository file by file:
    - [pqueue.h]            the tree node and the binary min-heap,
    - [huffman-01/enc.c]    module [Enc], the compressor,
    - [huffman-01/dec.c]    module [Dec], the decompressor,
    - [huffman-00/enc.c] and [huffman-00/dec.c], module [H00], the first
      variant of the program (its own heap, tree builder and decoder).

    Conventions.  Fixed-width unsigned integers are values of [Z] and every
    place where C truncates is written with [u8], [u16], [u32] or [u64].
    Array indices and loop counters that stay small ([int] in C) are [nat].
    A C pointer that may be [NULL] is an [option].  A function returns
    [None] when the C execution has no defined result (an out-of-range
    read, a null dereference, a shift by at least the width of its
    operand) or when the fuel of one of its loops runs out; the theorems
    show that neither happens where they claim a result.  The one
    exception is [Dec.readFreqTable], whose [None] is its [return 0].
    Allocation of the nodes, the queues, the readers and the buffers for
    data the program already holds is assumed to succeed; the two buffers
    of dec.c whose sizes are fields of the header are allocated through
    an [allocator], which can fail.  The sizes of buffers held in memory
    are not wrapped ([size_t] and [long] are wide enough for any
    list). *)

From Stdlib Require Import ZArith Lia Strings.Byte.
From stdpp Require Import base option list numbers.

Local Open Scope Z_scope.

(** ** Machine integers and bytes *)

Definition u8 (x : Z) : Z := x mod 2 ^ 8.
Definition u16 (x : Z) : Z := x mod 2 ^ 16.
Definition u32 (x : Z) : Z := x mod 2 ^ 32.
Definition u64 (x : Z) : Z := x mod 2 ^ 64.

(** The value of a byte, and the conversion of an integer to [uint8_t]. *)
Definition b2z (b : byte) : Z := Z.of_N (Byte.to_N b).
Definition z2b (z : Z) : byte := default x00 (Byte.of_N (Z.to_N (u8 z))).

(** The index of a byte in a 256-entry array. *)
Definition bidx (b : byte) : nat := N.to_nat (Byte.to_N b).

(** ** pqueue.h: tree nodes *)

(** [struct node { uint32_t freq; uint8_t ch; struct node *left, *right; }].
    The constructor takes its arguments in the order of the C function
    [newNode(ch, freq, l, r)]. *)
#[warnings="-register-all"]
Inductive Node : Type :=
  newNode (ch : byte) (freq : Z) (l r : option Node).

Definition ch (n : Node) : byte := let 'newNode c _ _ _ := n in c.
Definition freq (n : Node) : Z := let 'newNode _ f _ _ := n in f.
Definition left (n : Node) : option Node := let 'newNode _ _ l _ := n in l.
Definition right (n : Node) : option Node := let 'newNode _ _ _ r := n in r.

(** [!n->left && !n->right] *)
Definition is_leaf (n : Node) : bool :=
  match left n, right n with
  | None, None => true
  | _, _ => false
  end.

(** ** pqueue.h: the priority queue

    [heap pq] holds the live slots [heap[1] .. heap[n]] of the C array, so
    [n] is its length; slot [0] is unused in C and the slots above [n] are
    always written before they are read. *)
Record PQ : Type := mkPQ { heap : list Node; maxN : nat }.

Definition PQ_n (pq : PQ) : nat := length (heap pq).

Definition PQinit (maxN : nat) : PQ := mkPQ [] maxN.

(** [heap[i]] and [heap[i] = x] for the 1-based index of the C code. *)
Definition hget (h : list Node) (i : nat) : option Node :=
  match i with
  | O => None
  | S j => h !! j
  end.

Definition hset (h : list Node) (i : nat) (x : Node) : list Node :=
  match i with
  | O => h
  | S j => <[j:=x]> h
  end.

(** The loop of [PQinsert]:
    [while (k > 1 && heap[k/2]->freq > item->freq) { heap[k] = heap[k/2]; k = k/2; }] *)
Fixpoint percolate_up (fuel : nat) (h : list Node) (k : nat) (item : Node)
  : option (list Node * nat) :=
  match fuel with
  | O => None
  | S fuel' =>
      if decide (1 < k)%nat then
        parent ← hget h (k / 2)%nat;
        if freq item <? freq parent
        then percolate_up fuel' (hset h k parent) (k / 2)%nat item
        else Some (h, k)
      else Some (h, k)
  end.

Definition PQinsert (pq : PQ) (item : Node) : option PQ :=
  if decide (maxN pq ≤ PQ_n pq)%nat then Some pq
  else
    let k := S (PQ_n pq) in
    '(h, k') ← percolate_up k (heap pq ++ [item]) k item;
    Some (mkPQ (hset h k' item) (maxN pq)).

(** The loop of [PQdelmin]; [n] is the size after the decrement. *)
Fixpoint percolate_down (fuel : nat) (h : list Node) (n k : nat) (last : Node)
  : option (list Node * nat) :=
  match fuel with
  | O => None
  | S fuel' =>
      if decide (2 * k ≤ n)%nat then
        let j := (2 * k)%nat in
        hj ← hget h j;
        j' ← (if decide (j < n)%nat
              then hj1 ← hget h (j + 1)%nat;
                   Some (if freq hj1 <? freq hj then (j + 1)%nat else j)
              else Some j);
        child ← hget h j';
        if freq last <=? freq child then Some (h, k)
        else percolate_down fuel' (hset h k child) n j' last
      else Some (h, k)
  end.

(** The result is the returned pointer ([None] for [NULL]) and the queue
    after the call. *)
Definition PQdelmin (pq : PQ) : option (option Node * PQ) :=
  match PQ_n pq with
  | O => Some (None, pq)
  | S n' =>
      min ← hget (heap pq) 1;
      last ← hget (heap pq) (S n');
      let h := take n' (heap pq) in
      match n' with
      | O => Some (Some min, mkPQ h (maxN pq))
      | S _ =>
          '(h', k) ← percolate_down (S n') h n' 1 last;
          Some (Some min, mkPQ (hset h' k last) (maxN pq))
      end
  end.

Definition PQempty (pq : PQ) : bool := bool_decide (PQ_n pq = 0%nat).

(** The names of pqueue.h, for the modules that define their own. *)
Module Top.
Abbreviation newNode := newNode (only parsing).
Abbreviation freq := freq (only parsing).
End Top.

(** ** Constants shared by enc.c and dec.c *)

Definition MAXN : nat := 256.
Definition MAGIC_NUMBER : Z := 0x48554646.
Definition VERSION : Z := 1.

(** Integers in the files are the bytes of packed structs written by a
    little-endian host: [le_bytes n x] is the [n]-byte image of [x]
    (truncated to [8 * n] bits), [le_value] reads it back. *)
Fixpoint le_bytes (n : nat) (x : Z) : list byte :=
  match n with
  | O => []
  | S n' => z2b x :: le_bytes n' (Z.shiftr x 8)
  end.

Fixpoint le_value (bs : list byte) : Z :=
  match bs with
  | [] => 0
  | b :: rest => b2z b + 256 * le_value rest
  end.

(** [HuffHeader], packed: 30 bytes. *)
Record HuffHeader : Type := mkHuffHeader {
  magic : Z;            (* uint32_t *)
  version : Z;          (* uint16_t *)
  original_size : Z;    (* uint64_t *)
  compressed_size : Z;  (* uint64_t *)
  checksum : Z;         (* uint32_t *)
  tree_size : Z;        (* uint16_t *)
  padding_bits : Z;     (* uint8_t *)
  reserved : Z          (* uint8_t *)
}.

Definition sizeof_HuffHeader : nat := 30.
Definition sizeof_FreqEntry : nat := 5.

(** The CRC32 table and checksum, the same text in enc.c and dec.c. *)
Definition crc32_step (crc : Z) : Z :=
  if Z.land crc 1 =? 0 then Z.shiftr crc 1
  else Z.lxor (Z.shiftr crc 1) 0xEDB88320.

Definition init_crc32 : list Z :=
  map (λ i, Nat.iter 8 crc32_step (Z.of_nat i)) (seq 0 256).

Definition crc32 (data : list byte) : Z :=
  Z.lxor
    (foldl (λ crc b,
              Z.lxor (init_crc32 !!! Z.to_nat (Z.land (Z.lxor crc (b2z b)) 0xFF))
                     (Z.shiftr crc 8))
           0xFFFFFFFF data)
    0xFFFFFFFF.

(** What the programs print before [return 1]. *)
Inductive message : Type :=
  | EmptyInput              (* "Input file is empty or cannot read size" *)
  | TreeBuildFailed         (* "Failed to build Huffman tree" *)
  | CompressionFailed       (* "Compression failed" *)
  | FreqTableWriteFailed    (* "Could not write frequency table" *)
  | FileTooSmall            (* "File too small to be valid compressed file" *)
  | ShortHeader             (* nothing: [fread] of the header failed *)
  | NotHuffmanFile          (* "Not a valid Huffman compressed file" *)
  | UnsupportedVersion      (* "Unsupported file version" *)
  | FreqTableReadFailed     (* "Could not read frequency table" *)
  | CompressedAllocFailed   (* "Cannot allocate memory for compressed data" *)
  | CompressedReadFailed    (* "Could not read compressed data" *)
  | TreeRebuildFailed       (* "Could not rebuild Huffman tree" *)
  | DecompressionFailed     (* "Decompression failed" *)
  | ChecksumMismatch.       (* "Checksum verification failed!" *)

(** The end of [main]: [return 1] after a message, with no complete
    output file, or [return 0] with the bytes of the output file. *)
Inductive exit : Type :=
  | Failure (m : message)
  | Success (output : list byte).

(** ** Allocation

    [malloc(size)] for a buffer whose size is read from a file: [None]
    is [NULL]; otherwise the result is the block, given by the byte each
    of its cells holds before the program writes to it.  The block is not
    initialised, so these are any bytes. *)
Definition allocator : Type := Z → option (nat → byte).

(** The [size] cells of a block nothing was written to. *)
Definition fresh (cells : nat → byte) (size : Z) : list byte :=
  cells <$> seq 0 (Z.to_nat size).

(** ** huffman-01/enc.c *)
Module Enc.

(** The insertion loop of [buildHuffmanTree], one iteration for symbol [i]. *)
Definition insert_symbol (freq : list Z) (st : PQ * nat) (i : nat)
  : option (PQ * nat) :=
  let '(pq, symbols) := st in
  f ← freq !! i;
  if 0 <? f then
    pq' ← PQinsert pq (newNode (z2b (Z.of_nat i)) f None None);
    Some (pq', S symbols)
  else Some (pq, symbols).

(** [while (symbols > 1) { ...; symbols--; }] *)
Fixpoint merge_loop (symbols : nat) (pq : PQ) : option PQ :=
  match symbols with
  | S (S _ as symbols') =>
      '(l, pq1) ← PQdelmin pq;
      '(r, pq2) ← PQdelmin pq1;
      l ← l; r ← r;
      pq3 ← PQinsert pq2 (newNode x00 (u32 (freq l + freq r)) (Some l) (Some r));
      merge_loop symbols' pq3
  | _ => Some pq
  end.

(** The outer [option] is the execution, the inner one the returned
    pointer. *)
Definition buildHuffmanTree (freq : list Z) : option (option Node) :=
  '(pq, symbols) ←
     foldl (λ acc i, st ← acc; insert_symbol freq st i)
           (Some (PQinit MAXN, 0%nat)) (seq 0 MAXN);
  match symbols with
  | O => Some None
  | S O => '(single, _) ← PQdelmin pq; Some single
  | _ =>
      pq' ← merge_loop symbols pq;
      '(root, _) ← PQdelmin pq';
      Some root
  end.

(** [buildFreqTable]: [memset] to zero, then [freq[data[i]]++] on
    [uint32_t] counters. *)
Definition buildFreqTable (data : list byte) : list Z :=
  foldl (λ freq b, <[bidx b := u32 (freq !!! bidx b + 1)]> freq)
        (replicate MAXN 0) data.

(** [CodeEntry]: the bytes of the packed code ([NULL] is the empty array)
    and its length in bits ([uint8_t]). *)
Record CodeEntry : Type := mkCodeEntry { code : list Z; len : Z }.

(** The leaf case of [generateCodes]: [calloc((depth + 7) / 8, 1)] and the
    loop that sets bit [i] of the array when bit [depth - 1 - i] of
    [code] is set.  [code] is a [uint32_t], so a shift by 32 or more has
    no defined result. *)
Definition pack_bit (code : Z) (depth : nat) (acc : option (list Z)) (i : nat)
  : option (list Z) :=
  bytes ← acc;
  if decide (32 ≤ depth - 1 - i)%nat then None
  else if Z.land (Z.shiftr code (Z.of_nat (depth - 1 - i))) 1 =? 0 then Some bytes
  else
    old ← bytes !! (i / 8)%nat;
    Some (<[(i / 8)%nat := u8 (Z.lor old (Z.shiftl 1 (Z.of_nat (7 - i mod 8))))]> bytes).

Definition pack_code (code : Z) (depth : nat) : option (list Z) :=
  foldl (pack_bit code depth) (Some (replicate ((depth + 7) / 8) 0)) (seq 0 depth).

Fixpoint generateCodes (root : Node) (codes : list CodeEntry) (code : Z) (depth : nat)
  : option (list CodeEntry) :=
  let 'newNode c _ l r := root in
  match l, r with
  | None, None =>
      bytes ← pack_code code depth;
      Some (<[bidx c := mkCodeEntry bytes (u8 (Z.of_nat depth))]> codes)
  | _, _ =>
      codes1 ← match l with
               | Some ln => generateCodes ln codes (u32 (Z.shiftl code 1)) (S depth)
               | None => Some codes
               end;
      match r with
      | Some rn => generateCodes rn codes1 (u32 (Z.lor (Z.shiftl code 1) 1)) (S depth)
      | None => Some codes1
      end
  end.

(** [BitBuffer]; [size] is the length of [data] and the capacity is not
    modelled. *)
Record BitBuffer : Type :=
  mkBitBuffer { data : list byte; bit_buffer : Z; bits_used : Z }.

Definition bitBufferInit : BitBuffer := mkBitBuffer [] 0 0.

(** One iteration of the loop of [bitBufferWriteBits], for bit [i] of
    [bits] ([uint32_t]). *)
Definition write_bit (bits : Z) (acc : option BitBuffer) (i : nat) : option BitBuffer :=
  buf ← acc;
  if decide (32 ≤ i)%nat then None
  else
    let bb := u8 (Z.lor (Z.shiftl (bit_buffer buf) 1)
                        (Z.land (Z.shiftr bits (Z.of_nat i)) 1)) in
    let used := u8 (bits_used buf + 1) in
    if used =? 8 then Some (mkBitBuffer (data buf ++ [z2b bb]) 0 0)
    else Some (mkBitBuffer (data buf) bb used).

(** [for (int i = count - 1; i >= 0; i--)] *)
Definition bitBufferWriteBits (buf : BitBuffer) (bits : Z) (count : nat)
  : option BitBuffer :=
  foldl (write_bit bits) (Some buf) (rev (seq 0 count)).

Definition bitBufferFlush (buf : BitBuffer) : BitBuffer :=
  if 0 <? bits_used buf then
    let bb := u8 (Z.shiftl (bit_buffer buf) (8 - bits_used buf)) in
    mkBitBuffer (data buf ++ [z2b bb]) bb (bits_used buf)
  else buf.

(** The inner loop of [compress]: the bits of one code entry. *)
Definition write_code_bit (entry : CodeEntry) (acc : option BitBuffer) (bit : nat)
  : option BitBuffer :=
  buf ← acc;
  let byte_idx := (bit / 8)%nat in
  let bit_idx := (7 - bit mod 8)%nat in
  cb ← code entry !! byte_idx;
  let bit_val := Z.land (Z.shiftr cb (Z.of_nat bit_idx)) 1 in
  bitBufferWriteBits buf bit_val 1.

Definition write_code (entry : CodeEntry) (buf : BitBuffer) : option BitBuffer :=
  foldl (write_code_bit entry) (Some buf) (seq 0 (Z.to_nat (len entry))).

(** The outer loop of [compress]; the inner [option] is [None] when the
    function returns [NULL] ("No code for character"). *)
Fixpoint compress_loop (data : list byte) (codes : list CodeEntry) (buf : BitBuffer)
  : option (option BitBuffer) :=
  match data with
  | [] => Some (Some buf)
  | b :: rest =>
      entry ← codes !! bidx b;
      if len entry =? 0 then Some None
      else
        buf' ← write_code entry buf;
        compress_loop rest codes buf'
  end.

Definition compress (data : list byte) (codes : list CodeEntry)
  : option (option BitBuffer) :=
  match compress_loop data codes bitBufferInit with
  | Some (Some buf) => Some (Some (bitBufferFlush buf))
  | r => r
  end.

(** [fwrite(header, sizeof(HuffHeader), 1, fp)] *)
Definition writeHeader (h : HuffHeader) : list byte :=
  le_bytes 4 (magic h) ++ le_bytes 2 (version h) ++
  le_bytes 8 (original_size h) ++ le_bytes 8 (compressed_size h) ++
  le_bytes 4 (checksum h) ++ le_bytes 2 (tree_size h) ++
  le_bytes 1 (padding_bits h) ++ le_bytes 1 (reserved h).

(** [writeFreqTable]: the bytes written and the returned [tree_size]. *)
Definition write_entry (freq : list Z) (acc : list byte * Z) (i : nat) : list byte * Z :=
  let '(out, tree_size) := acc in
  let f := freq !!! i in
  if 0 <? f then (out ++ z2b (Z.of_nat i) :: le_bytes 4 f, u16 (tree_size + 1))
  else (out, tree_size).

Definition writeFreqTable (freq : list Z) : list byte * Z :=
  foldl (write_entry freq) ([], 0) (seq 0 MAXN).

(** The code table of [main]: [memset(codes, 0, sizeof(codes))], then
    [generateCodes] when the root has a child and the one-bit code of the
    single symbol otherwise. *)
Definition main_codes (root : Node) : option (list CodeEntry) :=
  let codes := replicate MAXN (mkCodeEntry [] 0) in
  if negb (is_leaf root) then generateCodes root codes 0 0
  else Some (<[bidx (ch root) := mkCodeEntry [0] 1]> codes).

(** [main], from the input file read into [data] to the output file. *)
Definition main (input : list byte) : option exit :=
  let file_size := Z.of_nat (length input) in
  if file_size <=? 0 then Some (Failure EmptyInput)
  else
    let freq := buildFreqTable input in
    root ← buildHuffmanTree freq;
    match root with
    | None => Some (Failure TreeBuildFailed)
    | Some root =>
        codes ← main_codes root;
        compressed ← compress input codes;
        match compressed with
        | None => Some (Failure CompressionFailed)
        | Some compressed =>
            let header :=
              mkHuffHeader MAGIC_NUMBER VERSION file_size
                (Z.of_nat (length (data compressed))) (crc32 input) 0
                (if 0 <? bits_used compressed then 8 - bits_used compressed else 0)
                0 in
            let '(table, tree_size) := writeFreqTable freq in
            if tree_size =? 0 then Some (Failure FreqTableWriteFailed)
            else
              let header' :=
                mkHuffHeader (magic header) (version header) (original_size header)
                  (compressed_size header) (checksum header) tree_size
                  (padding_bits header) (reserved header) in
              Some (Success (writeHeader header' ++ table ++ data compressed))
        end
    end.

End Enc.

(** ** huffman-01/dec.c *)
Module Dec.

Record BitReader : Type :=
  mkBitReader { data : list byte; pos : nat; bit_buffer : Z; bits_available : Z }.

Definition bitReaderInit (data : list byte) : BitReader := mkBitReader data 0 0 0.

(** The returned bit ([-1] at the end of the data) and the reader after
    the call. *)
Definition bitReaderReadBit (reader : BitReader) : Z * BitReader :=
  let refilled :=
    if bits_available reader =? 0 then
      match data reader !! pos reader with
      | None => None
      | Some b => Some (mkBitReader (data reader) (S (pos reader)) (b2z b) 8)
      end
    else Some reader in
  match refilled with
  | None => (-1, reader)
  | Some r =>
      (Z.land (Z.shiftr (bit_buffer r) 7) 1,
       mkBitReader (data r) (pos r) (u8 (Z.shiftl (bit_buffer r) 1))
                   (u8 (bits_available r - 1)))
  end.

(** The bytes of a header read by [fread(header, sizeof(HuffHeader), 1, fp)]. *)
Definition parseHeader (bs : list byte) : HuffHeader :=
  mkHuffHeader
    (le_value (take 4 bs))
    (le_value (take 2 (drop 4 bs)))
    (le_value (take 8 (drop 6 bs)))
    (le_value (take 8 (drop 14 bs)))
    (le_value (take 4 (drop 22 bs)))
    (le_value (take 2 (drop 26 bs)))
    (le_value (take 1 (drop 28 bs)))
    (le_value (take 1 (drop 29 bs))).

(** [readHeader]: [inl] is [return 0], with what was printed before it,
    and [inr] is [return 1] with the header. *)
Definition readHeader (file : list byte) : message + HuffHeader :=
  if decide (length file < sizeof_HuffHeader)%nat then inl ShortHeader
  else
    let header := parseHeader (take sizeof_HuffHeader file) in
    if negb (magic header =? MAGIC_NUMBER) then inl NotHuffmanFile
    else if 1 <? version header then inl UnsupportedVersion
    else inr header.

(** [readFreqTable]: [None] is [return 0] (a short read); otherwise the
    table and the rest of the file. *)
Fixpoint read_entries (n : nat) (bs : list byte) (freq : list Z)
  : option (list Z * list byte) :=
  match n with
  | O => Some (freq, bs)
  | S n' =>
      if decide (length bs < sizeof_FreqEntry)%nat then None
      else
        let entry_ch := default x00 (head bs) in
        let entry_freq := le_value (take 4 (drop 1 bs)) in
        read_entries n' (drop sizeof_FreqEntry bs) (<[bidx entry_ch := entry_freq]> freq)
  end.

Definition readFreqTable (bs : list byte) (tree_size : Z)
  : option (list Z * list byte) :=
  read_entries (Z.to_nat tree_size) bs (replicate MAXN 0).

(** The insertion loop of [buildHuffmanTree], one iteration for symbol [i]. *)
Definition insert_symbol (freq : list Z) (st : PQ * nat) (i : nat)
  : option (PQ * nat) :=
  let '(pq, symbols) := st in
  f ← freq !! i;
  if 0 <? f then
    pq' ← PQinsert pq (newNode (z2b (Z.of_nat i)) f None None);
    Some (pq', S symbols)
  else Some (pq, symbols).

(** [while (symbols > 1) { ...; symbols--; }] *)
Fixpoint merge_loop (symbols : nat) (pq : PQ) : option PQ :=
  match symbols with
  | S (S _ as symbols') =>
      '(l, pq1) ← PQdelmin pq;
      '(r, pq2) ← PQdelmin pq1;
      l ← l; r ← r;
      pq3 ← PQinsert pq2 (newNode x00 (u32 (freq l + freq r)) (Some l) (Some r));
      merge_loop symbols' pq3
  | _ => Some pq
  end.

Definition buildHuffmanTree (freq : list Z) : option (option Node) :=
  '(pq, symbols) ←
     foldl (λ acc i, st ← acc; insert_symbol freq st i)
           (Some (PQinit MAXN, 0%nat)) (seq 0 MAXN);
  match symbols with
  | O => Some None
  | S O => '(single, _) ← PQdelmin pq; Some single
  | _ =>
      pq' ← merge_loop symbols pq;
      '(root, _) ← PQdelmin pq';
      Some root
  end.

(** The bit-by-bit loop of [decompress].  [output] holds the bytes
    written so far, so [output_pos] is its length.  The inner [option] of
    the result is [None] when the function frees the buffer and returns
    [NULL]; otherwise it is the written part of the buffer. *)
Fixpoint decompress_loop (fuel : nat) (reader : BitReader) (root current : Node)
    (output : list byte) (original_size padding_bits : Z)
  : option (option (list byte)) :=
  match fuel with
  | O => None
  | S fuel' =>
      if Z.of_nat (length output) <? original_size then
        let '(bit, reader') := bitReaderReadBit reader in
        if bit <? 0 then
          let bits_processed :=
            u64 ((Z.of_nat (pos reader') - 1) * 8 + (8 - bits_available reader')) in
          let total_bits := u64 (Z.of_nat (length (data reader')) * 8) in
          if u64 (total_bits - bits_processed) <=? padding_bits
          then Some (Some output)
          else Some None
        else
          match (if bit =? 0 then left current else right current) with
          | None => Some None
          | Some current' =>
              if is_leaf current' then
                if original_size <=? Z.of_nat (length output) then Some (Some output)
                else decompress_loop fuel' reader' root root
                       (output ++ [ch current']) original_size padding_bits
              else decompress_loop fuel' reader' root current' output
                     original_size padding_bits
          end
      else Some (Some output)
  end.

(** [decompress]: [None] inside is [NULL], returned for a missing tree,
    for [original_size == 0], when [malloc(original_size)] fails and when
    the loop gives up.  Otherwise the result is the whole buffer of
    [original_size] bytes: on a single leaf every cell is written; after
    the loop the cells past the last written one still hold what the
    block held. *)
Definition decompress (malloc : allocator) (reader : BitReader) (root : option Node)
    (original_size padding_bits : Z) : option (option (list byte)) :=
  match root with
  | None => Some None
  | Some root =>
      if original_size =? 0 then Some None
      else
        match malloc original_size with
        | None => Some None
        | Some cells =>
            if is_leaf root then
              Some (Some (replicate (Z.to_nat original_size) (ch root)))
            else
              written ←
                decompress_loop (S (8 * length (data reader))) reader root root []
                                original_size padding_bits;
              match written with
              | None => Some None
              | Some written =>
                  Some (Some (written ++
                              drop (length written) (fresh cells original_size)))
              end
        end
  end.

(** The allocators behind the two [malloc] calls of dec.c whose size is
    a field of the header: [malloc(header.compressed_size)] in [main] and
    [malloc(original_size)] in [decompress]. *)
Record Memory : Type :=
  mkMemory { compressed_data_malloc : allocator; output_malloc : allocator }.

(** The second half of [main], once the header, the table and the
    payload are read: the tree, [decompress], the checksum and the output
    file.  [verify] is false under [--no-verify].  The checksum is taken
    over the [original_size] bytes of the buffer of [decompress], and
    these bytes are the output file, whether the loop wrote them all or
    not. *)
Definition decode_payload (malloc : allocator) (verify : bool) (header : HuffHeader)
    (freq : list Z) (compressed_data : list byte) : option exit :=
  root ← buildHuffmanTree freq;
  match root with
  | None => Some (Failure TreeRebuildFailed)
  | Some root =>
      let reader := bitReaderInit compressed_data in
      decompressed ←
        decompress malloc reader (Some root) (original_size header)
                   (padding_bits header);
      match decompressed with
      | None => Some (Failure DecompressionFailed)
      | Some decompressed =>
          if verify && negb (crc32 decompressed =? checksum header)
          then Some (Failure ChecksumMismatch)
          else Some (Success decompressed)
      end
  end.

(** [main], from the bytes of the compressed file to the output file. *)
Definition main (mem : Memory) (verify : bool) (file : list byte) : option exit :=
  if decide (length file ≤ sizeof_HuffHeader)%nat then Some (Failure FileTooSmall)
  else
    match readHeader file with
    | inl m => Some (Failure m)
    | inr header =>
        match readFreqTable (drop sizeof_HuffHeader file) (tree_size header) with
        | None => Some (Failure FreqTableReadFailed)
        | Some (freq, rest) =>
            match compressed_data_malloc mem (compressed_size header) with
            | None => Some (Failure CompressedAllocFailed)
            | Some _ =>
                if Z.of_nat (length rest) <? compressed_size header
                then Some (Failure CompressedReadFailed)
                else
                  decode_payload (output_malloc mem) verify header freq
                    (take (Z.to_nat (compressed_size header)) rest)
            end
        end
    end.

End Dec.

(** ** huffman-00/enc.c and huffman-00/dec.c

    The first variant has its own node constructor, a 0-based heap and a
    tree builder that is the same text in both files; [decodeFile] is the
    decoder of dec.c.  [struct Node] has the fields of the node of
    pqueue.h ([char data] for [ch], [unsigned freq]), so the type [Node]
    is used for it, with the byte of [data] taken as unsigned (the code
    reads it back through [(unsigned char)] and [fputc]). *)
Module H00.

Definition MAX_CHARS : nat := 256.

(** [newNode(data, freq)]: both children [NULL]. *)
Definition newNode (data : byte) (freq : Z) : Node := newNode data freq None None.

(** [MinHeap]: [array] holds the slots [array[0] .. array[size - 1]]. *)
Record MinHeap : Type := mkMinHeap { array : list Node; capacity : nat }.

Definition size (h : MinHeap) : nat := length (array h).

Fixpoint minHeapify (fuel : nat) (a : list Node) (idx : nat) : option (list Node) :=
  match fuel with
  | O => None
  | S fuel' =>
      let l := (2 * idx + 1)%nat in
      let r := (2 * idx + 2)%nat in
      at_idx ← a !! idx;
      smallest ← (if decide (l < length a)%nat
                  then at_l ← a !! l;
                       Some (if freq at_l <? freq at_idx then l else idx)
                  else Some idx);
      at_smallest ← a !! smallest;
      smallest' ← (if decide (r < length a)%nat
                   then at_r ← a !! r;
                        Some (if freq at_r <? freq at_smallest then r else smallest)
                   else Some smallest);
      if decide (smallest' = idx) then Some a
      else
        at_s ← a !! smallest';
        minHeapify fuel' (<[smallest' := at_idx]> (<[idx := at_s]> a)) smallest'
  end.

(** [extractMin]: the returned node and the array after the call.  With
    an empty heap [minHeapify(0)] reads nothing, as its tests on
    [left < size] and [right < size] fail. *)
Definition extractMin (a : list Node) : option (Node * list Node) :=
  temp ← a !! 0%nat;
  last ← a !! (length a - 1)%nat;
  let a1 := take (length a - 1) (<[0%nat := last]> a) in
  match a1 with
  | [] => Some (temp, a1)
  | _ => a2 ← minHeapify (length a) a1 0; Some (temp, a2)
  end.

(** The loop of [insertMinHeap]. *)
Fixpoint sift_up (fuel : nat) (a : list Node) (i : nat) (node : Node)
  : option (list Node * nat) :=
  match fuel with
  | O => None
  | S fuel' =>
      if decide (i ≠ 0)%nat then
        parent ← a !! ((i - 1) / 2)%nat;
        if freq node <? freq parent
        then sift_up fuel' (<[i := parent]> a) ((i - 1) / 2)%nat node
        else Some (a, i)
      else Some (a, i)
  end.

Definition insertMinHeap (a : list Node) (node : Node) : option (list Node) :=
  let i := length a in
  '(a', i') ← sift_up (S i) (a ++ [node]) i node;
  Some (<[i' := node]> a').

(** [for (i = (n - 1) / 2; i >= 0; --i) minHeapify(minHeap, i)] with
    [n = size - 1]; called with [size >= 2] only. *)
Definition buildMinHeap (a : list Node) : option (list Node) :=
  let n := (length a - 1)%nat in
  foldl (λ acc i, a' ← acc; minHeapify (S (length a)) a' i) (Some a)
        (rev (seq 0 (S ((n - 1) / 2)))).

(** [while (minHeap->size != 1) { ... }] *)
Fixpoint merge_loop (fuel : nat) (a : list Node) : option (list Node) :=
  match fuel with
  | O => None
  | S fuel' =>
      if decide (length a ≠ 1)%nat then
        '(l, a1) ← extractMin a;
        '(r, a2) ← extractMin a1;
        let top := Top.newNode "$" (u32 (freq l + freq r)) (Some l) (Some r) in
        a3 ← insertMinHeap a2 top;
        merge_loop fuel' a3
      else Some a
  end.

Definition buildHuffmanTree (freq : list Z) (size : nat) : option Node :=
  a ← foldl (λ acc i, a ← acc; f ← freq !! i;
                      if 0 <? f then Some (a ++ [newNode (z2b (Z.of_nat i)) f])
                      else Some a)
            (Some []) (seq 0 size);
  match a with
  | [] => Some (newNode "$" 0)
  | [single_node] =>
      Some (Top.newNode "$" (Top.freq single_node) (Some single_node) None)
  | _ =>
      a1 ← buildMinHeap a;
      a2 ← merge_loop (length a1) a1;
      '(root, _) ← extractMin a2;
      Some root
  end.

(** The end of the decoder: [exit(1)] after a message, or the return of
    [main] with status 0, which leaves the output file with the bytes
    written so far; [invalid_path] records that
    "Error: Invalid Huffman tree path." was printed on the way. *)
Inductive outcome : Type :=
  | Exit1
  | Return0 (invalid_path : bool) (output : list byte).

(** The [for (int i = 7; i >= 0; i--)] loop on one byte [c] of the
    payload: the current node, the output and whether the walk left the
    tree ([goto cleanup]). *)
Fixpoint decode_bits (idxs : list nat) (c : Z) (root current : Node)
    (output : list byte) (original_file_size : Z) : Node * list byte * bool :=
  match idxs with
  | [] => (current, output, false)
  | i :: idxs' =>
      if original_file_size <=? Z.of_nat (length output) then (current, output, false)
      else
        let bit := Z.land (Z.shiftr c (Z.of_nat i)) 1 in
        match (if bit =? 0 then left current else right current) with
        | None => (current, output, true)
        | Some current' =>
            if is_leaf current'
            then decode_bits idxs' c root root (output ++ [ch current']) original_file_size
            else decode_bits idxs' c root current' output original_file_size
        end
  end.

(** The [while] loop of [decodeFile] over the bytes of the payload. *)
Fixpoint decode_loop (payload : list byte) (root current : Node)
    (output : list byte) (original_file_size : Z) : outcome :=
  if Z.of_nat (length output) <? original_file_size then
    match payload with
    | [] => Return0 false output
    | c :: payload' =>
        let '(current', output', bad) :=
          decode_bits [7; 6; 5; 4; 3; 2; 1; 0]%nat (b2z c) root current output
                      original_file_size in
        if bad then Return0 true output'
        else decode_loop payload' root current' output' original_file_size
    end
  else Return0 false output.

(** A [long] read from 8 bytes. *)
Definition le_long (bs : list byte) : Z :=
  let v := le_value bs in if v <? 2 ^ 63 then v else v - 2 ^ 64.

Fixpoint read_freq (n : nat) (bs : list byte) : list Z :=
  match n with
  | O => []
  | S n' => le_value (take 4 bs) :: read_freq n' (drop 4 bs)
  end.

Definition decodeFile (file : list byte) : option outcome :=
  if decide (length file < 8)%nat then Some Exit1
  else
    let original_file_size := le_long (take 8 file) in
    let rest := drop 8 file in
    if decide (length rest < 4 * MAX_CHARS)%nat then Some Exit1
    else
      let freq := read_freq MAX_CHARS rest in
      let payload := drop (4 * MAX_CHARS) rest in
      root ← buildHuffmanTree freq MAX_CHARS;
      if is_leaf root && (Top.freq root =? 0) then Some (Return0 false [])
      else Some (decode_loop payload root root [] original_file_size).

(** *** huffman-00/enc.c: the encoder *)

(** [storeCodes]: [codes] is the array of strings ([None] for [NULL]) and
    [current_code] holds the characters [current_code[0 .. top - 1]], so
    [top] is its length.  Every call writes [current_code[top]], which is
    outside the buffer of [MAX_CHARS] characters when [top >= MAX_CHARS]. *)
Fixpoint storeCodes (root : Node) (codes : list (option (list byte)))
    (current_code : list byte) : option (list (option (list byte))) :=
  let 'Top.newNode data _ l r := root in
  if decide (MAX_CHARS ≤ length current_code)%nat then None
  else
    codes1 ← match l with
             | Some ln => storeCodes ln codes (current_code ++ ["0"%byte])
             | None => Some codes
             end;
    codes2 ← match r with
             | Some rn => storeCodes rn codes1 (current_code ++ ["1"%byte])
             | None => Some codes1
             end;
    match l, r with
    | None, None => Some (<[bidx data := Some current_code]> codes2)
    | _, _ => Some codes2
    end.

(** The state of the packing loop of [encodeFile]: the bytes written to
    the output file after the header, [buffer] and [bit_count]. *)
Record Packer : Type :=
  mkPacker { written_bytes : list byte; buffer : Z; bit_count : Z }.

(** One character [ch] of a code string: [buffer <<= 1], then
    [buffer |= 1] when [ch] is '1', then [bit_count++], and when
    [bit_count == 8] the byte is written and both are reset to 0. *)
Definition put_code_char (st : Packer) (ch : byte) : Packer :=
  let buffer1 := u8 (Z.shiftl (buffer st) 1) in
  let buffer2 := if Byte.eqb ch "1" then Z.lor buffer1 1 else buffer1 in
  let bit_count' := bit_count st + 1 in
  if bit_count' =? 8 then mkPacker (written_bytes st ++ [z2b buffer2]) 0 0
  else mkPacker (written_bytes st) buffer2 bit_count'.

(** One byte [c] of the input: [char* code = codes[c]; if (code) ...]. *)
Definition put_byte (codes : list (option (list byte))) (st : Packer) (c : byte)
  : Packer :=
  match codes !! bidx c with
  | Some (Some code) => foldl put_code_char st code
  | _ => st
  end.

(** [encodeFile], from the bytes of the input file to the bytes of the
    output file: the size ([long], 8 bytes), the 256 counters
    ([unsigned], 4 bytes each) and the packed codes. *)
Definition encodeFile (input : list byte) : option (list byte) :=
  let freq :=
    foldl (λ freq c, <[bidx c := u32 (freq !!! bidx c + 1)]> freq)
          (replicate MAX_CHARS 0) input in
  let original_file_size := Z.of_nat (length input) in
  root ← buildHuffmanTree freq MAX_CHARS;
  codes ← storeCodes root (replicate MAX_CHARS None) [];
  let st := foldl (put_byte codes) (mkPacker [] 0 0) input in
  let body :=
    if 0 <? bit_count st
    then written_bytes st ++ [z2b (u8 (Z.shiftl (buffer st) (8 - bit_count st)))]
    else written_bytes st in
  Some (le_bytes 8 original_file_size ++ flat_map (le_bytes 4) freq ++ body).

End H00.

(** ** Properties of trees used in the statements *)

(** Every node has both children or none. *)
Fixpoint strict (n : Node) : bool :=
  let 'newNode _ _ l r := n in
  match l, r with
  | None, None => true
  | Some ln, Some rn => strict ln && strict rn
  | _, _ => false
  end.

(** The symbols at the leaves, from left to right. *)
Fixpoint leaves (n : Node) : list byte :=
  let 'newNode c _ l r := n in
  match l, r with
  | None, None => [c]
  | _, _ =>
      match l with Some ln => leaves ln | None => [] end ++
      match r with Some rn => leaves rn | None => [] end
  end.

(** The number of edges on the longest path from the root to a leaf. *)
Fixpoint height (n : Node) : nat :=
  let 'newNode _ _ l r := n in
  match l, r with
  | None, None => O
  | _, _ =>
      S (match l with Some ln => height ln | None => O end `max`
         match r with Some rn => height rn | None => O end)
  end.

(** The symbols of a frequency table that have a nonzero count, in
    increasing order, and the leaves made for them. *)
Definition leaf_of (freq : list Z) (i : nat) : option Node :=
  f ← freq !! i;
  if 0 <? f then Some (newNode (z2b (Z.of_nat i)) f None None) else None.

Definition leaf_nodes (freq : list Z) : list Node :=
  omap (leaf_of freq) (seq 0 MAXN).

Definition symbols_of (freq : list Z) : list byte := ch <$> leaf_nodes freq.

(** ** Bit streams

    Bits are written and read most significant first. *)
Definition bits_of_byte (b : byte) : list bool :=
  (λ k, Z.testbit (b2z b) (Z.of_nat k)) <$> [7; 6; 5; 4; 3; 2; 1; 0]%nat.

Definition bits_of_bytes (bs : list byte) : list bool := flat_map bits_of_byte bs.

(** Bits [n - 1 .. 0] of [x]. *)
Fixpoint low_bits (x : Z) (n : nat) : list bool :=
  match n with
  | O => []
  | S n' => Z.testbit x (Z.of_nat n') :: low_bits x n'
  end.

(** Bits [7 .. 8 - n] of [x]. *)
Definition high_bits (x : Z) (n : nat) : list bool :=
  (λ k, Z.testbit x (Z.of_nat (7 - k))) <$> seq 0 n.

(** The bits a [BitBuffer] has received, and its invariant. *)
Definition written (buf : Enc.BitBuffer) : list bool :=
  bits_of_bytes (Enc.data buf) ++
  low_bits (Enc.bit_buffer buf) (Z.to_nat (Enc.bits_used buf)).

Definition buffer_ok (buf : Enc.BitBuffer) : Prop :=
  0 <= Enc.bits_used buf < 8 ∧
  0 <= Enc.bit_buffer buf < 2 ^ Enc.bits_used buf.

(** The bits a [BitReader] has not delivered yet, and its invariant. *)
Definition remaining (r : Dec.BitReader) : list bool :=
  high_bits (Dec.bit_buffer r) (Z.to_nat (Dec.bits_available r)) ++
  bits_of_bytes (drop (Dec.pos r) (Dec.data r)).

Definition reader_ok (r : Dec.BitReader) : Prop :=
  0 <= Dec.bits_available r <= 8 ∧ 0 <= Dec.bit_buffer r < 256.

(** The number of bits [bitBufferFlush] adds to a buffer. *)
Definition padding_of (buf : Enc.BitBuffer) : Z :=
  if 0 <? Enc.bits_used buf then 8 - Enc.bits_used buf else 0.

(** ** Codes *)

(** [path_to t p c]: from the node [t] the branches [p] ([false] for the
    left child, [true] for the right one) end at a leaf that holds [c]. *)
Inductive path_to : Node → list bool → byte → Prop :=
  | path_here c f : path_to (newNode c f None None) [] c
  | path_left c' f l r p c :
      path_to l p c → path_to (newNode c' f (Some l) r) (false :: p) c
  | path_right c' f l r p c :
      path_to r p c → path_to (newNode c' f l (Some r)) (true :: p) c.

#[global] Instance CodeEntry_inhabited : Inhabited Enc.CodeEntry :=
  populate (Enc.mkCodeEntry [] 0).

(** Bit [i] of a code entry, as [compress] reads it, and the whole code. *)
Definition entry_bit (e : Enc.CodeEntry) (i : nat) : bool :=
  Z.testbit (Enc.code e !!! (i / 8)%nat) (Z.of_nat (7 - i mod 8)).

Definition entry_bits (e : Enc.CodeEntry) : list bool :=
  entry_bit e <$> seq 0 (Z.to_nat (Enc.len e)).

(** The array of an entry is long enough for its bits. *)
Definition entry_ok (e : Enc.CodeEntry) : Prop :=
  (Z.to_nat (Enc.len e) ≤ 8 * length (Enc.code e))%nat.

(** No entry of the table with a code is a prefix of another one. *)
Definition prefix_free (codes : list Enc.CodeEntry) : Prop :=
  ∀ i j e1 e2,
    codes !! i = Some e1 → codes !! j = Some e2 → i ≠ j →
    0 < Enc.len e1 → 0 < Enc.len e2 →
    ¬ entry_bits e1 `prefix_of` entry_bits e2.

(** ** The persisted frequency table *)

(** The (symbol, count) pairs [writeFreqTable] emits for the indices
    [idxs], and the bytes of one pair. *)
Definition table_entries (freq : list Z) (idxs : list nat) : list (nat * Z) :=
  omap (λ i, f ← freq !! i; if 0 <? f then Some (i, f) else None) idxs.

Definition entry_bytes (e : nat * Z) : list byte :=
  z2b (Z.of_nat e.1) :: le_bytes 4 e.2.

(** A frequency table as the programs hold it: 256 counters of 32 bits. *)
Definition freq_table_ok (freq : list Z) : Prop :=
  length freq = 256%nat ∧ Forall (λ x, 0 <= x < 2 ^ 32) freq.

(** The fields of a header fit their types. *)
Definition header_ok (h : HuffHeader) : Prop :=
  0 <= magic h < 2 ^ 32 ∧ 0 <= version h < 2 ^ 16 ∧
  0 <= original_size h < 2 ^ 64 ∧ 0 <= compressed_size h < 2 ^ 64 ∧
  0 <= checksum h < 2 ^ 32 ∧ 0 <= tree_size h < 2 ^ 16 ∧
  0 <= padding_bits h < 2 ^ 8 ∧ 0 <= reserved h < 2 ^ 8.

(** The height of the tree [main] builds for an input (0 without a tree). *)
Definition tree_height (input : list byte) : nat :=
  match Enc.buildHuffmanTree (Enc.buildFreqTable input) with
  | Some (Some root) => height root
  | _ => O
  end.

(** ** Concrete inputs *)

(** The six bytes "aaabbc". *)
Definition aaabbc : list byte := ["a"; "a"; "a"; "b"; "b"; "c"]%byte.

(** The table of "aaabbc": a = 3, b = 2, c = 1. *)
Definition aaabbc_freq : list Z :=
  <[97%nat := 3]> (<[98%nat := 2]> (<[99%nat := 1]> (replicate 256 0))).

(** 2^32 copies of the byte "A": a file of 4 GiB. *)
Definition four_gib_of_A : list byte := replicate (Z.to_nat (2 ^ 32)) "A"%byte.

(** A container whose header declares zero original bytes. *)
Definition zero_size_file : list byte :=
  Enc.writeHeader (mkHuffHeader MAGIC_NUMBER VERSION 0 0 0 0 0 0) ++ ["000"%byte].

(** An allocator that serves every request below [limit] bytes with a
    zeroed block and refuses the others, and a machine whose two
    allocators serve requests below 2^40 bytes. *)
Definition malloc_below (limit : Z) : allocator :=
  λ size, if size <? limit then Some (λ _, x00) else None.

Definition one_tebibyte : Dec.Memory :=
  Dec.mkMemory (malloc_below (2 ^ 40)) (malloc_below (2 ^ 40)).

(** The container of "aaabbc" with the version field set to 0. *)
Definition version0_file : list byte :=
  Enc.writeHeader (mkHuffHeader MAGIC_NUMBER 0 6 2 0x9D81954E 3 7 0) ++
  ["a"; "003"; "000"; "000"; "000";
   "b"; "002"; "000"; "000"; "000";
   "c"; "001"; "000"; "000"; "000";
   "031"; "000"]%byte.

(** What the decompressor prints for a file it does not recognise. *)
Definition format_error (m : message) : Prop :=
  m = FileTooSmall ∨ m = NotHuffmanFile ∨ m = UnsupportedVersion.

(** The header and table of a container for three bytes "a". *)
Definition aaa_header : HuffHeader :=
  mkHuffHeader MAGIC_NUMBER VERSION 3 1 0xF007732D 1 5 0.

Definition aaa_preamble : list byte :=
  Enc.writeHeader aaa_header ++ ["a"; "003"; "000"; "000"; "000"]%byte.

Definition aaa_freq : list Z := <[97%nat := 3]> (replicate 256 0).

(** The same container with an original size of 2^62 in its header. *)
Definition huge_aaa_file : list byte :=
  Enc.writeHeader (mkHuffHeader MAGIC_NUMBER VERSION (2 ^ 62) 1 0xF007732D 1 5 0) ++
  ["a"; "003"; "000"; "000"; "000"; "000"]%byte.

(** The container [main] writes for "aaabbc". *)
Definition aaabbc_file : list byte :=
  ["F"; "F"; "U"; "H"; "001"; "000";
   "006"; "000"; "000"; "000"; "000"; "000"; "000"; "000";
   "002"; "000"; "000"; "000"; "000"; "000"; "000"; "000";
   "N"; "149"; "129"; "157"; "003"; "000"; "007"; "000";
   "a"; "003"; "000"; "000"; "000";
   "b"; "002"; "000"; "000"; "000";
   "c"; "001"; "000"; "000"; "000";
   "031"; "000"]%byte.

(** The container of "aaabbc" with the first byte of the magic number
    changed. *)
Definition bad_magic_file : list byte := <[0%nat := "G"%byte]> aaabbc_file.

(** The first [n] terms of the sequence that starts with [a], [b] and
    adds the last two terms. *)
Fixpoint fibs (n : nat) (a b : Z) : list Z :=
  match n with
  | O => []
  | S n' => a :: fibs n' b (a + b)
  end.

(** A table whose counts are the first 34 Fibonacci numbers, for the
    symbols 0 to 33: the table of any file of 14930351 bytes with these
    counts. *)
Definition fib_freq : list Z := fibs 34 1 1 ++ replicate 222 0.

(** A file for the decoder of huffman-00: an original size of 3, a table
    where only "a" has a count (3), and the payload byte 0x40, whose
    second bit is 1. *)
Definition h00_bad_file : list byte :=
  le_bytes 8 3 ++ flat_map (le_bytes 4) aaa_freq ++ ["@"%byte].

(** ** Invariants of [generateCodes] *)

(** The state of the array of a code after the bits below [k] are set. *)
Definition pack_inv (code : Z) (depth k : nat) (bytes : list Z) : Prop :=
  length bytes = ((depth + 7) / 8)%nat ∧
  ∀ j p, (j < length bytes)%nat → (p < 8)%nat →
    Z.testbit (bytes !!! j) (Z.of_nat (7 - p))
    = bool_decide (8 * j + p < k)%nat &&
      Z.testbit code (Z.of_nat (depth - 1 - (8 * j + p))).

(** The accumulator [code] holds the branches [acc] in its low bits. *)
Definition holds (code : Z) (acc : list bool) : Prop :=
  ∀ i, (i < length acc)%nat →
       Z.testbit code (Z.of_nat (length acc - 1 - i)) = acc !!! i.

(** ** The order of the binary heap of pqueue.h *)

(** Every slot holds a frequency at least that of its parent slot
    [k / 2] (1-based); slot 1 has no parent. *)
Definition heap_ok (h : list Node) : Prop :=
  ∀ k p c, hget h (k / 2) = Some p → hget h k = Some c → freq p <= freq c.

(** [heap_ok] but for the slot [k] and its parent. *)
Definition heap_ok_but (h : list Node) (k : nat) : Prop :=
  ∀ j p c, j ≠ k → hget h (j / 2) = Some p → hget h j = Some c → freq p <= freq c.

(** A queue holding three leaves, the least in the first slot. *)
Definition pq_cab : PQ :=
  mkPQ [newNode "c" 1 None None; newNode "a" 3 None None; newNode "b" 2 None None] 4.


(** The container of "aaabbc" cut after the first byte of its payload,
    with a compressed size of 1 in its header: the payload holds the
    codes of "aaabb" and one more bit. *)
Definition short_aaabbc_file : list byte :=
  Enc.writeHeader (mkHuffHeader MAGIC_NUMBER VERSION 6 1 0x9D81954E 3 7 0) ++
  ["a"; "003"; "000"; "000"; "000";
   "b"; "002"; "000"; "000"; "000";
   "c"; "001"; "000"; "000"; "000";
   "031"]%byte.

(** ** The frequencies stored in a tree *)

(** Every leaf holds the count of its symbol in [table], which is not
    zero, and every other node holds the symbol 0 and the 32-bit sum of
    the frequencies of its two children. *)
Fixpoint weights_ok (table : list Z) (n : Node) : bool :=
  let 'newNode c f l r := n in
  match l, r with
  | None, None => (f =? table !!! bidx c) && (0 <? f)
  | Some ln, Some rn =>
      (b2z c =? 0) && (f =? u32 (freq ln + freq rn)) &&
      weights_ok table ln && weights_ok table rn
  | _, _ => false
  end.

(** A tree with the leaves "a" and "b". *)
Definition tree_ab : Node :=
  newNode x00 5 (Some (newNode "a" 2 None None)) (Some (newNode "b" 3 None None)).

(** ** The encoder and decoder of huffman-00 *)

(** The characters of a code string as bits, and back. *)
Definition code_bits (code : list byte) : list bool :=
  (λ ch, Byte.eqb ch "1") <$> code.

Definition code_chars (p : list bool) : list byte :=
  (λ b : bool, if b then "1"%byte else "0"%byte) <$> p.

(** The walk of [decodeFile] on a list of bits: [H00.decode_bits] without
    the bytes the bits come from. *)
Fixpoint h00_walk (bits : list bool) (root current : Node) (output : list byte)
    (original_file_size : Z) : Node * list byte * bool :=
  match bits with
  | [] => (current, output, false)
  | b :: bits' =>
      if original_file_size <=? Z.of_nat (length output) then (current, output, false)
      else
        match (if b then right current else left current) with
        | None => (current, output, true)
        | Some current' =>
            if is_leaf current'
            then h00_walk bits' root root (output ++ [ch current']) original_file_size
            else h00_walk bits' root current' output original_file_size
        end
  end.

(** The bits the packing loop of [encodeFile] has received. *)
Definition packed (st : H00.Packer) : list bool :=
  bits_of_bytes (H00.written_bytes st) ++
  low_bits (H00.buffer st) (Z.to_nat (H00.bit_count st)).

Definition packer_ok (st : H00.Packer) : Prop :=
  0 <= H00.bit_count st < 8 ∧ 0 <= H00.buffer st < 2 ^ H00.bit_count st.

(** ** The checksum *)

(** The body of the loop of [crc32]. *)
Definition crc_update (crc : Z) (b : byte) : Z :=
  Z.lxor (init_crc32 !!! Z.to_nat (Z.land (Z.lxor crc (b2z b)) 0xFF))
         (Z.shiftr crc 8).

(** ** The order of the heap of huffman-00 *)

(** From the slot [k] on, every slot holds a frequency at most that of
    its children, the slots [2 * i + 1] and [2 * i + 2]: slot [i] has
    the parent [(i - 1) / 2]. *)
Definition heap0_from (k : nat) (a : list Node) : Prop :=
  ∀ i p c, (1 ≤ i)%nat → (k ≤ (i - 1) / 2)%nat →
    a !! ((i - 1) / 2)%nat = Some p → a !! i = Some c → freq p <= freq c.

Definition heap0_ok (a : list Node) : Prop := heap0_from 0 a.

(** ** The order of siblings in a tree *)

(** At every node with two children the left child has a frequency at
    most that of the right child. *)
Fixpoint left_le (n : Node) : bool :=
  let 'newNode _ _ l r := n in
  match l, r with
  | Some ln, Some rn => (freq ln <=? freq rn) && left_le ln && left_le rn
  | Some ln, None => left_le ln
  | None, Some rn => left_le rn
  | None, None => true
  end.

(** * Properties *)

Section PriorityQueue.

#[local] Arguments Nat.div : simpl never.
#[local] Arguments Nat.modulo : simpl never.
#[local] Arguments Nat.mul : simpl never.

(** ** Bytes *)

Lemma b2z_range (b : byte) : 0 <= b2z b < 256.
Proof.
  unfold b2z. pose proof (Byte.to_N_bounded b). lia.
Qed.

Lemma bidx_lt (b : byte) : (bidx b < 256)%nat.
Proof.
  unfold bidx. pose proof (Byte.to_N_bounded b). lia.
Qed.

Lemma bidx_b2z (b : byte) : Z.of_nat (bidx b) = b2z b.
Proof. unfold bidx, b2z. lia. Qed.

Lemma z2b_b2z (b : byte) : z2b (b2z b) = b.
Proof.
  unfold z2b, u8. rewrite Z.mod_small by apply b2z_range.
  unfold b2z. rewrite N2Z.id, Byte.of_to_N. reflexivity.
Qed.

Lemma b2z_z2b (z : Z) : b2z (z2b z) = z mod 256.
Proof.
  unfold z2b, u8. change (2 ^ 8) with 256.
  pose proof (Z.mod_pos_bound z 256 eq_refl) as Hr.
  destruct (Byte.of_N (Z.to_N (z mod 256))) as [b|] eqn:E; simpl.
  - apply Byte.to_of_N in E. unfold b2z. rewrite E. lia.
  - apply Byte.of_N_None_iff in E. lia.
Qed.

Lemma b2z_inj (a b : byte) : b2z a = b2z b → a = b.
Proof.
  intros H. rewrite <- (z2b_b2z a), <- (z2b_b2z b), H. reflexivity.
Qed.

Lemma bidx_inj (a b : byte) : bidx a = bidx b → a = b.
Proof.
  intros H. apply b2z_inj. rewrite <- !bidx_b2z, H. reflexivity.
Qed.

Lemma z2b_bidx (b : byte) : z2b (Z.of_nat (bidx b)) = b.
Proof. rewrite bidx_b2z. apply z2b_b2z. Qed.

Lemma bidx_z2b (i : nat) : (i < 256)%nat → bidx (z2b (Z.of_nat i)) = i.
Proof.
  intros Hi. apply Nat2Z.inj. rewrite bidx_b2z, b2z_z2b.
  apply Z.mod_small. lia.
Qed.

(** ** Updating a slot that holds a copy: the hole of the heap loops *)

Section ListHole.
Context {A : Type}.
Implicit Types (l : list A) (x y : A).

Lemma insert_perm_cons l i x y :
  l !! i = Some y → y :: <[i:=x]> l ≡ₚ x :: l.
Proof.
  revert i. induction l as [|z l IH]; intros [|i] H; simplify_eq/=.
  - apply perm_swap.
  - rewrite perm_swap, (IH _ H). apply perm_swap.
Qed.

Lemma insert_move_hole l a b x y :
  a ≠ b → (a < length l)%nat → l !! b = Some y →
  <[b:=x]> (<[a:=y]> l) ≡ₚ <[a:=x]> l.
Proof.
  revert a b. induction l as [|z l IH]; intros a b Hab Ha Hb; [done|].
  destruct a as [|a], b as [|b]; simplify_eq/=.
  - by apply insert_perm_cons.
  - destruct (lookup_lt_is_Some_2 l a ltac:(lia)) as [w Hw].
    apply (Permutation_cons_inv (a:=w)).
    etrans; [apply perm_swap|]. rewrite (insert_perm_cons _ _ _ _ Hw).
    etrans; [|apply perm_swap]. rewrite (insert_perm_cons _ _ _ _ Hw).
    apply perm_swap.
  - f_equiv. apply IH; [congruence|lia|done].
Qed.

End ListHole.

(** ** pqueue.h *)

Lemma hget_Some h i : (1 ≤ i ≤ length h)%nat → ∃ x, hget h i = Some x.
Proof.
  intros Hi. destruct i as [|j]; [lia|]. simpl.
  apply lookup_lt_is_Some_2. lia.
Qed.

Lemma length_hset h i x : length (hset h i x) = length h.
Proof. destruct i; simpl; [done|apply length_insert]. Qed.

Lemma hset_move_hole h a b x y :
  a ≠ b → (1 ≤ a ≤ length h)%nat → (1 ≤ b)%nat → hget h b = Some y →
  hset (hset h a y) b x ≡ₚ hset h a x.
Proof.
  intros Hab Ha Hb Hy. destruct a as [|a], b as [|b]; try lia. simpl in *.
  apply insert_move_hole; [congruence|lia|done].
Qed.

Lemma percolate_up_spec fuel h k item :
  (1 ≤ k ≤ length h)%nat → (k ≤ fuel)%nat →
  ∃ h' k', percolate_up fuel h k item = Some (h', k') ∧
           (1 ≤ k' ≤ k)%nat ∧ length h' = length h ∧
           hset h' k' item ≡ₚ hset h k item.
Proof.
  revert h k. induction fuel as [|fuel IH]; intros h k Hk Hf; [lia|].
  simpl. destruct (decide (1 < k)%nat) as [Hgt|Hle].
  - assert (1 ≤ k / 2 < k)%nat as Hhalf.
    { split; [apply Nat.div_le_lower_bound; lia|apply Nat.div_lt; lia]. }
    destruct (hget_Some h (k / 2)) as [parent Hp]; [lia|].
    rewrite Hp. simpl. destruct (freq item <? freq parent).
    + destruct (IH (hset h k parent) (k / 2)%nat) as (h' & k' & -> & Hk' & Hlen & Hperm).
      { rewrite length_hset. lia. }
      { lia. }
      exists h', k'. split; [done|]. split; [lia|].
      rewrite length_hset in Hlen. split; [done|].
      rewrite Hperm. apply hset_move_hole; [lia|lia|lia|done].
    + exists h, k. repeat split; (done || lia).
  - exists h, k. repeat split; (done || lia).
Qed.

Lemma PQinsert_spec pq item :
  (PQ_n pq < maxN pq)%nat →
  ∃ pq', PQinsert pq item = Some pq' ∧ maxN pq' = maxN pq ∧
         heap pq' ≡ₚ item :: heap pq.
Proof.
  intros Hn. unfold PQinsert. destruct (decide _) as [|_]; [lia|].
  unfold PQ_n in *.
  destruct (percolate_up_spec (S (length (heap pq))) (heap pq ++ [item])
              (S (length (heap pq))) item) as (h' & k' & -> & Hk' & Hlen & Hperm).
  { rewrite length_app. simpl. lia. }
  { lia. }
  simpl. eexists. split; [done|]. split; [done|]. simpl.
  rewrite Hperm. simpl.
  rewrite insert_app_r_alt, Nat.sub_diag by lia. simpl.
  by rewrite Permutation_app_comm.
Qed.

Lemma percolate_down_spec fuel h n k last :
  n = length h → (1 ≤ k ≤ n)%nat → (n < fuel + k)%nat →
  ∃ h' k', percolate_down fuel h n k last = Some (h', k') ∧
           (1 ≤ k' ≤ n)%nat ∧ length h' = n ∧
           hset h' k' last ≡ₚ hset h k last.
Proof.
  revert h k. induction fuel as [|fuel IH]; intros h k Hn Hk Hf; [lia|].
  simpl. destruct (decide (2 * k ≤ n)%nat) as [Hin|Hout].
  - destruct (hget_Some h (2 * k)) as [hj Hj]; [lia|]. rewrite Hj. simpl.
    assert (∃ j', (2 * k ≤ j' ≤ n)%nat ∧
              (if decide (2 * k < n)%nat
               then hget h (2 * k + 1)%nat ≫= λ hj1,
                      Some (if freq hj1 <? freq hj then (2 * k + 1)%nat else (2 * k)%nat)
               else Some (2 * k)%nat) = Some j') as (j' & Hj' & ->).
    { destruct (decide (2 * k < n)%nat).
      - destruct (hget_Some h (2 * k + 1)) as [hj1 ->]; [lia|]. simpl.
        destruct (freq hj1 <? freq hj); eexists; (split; [|done]); lia.
      - eexists; (split; [|done]); lia. }
    simpl. destruct (hget_Some h j') as [child Hc]; [lia|]. rewrite Hc. simpl.
    destruct (freq last <=? freq child).
    + exists h, k. repeat split; (done || lia).
    + destruct (IH (hset h k child) j') as (h' & k' & -> & Hk' & Hlen & Hperm).
      { rewrite length_hset. done. }
      { lia. }
      { lia. }
      exists h', k'. split; [done|]. split; [lia|]. split; [done|].
      rewrite Hperm. apply hset_move_hole; [lia|lia|lia|done].
  - exists h, k. repeat split; (done || lia).
Qed.

Lemma PQdelmin_spec pq :
  heap pq ≠ [] →
  ∃ min pq', PQdelmin pq = Some (Some min, pq') ∧ maxN pq' = maxN pq ∧
             min :: heap pq' ≡ₚ heap pq.
Proof.
  intros Hne. unfold PQdelmin, PQ_n.
  destruct (heap pq) as [|min rest] eqn:Hh; [done|]. simpl length. cbn iota.
  change (hget (min :: rest) 1) with (Some min).
  destruct (hget_Some (min :: rest) (S (length rest))) as [last Hl]; [simpl; lia|].
  rewrite Hl. cbn [mbind option_bind].
  assert (min :: rest = take (length rest) (min :: rest) ++ [last]) as Hsplit.
  { simpl in Hl. rewrite <- (take_drop (length rest) (min :: rest)) at 1.
    f_equal. apply list_eq. intros [|i].
    - rewrite lookup_drop, Nat.add_0_r. done.
    - rewrite lookup_drop. simpl. apply lookup_ge_None_2. simpl. lia. }
  remember (take (length rest) (min :: rest)) as h eqn:Hdef.
  assert (length h = length rest) as Hlh.
  { subst h. rewrite length_take. simpl. lia. }
  destruct (length rest) as [|n'] eqn:Hlr.
  - exists min. eexists. split; [reflexivity|]. split; [reflexivity|]. simpl.
    destruct h; [|discriminate]. simpl in Hsplit. by simplify_eq.
  - destruct (percolate_down_spec (S (S n')) h (S n') 1 last)
      as (h' & k & Hpd & Hk & Hlen & Hperm); [done|lia|lia|].
    rewrite Hpd. cbn [mbind option_bind].
    exists min. eexists. split; [reflexivity|]. split; [reflexivity|]. simpl heap.
    rewrite Hperm. rewrite Hsplit.
    assert (∃ t, h = min :: t) as [t Ht].
    { subst h. simpl. eauto. }
    rewrite Ht. simpl. f_equiv. apply Permutation_cons_append.
Qed.

End PriorityQueue.

Section TreeBuilder.

#[local] Arguments Nat.div : simpl never.
#[local] Arguments Nat.modulo : simpl never.
#[local] Arguments Nat.mul : simpl never.
#[local] Arguments seq : simpl never.

(** ** The tree builder of huffman-01 *)

Lemma decoder_builds_the_same_tree freq :
  Dec.buildHuffmanTree freq = Enc.buildHuffmanTree freq.
Proof. reflexivity. Qed.

Lemma leaf_nodes_unfold freq :
  leaf_nodes freq = omap (leaf_of freq) (seq 0 MAXN).
Proof. unfold leaf_nodes. reflexivity. Qed.

Lemma leaf_of_Some freq i n :
  leaf_of freq i = Some n →
  ∃ f, freq !! i = Some f ∧ 0 < f ∧ n = newNode (z2b (Z.of_nat i)) f None None.
Proof.
  unfold leaf_of. destruct (freq !! i) as [f|]; [|done]. simpl.
  destruct (0 <? f) eqn:E; [|done]. intros [= <-]. exists f. split; [done|]. split; [lia|done].
Qed.

Lemma insert_symbol_spec freq pq symbols i :
  (i < length freq)%nat → (PQ_n pq < maxN pq)%nat →
  ∃ pq', Enc.insert_symbol freq (pq, symbols) i
           = Some (pq', (symbols + length (omap (leaf_of freq) [i]))%nat) ∧
         maxN pq' = maxN pq ∧
         heap pq' ≡ₚ omap (leaf_of freq) [i] ++ heap pq.
Proof.
  intros Hi Hn. unfold Enc.insert_symbol, leaf_of. simpl.
  destruct (lookup_lt_is_Some_2 freq i Hi) as [f ->]. simpl.
  destruct (0 <? f).
  - destruct (PQinsert_spec pq (newNode (z2b (Z.of_nat i)) f None None) Hn)
      as (pq' & -> & Hm & Hp).
    simpl. exists pq'. split; [f_equal; f_equal; lia|]. done.
  - simpl. exists pq. split; [f_equal; f_equal; lia|]. done.
Qed.

Lemma insert_fold_spec freq idxs : ∀ pq symbols,
  (∀ i, i ∈ idxs → (i < length freq)%nat) →
  (PQ_n pq + length idxs ≤ maxN pq)%nat →
  ∃ pq', foldl (λ acc i, st ← acc; Enc.insert_symbol freq st i)
               (Some (pq, symbols)) idxs
           = Some (pq', (symbols + length (omap (leaf_of freq) idxs))%nat) ∧
         maxN pq' = maxN pq ∧
         heap pq' ≡ₚ omap (leaf_of freq) idxs ++ heap pq.
Proof.
  induction idxs as [|i idxs IH]; intros pq symbols Hin Hcap.
  - exists pq. simpl. split; [f_equal; f_equal; lia|done].
  - simpl in Hcap.
    destruct (insert_symbol_spec freq pq symbols i) as (pq1 & Hs & Hm1 & Hp1).
    { apply Hin. left. }
    { lia. }
    assert (length (heap pq1) ≤ S (length (heap pq)))%nat as Hlen.
    { rewrite Hp1, length_app. simpl. destruct (leaf_of freq i); simpl; lia. }
    destruct (IH pq1 (symbols + length (omap (leaf_of freq) [i]))%nat)
      as (pq' & Hf & Hm & Hp).
    { intros j Hj. apply Hin. by right. }
    { unfold PQ_n in *. lia. }
    exists pq'. cbn [foldl]. cbn [mbind option_bind]. rewrite Hs, Hf.
    change (i :: idxs) with ([i] ++ idxs). rewrite omap_app, length_app.
    split; [f_equal; f_equal; lia|]. split; [congruence|].
    rewrite Hp, Hp1. rewrite (assoc_L (++)). f_equiv. apply Permutation_app_comm.
Qed.

Lemma leaves_leaf_nodes freq idxs :
  flat_map leaves (omap (leaf_of freq) idxs) = ch <$> omap (leaf_of freq) idxs.
Proof.
  induction idxs as [|i idxs IH]; [done|]. csimpl.
  destruct (leaf_of freq i) as [n|] eqn:E; [|done].
  apply leaf_of_Some in E as (f & _ & _ & ->). csimpl. by rewrite IH.
Qed.

Lemma strict_leaf_nodes freq idxs :
  Forall (λ t, strict t = true) (omap (leaf_of freq) idxs).
Proof.
  induction idxs as [|i idxs IH]; csimpl; [constructor|].
  destruct (leaf_of freq i) as [n|] eqn:E; [|done].
  apply leaf_of_Some in E as (f & _ & _ & ->). by constructor.
Qed.

Lemma merge_loop_step s pq :
  Enc.merge_loop (S (S s)) pq =
    '(l, pq1) ← PQdelmin pq;
    '(r, pq2) ← PQdelmin pq1;
    l ← l; r ← r;
    pq3 ← PQinsert pq2 (newNode x00 (u32 (freq l + freq r)) (Some l) (Some r));
    Enc.merge_loop (S s) pq3.
Proof. reflexivity. Qed.

Lemma merge_loop_spec symbols : ∀ pq,
  symbols = PQ_n pq → (1 ≤ symbols ≤ maxN pq)%nat →
  ∃ root, Enc.merge_loop symbols pq = Some (mkPQ [root] (maxN pq)) ∧
          (Forall (λ t, strict t = true) (heap pq) → strict root = true) ∧
          leaves root ≡ₚ flat_map leaves (heap pq) ∧
          (2 ≤ symbols → is_leaf root = false)%nat ∧
          (symbols = 1%nat → heap pq = [root]).
Proof.
  induction symbols as [|symbols IH]; intros pq Hn Hb; [lia|].
  destruct symbols as [|s].
  - (* one node left *)
    unfold PQ_n in Hn. destruct pq as [[|root [|??]] m]; simplify_eq/=.
    exists root. split; [done|]. split; [by intros ?%Forall_inv|].
    split; [by rewrite app_nil_r|]. split; [lia|done].
  - rewrite merge_loop_step.
    destruct (PQdelmin_spec pq) as (l & pq1 & -> & Hm1 & Hp1).
    { unfold PQ_n in Hn. by destruct (heap pq). }
    cbn [mbind option_bind].
    assert (length (heap pq1) = S s) as Hl1.
    { apply Permutation_length in Hp1. unfold PQ_n in Hn. simpl in Hp1. lia. }
    destruct (PQdelmin_spec pq1) as (r & pq2 & -> & Hm2 & Hp2).
    { by destruct (heap pq1). }
    cbn [mbind option_bind].
    assert (length (heap pq2) = s) as Hl2.
    { apply Permutation_length in Hp2. simpl in Hp2. lia. }
    destruct (PQinsert_spec pq2 (newNode x00 (u32 (freq l + freq r)) (Some l) (Some r)))
      as (pq3 & -> & Hm3 & Hp3).
    { unfold PQ_n. lia. }
    cbn [mbind option_bind].
    destruct (IH pq3) as (root & -> & Hstrict & Hleaves & Hleaf & Hone).
    { unfold PQ_n. apply Permutation_length in Hp3. simpl in Hp3. lia. }
    { lia. }
    exists root. split; [by rewrite Hm3, Hm2, Hm1|].
    assert (heap pq ≡ₚ l :: r :: heap pq2) as Hpq.
    { by rewrite <- Hp1, <- Hp2. }
    split; [|split; [|split; [|lia]]].
    + intros Hall. apply Hstrict. rewrite Hp3.
      rewrite Hpq in Hall.
      apply list.Forall_cons in Hall as [Hsl Hall].
      apply list.Forall_cons in Hall as [Hsr Hall].
      constructor; [|done]. simpl. by rewrite Hsl, Hsr.
    + rewrite Hleaves, Hp3, Hpq. simpl. by rewrite (assoc_L (++)).
    + intros _. destruct s as [|s'].
      * rewrite (Hone eq_refl) in Hp3.
        destruct (heap pq2); [|done].
        apply Permutation_singleton_l in Hp3. by injection Hp3 as ->.
      * apply Hleaf. lia.
Qed.

Lemma length_omap_le {A B} (f : A → option B) (l : list A) :
  (length (omap f l) ≤ length l)%nat.
Proof.
  induction l as [|x l IH]; csimpl; [done|].
  destruct (f x); simpl; lia.
Qed.

Lemma NoDup_symbols_of freq : NoDup (symbols_of freq).
Proof.
  unfold symbols_of. rewrite leaf_nodes_unfold.
  assert (∀ idxs, (∀ i, i ∈ idxs → (i < 256)%nat) → NoDup idxs →
            NoDup (ch <$> omap (leaf_of freq) idxs) ∧
            ∀ c, c ∈ ch <$> omap (leaf_of freq) idxs → bidx c ∈ idxs) as H.
  { induction idxs as [|i idxs IH]; intros Hr Hnd.
    - split; [constructor|]. simpl. by intros c ?%elem_of_nil.
    - apply list.NoDup_cons in Hnd as [Hni Hnd].
      destruct IH as [IH1 IH2]; [intros j Hj; apply Hr; by right|done|].
      csimpl. destruct (leaf_of freq i) as [n|] eqn:E.
      + apply leaf_of_Some in E as (f & _ & _ & ->). csimpl. split.
        * apply list.NoDup_cons. split; [|done]. intros Hc. apply IH2 in Hc.
          rewrite bidx_z2b in Hc; [done|]. apply Hr. left.
        * intros c [->|Hc]%elem_of_cons.
          -- rewrite bidx_z2b; [left|]. apply Hr. left.
          -- right. by apply IH2.
      + split; [done|]. intros c Hc. right. by apply IH2. }
  apply H.
  - intros i Hi%elem_of_seq. unfold MAXN in Hi. lia.
  - apply NoDup_seq.
Qed.

(** [buildHuffmanTree] always returns: [NULL] when no symbol has a count,
    and otherwise a tree whose leaves are the symbols with a count. *)
Lemma buildHuffmanTree_spec freq :
  (256 ≤ length freq)%nat →
  ∃ r, Enc.buildHuffmanTree freq = Some r ∧
       match r with
       | None => symbols_of freq = []
       | Some root =>
           strict root = true ∧ leaves root ≡ₚ symbols_of freq ∧
           (is_leaf root = true → symbols_of freq = [ch root]) ∧
           (is_leaf root = false → 2 ≤ length (symbols_of freq))%nat
       end.
Proof.
  intros Hlen. unfold Enc.buildHuffmanTree.
  destruct (insert_fold_spec freq (seq 0 MAXN) (PQinit MAXN) 0)
    as (pq & -> & Hm & Hp).
  { intros i Hi%elem_of_seq. unfold MAXN in Hi. lia. }
  { unfold PQ_n. rewrite length_seq. simpl. lia. }
  cbn [mbind option_bind].
  change (maxN (PQinit MAXN)) with MAXN in Hm.
  change (heap (PQinit MAXN)) with (@nil Node) in Hp. rewrite app_nil_r in Hp.
  rewrite <- leaf_nodes_unfold in Hp |- *.
  assert (length (leaf_nodes freq) ≤ MAXN)%nat as Hle.
  { rewrite leaf_nodes_unfold. etrans; [apply length_omap_le|]. by rewrite length_seq. }
  assert (length (heap pq) = length (leaf_nodes freq)) as Hlh.
  { by rewrite Hp. }
  assert (flat_map leaves (heap pq) ≡ₚ symbols_of freq) as Hsym.
  { etrans; [apply (Permutation_flat_map leaves), Hp|].
    unfold symbols_of. rewrite leaf_nodes_unfold, leaves_leaf_nodes. reflexivity. }
  assert (Forall (λ t, strict t = true) (heap pq)) as Hst.
  { rewrite Hp, leaf_nodes_unfold. apply strict_leaf_nodes. }
  rewrite Nat.add_0_l.
  destruct (length (leaf_nodes freq)) as [|[|s]] eqn:Hcount.
  - exists None. split; [done|]. unfold symbols_of.
    by destruct (leaf_nodes freq).
  - destruct (PQdelmin_spec pq) as (single & pq1 & -> & _ & Hp1).
    { by destruct (heap pq). }
    cbn [mbind option_bind]. exists (Some single). split; [done|].
    assert (heap pq = [single]) as Hone.
    { apply Permutation_length in Hp1 as Hl. simpl in Hl.
      destruct (heap pq1); [|simpl in Hl; lia].
      symmetry. by apply Permutation_singleton_l. }
    rewrite Hone in *. simpl in Hsym. rewrite app_nil_r in Hsym.
    apply Forall_inv in Hst.
    assert (leaf_nodes freq = [single]) as Hln.
    { by apply Permutation_singleton_l in Hp. }
    assert (single ∈ leaf_nodes freq) as Hin by (rewrite Hln; left).
    rewrite leaf_nodes_unfold in Hin. apply list_elem_of_omap in Hin as (i & _ & Hi).
    apply leaf_of_Some in Hi as (f & _ & _ & ->).
    split; [done|]. split; [done|]. unfold symbols_of. rewrite Hln. simpl.
    split; [done|]. done.
  - destruct (merge_loop_spec (S (S s)) pq)
      as (root & -> & Hstrict & Hleaves & Hleaf & _).
    { unfold PQ_n. lia. }
    { rewrite Hm. unfold MAXN in *. lia. }
    cbn [mbind option_bind].
    destruct (PQdelmin_spec (mkPQ [root] (maxN pq))) as (m & pq1 & -> & _ & Hp1);
      [done|].
    cbn [mbind option_bind]. simpl in Hp1.
    assert (m = root) as ->.
    { apply Permutation_length in Hp1 as Hl. simpl in Hl.
      destruct (heap pq1); [|simpl in Hl; lia].
      apply Permutation_singleton_l in Hp1. by injection Hp1. }
    exists (Some root). split; [done|].
    split; [by apply Hstrict|]. split; [by rewrite Hleaves|].
    rewrite Hleaf by lia. split; [done|]. intros _.
    unfold symbols_of. rewrite length_fmap, Hcount. lia.
Qed.

End TreeBuilder.

Section Container.

#[local] Arguments Nat.div : simpl never.
#[local] Arguments Nat.modulo : simpl never.
#[local] Arguments Nat.mul : simpl never.
#[local] Arguments seq : simpl never.
#[local] Arguments Z.mul : simpl never.
#[local] Arguments Z.add : simpl never.
#[local] Arguments Z.sub : simpl never.
#[local] Arguments Z.pow : simpl never.
#[local] Arguments Z.modulo : simpl never.
#[local] Arguments Z.div : simpl never.
#[local] Arguments Z.shiftl : simpl never.
#[local] Arguments Z.shiftr : simpl never.
#[local] Arguments Z.land : simpl never.
#[local] Arguments Z.lor : simpl never.
#[local] Arguments Z.testbit : simpl never.
#[local] Arguments Z.of_nat : simpl never.
#[local] Arguments Z.to_nat : simpl never.
#[local] Arguments bits_of_byte : simpl never.
#[local] Arguments bits_of_bytes : simpl never.
#[local] Arguments high_bits : simpl never.
#[local] Arguments Z.lxor : simpl never.
#[local] Arguments replicate : simpl never.

(** ** Single bits *)

Lemma land_shiftr_1 x k :
  0 <= k → Z.land (Z.shiftr x k) 1 = Z.b2z (Z.testbit x k).
Proof.
  intros Hk. change 1 with (Z.ones 1) at 1.
  rewrite Z.land_ones by lia. change (2 ^ 1) with 2.
  rewrite <- Z.bit0_mod, Z.shiftr_spec by lia. reflexivity.
Qed.

Lemma lor_double_bit a (v : bool) :
  Z.lor (Z.shiftl a 1) (Z.b2z v) = 2 * a + Z.b2z v.
Proof.
  rewrite Z.shiftl_mul_pow2 by lia. change (2 ^ 1) with 2.
  rewrite (Z.mul_comm a 2).
  apply Z.bits_inj'. intros n Hn. rewrite Z.lor_spec.
  destruct (decide (n = 0)) as [->|Hne].
  - rewrite Z.testbit_0_r, Z.testbit_even_0, Z.b2z_bit0. reflexivity.
  - replace n with (Z.succ (n - 1)) by lia.
    rewrite Z.testbit_succ_r, Z.testbit_even_succ by lia.
    replace (Z.b2z v) with (2 * 0 + Z.b2z v) by lia.
    rewrite Z.testbit_succ_r, Z.testbit_0_l by lia.
    apply orb_false_r.
Qed.

Lemma low_bits_snoc bb u (v : bool) :
  low_bits (2 * bb + Z.b2z v) (S u) = low_bits bb u ++ [v].
Proof.
  induction u as [|u IH].
  - cbn [low_bits app]. change (Z.of_nat 0) with 0. by rewrite Z.testbit_0_r.
  - change (low_bits bb (S u)) with (Z.testbit bb (Z.of_nat u) :: low_bits bb u).
    change (low_bits ?x (S (S u)))
      with (Z.testbit x (Z.of_nat (S u)) :: low_bits x (S u)).
    rewrite IH, Nat2Z.inj_succ, Z.testbit_succ_r by lia. reflexivity.
Qed.

Lemma low_bits_shiftl bb u k :
  low_bits (Z.shiftl bb (Z.of_nat k)) (u + k) = low_bits bb u ++ replicate k false.
Proof.
  induction k as [|k IH].
  - rewrite Nat.add_0_r, app_nil_r. simpl. by rewrite Z.shiftl_0_r.
  - rewrite Nat2Z.inj_succ, <- Z.add_1_r, <- Z.shiftl_shiftl by lia.
    rewrite Z.shiftl_mul_pow2 with (n := 1) by lia. change (2 ^ 1) with 2.
    replace (Z.shiftl bb (Z.of_nat k) * 2) with (2 * Z.shiftl bb (Z.of_nat k) + Z.b2z false)
      by (simpl; lia).
    rewrite Nat.add_succ_r, low_bits_snoc, IH, <- (assoc_L (++)).
    f_equal. by rewrite <- replicate_cons_app.
Qed.

Lemma bits_of_byte_z2b x :
  0 <= x < 256 → bits_of_byte (z2b x) = low_bits x 8.
Proof.
  intros Hx. unfold bits_of_byte, low_bits.
  rewrite b2z_z2b, Z.mod_small by lia. reflexivity.
Qed.

Lemma bits_of_byte_high b : bits_of_byte b = high_bits (b2z b) 8.
Proof. reflexivity. Qed.

Lemma length_bits_of_byte b : length (bits_of_byte b) = 8%nat.
Proof. reflexivity. Qed.

Lemma length_bits_of_bytes bs : length (bits_of_bytes bs) = (8 * length bs)%nat.
Proof.
  induction bs as [|b bs IH]; [done|].
  unfold bits_of_bytes in *. cbn [flat_map].
  rewrite length_app, IH, length_bits_of_byte. simpl length. lia.
Qed.

Lemma bits_of_bytes_app a b :
  bits_of_bytes (a ++ b) = bits_of_bytes a ++ bits_of_bytes b.
Proof. unfold bits_of_bytes. apply flat_map_app. Qed.

Lemma bits_of_bytes_singleton b : bits_of_bytes [b] = bits_of_byte b.
Proof. unfold bits_of_bytes. cbn [flat_map]. apply app_nil_r. Qed.

(** ** The bit buffer of the compressor *)

Lemma buffer_ok_init : buffer_ok Enc.bitBufferInit.
Proof. unfold buffer_ok. simpl. lia. Qed.

Lemma bitBufferWriteBits_one buf (v : bool) :
  buffer_ok buf →
  ∃ buf', Enc.bitBufferWriteBits buf (Z.b2z v) 1 = Some buf' ∧
          buffer_ok buf' ∧ written buf' = written buf ++ [v].
Proof.
  intros [Hu Hb]. destruct buf as [d bb u]. simpl in *.
  unfold Enc.bitBufferWriteBits, Enc.write_bit. simpl.
  rewrite Z.shiftr_0_r.
  assert (Z.land (Z.b2z v) 1 = Z.b2z v) as -> by (by destruct v).
  rewrite lor_double_bit.
  assert (0 <= 2 * bb + Z.b2z v < 2 ^ (u + 1)) as Hnew.
  { rewrite Z.pow_add_r by lia. change (2 ^ 1) with 2. destruct v; simpl; lia. }
  assert (2 ^ (u + 1) <= 2 ^ 8) as Hpow by (apply Z.pow_le_mono_r; lia).
  unfold u8. rewrite (Z.mod_small (2 * bb + _)) by lia.
  rewrite (Z.mod_small (u + 1)) by (change (2 ^ 8) with 256; lia).
  assert (Z.to_nat (u + 1) = S (Z.to_nat u)) as Hsu by lia.
  destruct (u + 1 =? 8) eqn:E.
  - eexists. split; [done|]. split.
    { unfold buffer_ok. simpl. lia. }
    unfold written. simpl. rewrite app_nil_r, bits_of_bytes_app.
    rewrite <- (assoc_L (++)). f_equal.
    rewrite bits_of_bytes_singleton, bits_of_byte_z2b by (change 256 with (2 ^ 8); lia).
    replace (Z.to_nat u) with 7%nat by lia. apply low_bits_snoc.
  - eexists. split; [done|]. split.
    { unfold buffer_ok. simpl. lia. }
    unfold written. simpl. rewrite <- (assoc_L (++)). f_equal.
    rewrite Hsu. apply low_bits_snoc.
Qed.

(** After the flush the data holds the written bits followed by the
    zero bits that complete the last byte. *)
Lemma bitBufferFlush_spec buf :
  buffer_ok buf →
  bits_of_bytes (Enc.data (Enc.bitBufferFlush buf))
    = written buf ++ replicate (Z.to_nat (padding_of buf)) false ∧
  Enc.bits_used (Enc.bitBufferFlush buf) = Enc.bits_used buf ∧
  0 <= padding_of buf < 8.
Proof.
  intros [Hu Hb]. destruct buf as [d bb u]. unfold padding_of, Enc.bitBufferFlush, written.
  simpl in *. destruct (0 <? u) eqn:E; simpl.
  - split; [|lia]. rewrite bits_of_bytes_app, <- (assoc_L (++)). f_equal.
    rewrite bits_of_bytes_singleton.
    assert (0 <= Z.shiftl bb (8 - u) < 256) as Hr.
    { rewrite Z.shiftl_mul_pow2 by lia. split; [apply Z.mul_nonneg_nonneg; lia|].
      change 256 with (2 ^ 8). replace 8 with (u + (8 - u)) at 2 by lia.
      rewrite Z.pow_add_r by lia. apply Z.mul_lt_mono_pos_r; lia. }
    unfold u8. rewrite Z.mod_small by (change (2 ^ 8) with 256; lia).
    rewrite bits_of_byte_z2b by done.
    replace 8%nat with (Z.to_nat u + Z.to_nat (8 - u))%nat by lia.
    rewrite <- low_bits_shiftl. f_equal. f_equal. lia.
  - assert (u = 0) as -> by lia. simpl. split; [|lia].
    by rewrite !app_nil_r.
Qed.

(** ** The bit reader of the decompressor *)

Lemma reader_ok_init d : reader_ok (Dec.bitReaderInit d).
Proof. unfold reader_ok. simpl. lia. Qed.

Lemma remaining_init d : remaining (Dec.bitReaderInit d) = bits_of_bytes d.
Proof. reflexivity. Qed.

Lemma high_bits_cons bb n :
  (n < 8)%nat →
  high_bits bb (S n) = Z.testbit bb 7 :: high_bits (u8 (Z.shiftl bb 1)) n.
Proof.
  intros Hn. unfold high_bits. simpl. f_equal.
  rewrite <- fmap_S_seq, <- list_fmap_compose.
  apply list_fmap_ext. intros i k Hk. simpl.
  apply lookup_seq in Hk as [-> Hi]. simpl.
  unfold u8. rewrite Z.mod_pow2_bits_low by lia.
  rewrite Z.shiftl_spec by lia. f_equal. lia.
Qed.

Lemma bitReaderReadBit_spec r :
  reader_ok r →
  match remaining r with
  | [] => Dec.bitReaderReadBit r = (-1, r) ∧ Dec.bits_available r = 0 ∧
          (length (Dec.data r) ≤ Dec.pos r)%nat
  | b :: rest =>
      ∃ r', Dec.bitReaderReadBit r = (Z.b2z b, r') ∧ reader_ok r' ∧
            remaining r' = rest ∧ Dec.data r' = Dec.data r
  end.
Proof.
  intros [Ha Hb]. destruct r as [d p bb a]. unfold remaining, Dec.bitReaderReadBit.
  simpl in *. destruct (a =? 0) eqn:E.
  - assert (a = 0) as -> by lia. change (Z.to_nat 0) with 0%nat.
    change (high_bits bb 0) with (@nil bool). cbn [app].
    destruct (d !! p) as [b|] eqn:Hd.
    + rewrite (drop_S _ _ _ Hd).
      change (bits_of_bytes (b :: drop (S p) d))
        with (bits_of_byte b ++ bits_of_bytes (drop (S p) d)).
      rewrite bits_of_byte_high, high_bits_cons by lia. simpl.
      pose proof (b2z_range b).
      change (u8 (8 - 1)) with 7.
      eexists. split; [rewrite land_shiftr_1 by lia; reflexivity|].
      split; [|split; [|done]].
      * unfold reader_ok, u8. simpl. split; [lia|]. apply Z.mod_pos_bound. lia.
      * unfold remaining. simpl. reflexivity.
    + rewrite drop_ge by (by apply lookup_ge_None). simpl.
      split; [done|]. split; [done|]. by apply lookup_ge_None.
  - assert (Z.to_nat a = S (Z.to_nat (a - 1))) as Ha' by lia.
    rewrite Ha', high_bits_cons by lia. simpl.
    eexists. split; [rewrite land_shiftr_1 by lia; reflexivity|].
    split; [|split; [|done]].
    + unfold reader_ok, u8. simpl. split.
      * rewrite Z.mod_small by lia. lia.
      * apply Z.mod_pos_bound. lia.
    + unfold remaining. simpl. unfold u8 at 2. rewrite (Z.mod_small (a - 1)) by lia.
      reflexivity.
Qed.

(** ** Induction on trees *)

Lemma Node_ind' (P : Node → Prop) :
  (∀ c f l r,
     (∀ ln, l = Some ln → P ln) → (∀ rn, r = Some rn → P rn) →
     P (newNode c f l r)) →
  ∀ n, P n.
Proof.
  intros H. fix IH 1. intros [c f l r]. apply H.
  - destruct l as [ln|]; intros x Hx; [|discriminate].
    injection Hx as <-. apply IH.
  - destruct r as [rn|]; intros x Hx; [|discriminate].
    injection Hx as <-. apply IH.
Qed.

(** ** Paths and leaves *)

Lemma path_to_leaves t p c : path_to t p c → c ∈ leaves t.
Proof.
  induction 1 as [c f|c' f l r p c _ IH|c' f l r p c _ IH].
  - simpl. left.
  - simpl. destruct r; apply elem_of_app; by left.
  - simpl. destruct l; [apply elem_of_app; by right|done].
Qed.

Lemma leaves_path_to t c : c ∈ leaves t → ∃ p, path_to t p c.
Proof.
  revert c. induction t as [c' f l r IHl IHr] using Node_ind'. intros c Hc.
  destruct l as [ln|], r as [rn|]; simpl in Hc.
  - apply elem_of_app in Hc as [Hc|Hc].
    + destruct (IHl ln eq_refl c Hc) as [p Hp]. exists (false :: p). by constructor.
    + destruct (IHr rn eq_refl c Hc) as [p Hp]. exists (true :: p). by constructor.
  - rewrite app_nil_r in Hc.
    destruct (IHl ln eq_refl c Hc) as [p Hp]. exists (false :: p). by constructor.
  - destruct (IHr rn eq_refl c Hc) as [p Hp]. exists (true :: p). by constructor.
  - apply list_elem_of_singleton in Hc as ->. exists []. constructor.
Qed.

Lemma path_to_height t p c : path_to t p c → (length p ≤ height t)%nat.
Proof.
  induction 1 as [c f|c' f l r p c _ IH|c' f l r p c _ IH]; simpl.
  - done.
  - destruct r; lia.
  - destruct l; lia.
Qed.

Lemma path_to_leaf t p c : path_to t p c → is_leaf t = true → p = [] ∧ c = ch t.
Proof.
  destruct 1 as [c0 f|c' f l r p c0 H|c' f l r p c0 H]; intros Hl; [done|done|].
  by destruct l.
Qed.

Lemma path_to_inner t p c :
  path_to t p c → is_leaf t = false →
  ∃ b p' t', p = b :: p' ∧ (if b then right t else left t) = Some t' ∧ path_to t' p' c.
Proof.
  destruct 1 as [c f|c' f l r p c H|c' f l r p c H]; intros Hl; [done|..].
  - exists false, p, l. done.
  - exists true, p, r. done.
Qed.

(** Two different leaves of a tree are not reached by comparable paths. *)
Lemma path_to_prefix t p1 p2 c1 c2 :
  path_to t p1 c1 → path_to t p2 c2 → p1 `prefix_of` p2 → p1 = p2 ∧ c1 = c2.
Proof.
  intros H1. revert p2 c2.
  induction H1 as [c f|c' f l r p c _ IH|c' f l r p c _ IH]; intros p2 c2 H2 Hpre.
  - by inversion H2.
  - inversion H2 as [|? ? ? ? p2' ? H2'|]; subst.
    + destruct (IH p2' c2 H2') as [-> ->]; [|done].
      by apply (prefix_cons_inv_2 false false).
    + by apply prefix_cons_inv_1 in Hpre.
  - inversion H2 as [| |? ? ? ? p2' ? H2']; subst.
    + by apply prefix_cons_inv_1 in Hpre.
    + destruct (IH p2' c2 H2') as [-> ->]; [|done].
      by apply (prefix_cons_inv_2 true true).
Qed.

(** ** [generateCodes] *)

Lemma fmap_lookup_total_seq {A} `{Inhabited A} (l : list A) :
  (λ i, l !!! i) <$> seq 0 (length l) = l.
Proof.
  apply list_eq. intros i. rewrite list_lookup_fmap.
  destruct (decide (i < length l)%nat) as [Hi|Hi].
  - rewrite lookup_seq_lt by done. simpl.
    destruct (lookup_lt_is_Some_2 l i Hi) as [x Hx].
    by rewrite (list_lookup_total_correct _ _ _ Hx), Hx.
  - rewrite (lookup_ge_None_2 l) by lia.
    rewrite lookup_ge_None_2; [done|]. rewrite length_seq. lia.
Qed.

Lemma pack_fold code depth k :
  (k ≤ depth ≤ 32)%nat →
  ∃ bytes,
    foldl (Enc.pack_bit code depth) (Some (replicate ((depth + 7) / 8) 0)) (seq 0 k)
      = Some bytes ∧
    pack_inv code depth k bytes.
Proof.
  induction k as [|k IH]; intros Hk.
  - eexists. split; [reflexivity|]. split; [apply length_replicate|].
    intros j p Hj Hp. rewrite length_replicate in Hj.
    rewrite lookup_total_replicate_2 by done.
    rewrite Z.testbit_0_l. rewrite bool_decide_eq_false_2 by lia. done.
  - destruct IH as (bytes & Hfold & Hlen & Hbits); [lia|].
    rewrite seq_S, foldl_snoc, Hfold. simpl (0 + k)%nat.
    unfold Enc.pack_bit. cbn [mbind option_bind].
    destruct (decide (32 ≤ depth - 1 - k)%nat) as [|_]; [lia|].
    rewrite land_shiftr_1 by lia.
    pose proof (Nat.div_mod_eq k 8) as Hdm.
    pose proof (Nat.mod_upper_bound k 8 ltac:(lia)) as Hmod.
    pose proof (Nat.div_mod_eq (depth + 7) 8) as Hdm'.
    pose proof (Nat.mod_upper_bound (depth + 7) 8 ltac:(lia)) as Hmod'.
    assert (k / 8 < length bytes)%nat as Hin by lia.
    destruct (Z.testbit code (Z.of_nat (depth - 1 - k))) eqn:Hbit; simpl.
    + destruct (lookup_lt_is_Some_2 bytes _ Hin) as [old Hold]. rewrite Hold.
      cbn [mbind option_bind]. eexists. split; [reflexivity|].
      split; [by rewrite length_insert|].
      intros j p Hj Hp. rewrite length_insert in Hj.
      destruct (decide (j = k / 8)%nat) as [->|Hne].
      * rewrite list_lookup_total_insert_eq by done.
        unfold u8. rewrite Z.mod_pow2_bits_low by lia.
        rewrite Z.lor_spec, Z.shiftl_1_l, Z.pow2_bits_eqb by lia.
        rewrite <- (list_lookup_total_correct _ _ _ Hold), (Hbits _ _ Hin Hp).
        destruct (decide (p = k mod 8)%nat) as [->|Hp'].
        -- rewrite Z.eqb_refl, orb_true_r. rewrite <- Hdm, Hbit.
           rewrite bool_decide_eq_true_2 by lia. done.
        -- rewrite (proj2 (Z.eqb_neq _ _)) by lia. rewrite orb_false_r.
           f_equal. apply bool_decide_ext. lia.
      * rewrite list_lookup_total_insert_ne by done.
        rewrite (Hbits _ _ Hj Hp). f_equal. apply bool_decide_ext. lia.
    + eexists. split; [reflexivity|]. split; [done|].
      intros j p Hj Hp. rewrite (Hbits _ _ Hj Hp).
      destruct (decide (8 * j + p = k)%nat) as [<-|Hne].
      * rewrite Hbit, !andb_false_r. done.
      * f_equal. apply bool_decide_ext. lia.
Qed.

Lemma pack_code_spec code (acc : list bool) :
  (length acc ≤ 32)%nat →
  (∀ i, (i < length acc)%nat →
        Z.testbit code (Z.of_nat (length acc - 1 - i)) = acc !!! i) →
  ∃ bytes,
    Enc.pack_code code (length acc) = Some bytes ∧
    entry_ok (Enc.mkCodeEntry bytes (u8 (Z.of_nat (length acc)))) ∧
    entry_bits (Enc.mkCodeEntry bytes (u8 (Z.of_nat (length acc)))) = acc.
Proof.
  intros Hlen Hcode. unfold Enc.pack_code.
  destruct (pack_fold code (length acc) (length acc)) as (bytes & -> & Hl & Hbits);
    [lia|].
  exists bytes. split; [done|].
  assert (u8 (Z.of_nat (length acc)) = Z.of_nat (length acc)) as Hu8.
  { unfold u8. apply Z.mod_small. change (2 ^ 8) with 256. lia. }
  pose proof (Nat.div_mod_eq (length acc + 7) 8) as Hdm'.
  pose proof (Nat.mod_upper_bound (length acc + 7) 8 ltac:(lia)) as Hmod'.
  unfold entry_ok, entry_bits. simpl. rewrite Hu8, Nat2Z.id. split; [lia|].
  etrans; [|apply (fmap_lookup_total_seq acc)].
  apply list_fmap_ext. intros i ? Hi%lookup_seq. destruct Hi as [-> Hi].
  rewrite Nat.add_0_l. unfold entry_bit. simpl.
  pose proof (Nat.div_mod_eq i 8) as Hdm.
  pose proof (Nat.mod_upper_bound i 8 ltac:(lia)) as Hmod.
  rewrite Hbits by lia. rewrite <- Hdm, bool_decide_eq_true_2 by lia.
  simpl. by apply Hcode.
Qed.

Lemma holds_nil : holds 0 [].
Proof. intros i Hi. simpl in Hi. lia. Qed.

Lemma holds_snoc code acc (b : bool) :
  (length acc < 32)%nat → holds code acc →
  holds (u32 (if b then Z.lor (Z.shiftl code 1) 1 else Z.shiftl code 1)) (acc ++ [b]).
Proof.
  intros Hlen Hacc i Hi. rewrite length_app in *. simpl in *.
  unfold u32. rewrite Z.mod_pow2_bits_low by lia.
  assert (Z.testbit (if b then Z.lor (Z.shiftl code 1) 1 else Z.shiftl code 1)
            (Z.of_nat (length acc + 1 - 1 - i))
          = if decide (i = length acc) then b
            else Z.testbit code (Z.of_nat (length acc - 1 - i))) as ->.
  { destruct (decide (i = length acc)) as [->|Hne].
    - replace (Z.of_nat (length acc + 1 - 1 - length acc)) with 0 by lia.
      destruct b.
      + rewrite Z.lor_spec, Z.shiftl_spec_low by lia. done.
      + by rewrite Z.shiftl_spec_low by lia.
    - assert (Z.of_nat (length acc + 1 - 1 - i)
              = Z.of_nat (length acc - 1 - i) + 1) as -> by lia.
      destruct b.
      + rewrite Z.lor_spec, Z.shiftl_spec by lia.
        rewrite Z.add_simpl_r.
        replace (Z.testbit 1 (Z.of_nat (length acc - 1 - i) + 1)) with false.
        * apply orb_false_r.
        * symmetry. apply (Z.pow2_bits_false 0). lia.
      + rewrite Z.shiftl_spec by lia. by rewrite Z.add_simpl_r. }
  destruct (decide (i = length acc)) as [->|Hne].
  - by rewrite lookup_total_app_r, Nat.sub_diag by lia.
  - rewrite lookup_total_app_l by lia. apply Hacc. lia.
Qed.

Lemma generateCodes_spec t : ∀ codes code acc,
  (length acc + height t ≤ 32)%nat → holds code acc →
  ∃ codes',
    Enc.generateCodes t codes code (length acc) = Some codes' ∧
    length codes' = length codes ∧
    (∀ i, (∀ c, c ∈ leaves t → i ≠ bidx c) → codes' !! i = codes !! i) ∧
    (NoDup (leaves t) → length codes = 256%nat →
     ∀ c p, path_to t p c →
       ∃ e, codes' !! bidx c = Some e ∧ entry_ok e ∧
            entry_bits e = acc ++ p ∧ Enc.len e = Z.of_nat (length (acc ++ p))).
Proof.
  induction t as [c0 f l r IHl IHr] using Node_ind'. intros codes code acc Hh Hacc.
  destruct l as [ln|] eqn:El, r as [rn|] eqn:Er.
  4: { (* a leaf *)
    cbn [Enc.generateCodes].
    destruct (pack_code_spec code acc) as (bytes & -> & Hok & Hbits);
      [simpl in Hh; lia|done|].
    cbn [mbind option_bind]. eexists. split; [reflexivity|].
    split; [by rewrite length_insert|]. split.
    - intros i Hi. rewrite list_lookup_insert_ne; [done|].
      intros Heq. apply (Hi c0); [simpl; left|done].
    - intros _ Hlen c p Hp. inversion Hp; subst.
      eexists. split; [apply list_lookup_insert_eq; pose proof (bidx_lt c); lia|].
      rewrite app_nil_r. split; [done|]. split; [done|].
      simpl. unfold u8. apply Z.mod_small. change (2 ^ 8) with 256. lia. }
  all: cbn [Enc.generateCodes].
  - (* both children *)
    simpl in Hh.
    destruct (IHl ln eq_refl codes (u32 (Z.shiftl code 1)) (acc ++ [false]))
      as (codes1 & Hg1 & Hl1 & Hsame1 & Hpath1).
    { rewrite length_app. simpl. lia. }
    { apply (holds_snoc code acc false); [lia|done]. }
    rewrite length_app in Hg1. simpl in Hg1. rewrite Nat.add_1_r in Hg1.
    rewrite Hg1. cbn [mbind option_bind].
    destruct (IHr rn eq_refl codes1 (u32 (Z.lor (Z.shiftl code 1) 1)) (acc ++ [true]))
      as (codes2 & Hg2 & Hl2 & Hsame2 & Hpath2).
    { rewrite length_app. simpl. lia. }
    { apply (holds_snoc code acc true); [lia|done]. }
    rewrite length_app in Hg2. simpl in Hg2. rewrite Nat.add_1_r in Hg2.
    rewrite Hg2. exists codes2. split; [done|]. split; [congruence|]. split.
    + intros i Hi. rewrite Hsame2, Hsame1; [done|..];
        intros c Hc; apply Hi; simpl; apply elem_of_app; auto.
    + intros Hnd Hlen c p Hp. simpl in Hnd.
      apply list.NoDup_app in Hnd as (Hndl & Hdisj & Hndr).
      inversion Hp as [|? ? ? ? p' ? Hp'|? ? ? ? p' ? Hp']; subst.
      * destruct (Hpath1 Hndl Hlen c p' Hp') as (e & He & Hok & Hbits & Hlen').
        exists e. rewrite Hsame2.
        -- rewrite <- (assoc_L (++)) in Hbits, Hlen'. done.
        -- intros c' Hc' Heq. apply bidx_inj in Heq as <-.
           apply (Hdisj c); [by eapply path_to_leaves|done].
      * destruct (Hpath2 Hndr ltac:(congruence) c p' Hp') as (e & He & Hok & Hbits & Hlen').
        exists e. rewrite <- (assoc_L (++)) in Hbits, Hlen'. done.
  - (* a left child only *)
    simpl in Hh.
    destruct (IHl ln eq_refl codes (u32 (Z.shiftl code 1)) (acc ++ [false]))
      as (codes1 & Hg1 & Hl1 & Hsame1 & Hpath1).
    { rewrite length_app. simpl. lia. }
    { apply (holds_snoc code acc false); [lia|done]. }
    rewrite length_app in Hg1. simpl in Hg1. rewrite Nat.add_1_r in Hg1.
    rewrite Hg1. cbn [mbind option_bind].
    exists codes1. split; [done|]. split; [done|]. split.
    + intros i Hi. apply Hsame1. intros c Hc. apply Hi. simpl.
      apply elem_of_app. auto.
    + intros Hnd Hlen c p Hp. simpl in Hnd. rewrite app_nil_r in Hnd.
      inversion Hp as [|? ? ? ? p' ? Hp'|]; subst.
      destruct (Hpath1 Hnd Hlen c p' Hp') as (e & He & Hok & Hbits & Hlen').
      exists e. rewrite <- (assoc_L (++)) in Hbits, Hlen'. done.
  - (* a right child only *)
    simpl in Hh.
    destruct (IHr rn eq_refl codes (u32 (Z.lor (Z.shiftl code 1) 1)) (acc ++ [true]))
      as (codes2 & Hg2 & Hl2 & Hsame2 & Hpath2).
    { rewrite length_app. simpl. lia. }
    { apply (holds_snoc code acc true); [lia|done]. }
    rewrite length_app in Hg2. simpl in Hg2. rewrite Nat.add_1_r in Hg2.
    cbn [mbind option_bind]. rewrite Hg2.
    exists codes2. split; [done|]. split; [done|]. split.
    + intros i Hi. apply Hsame2. intros c Hc. apply Hi. by simpl.
    + intros Hnd Hlen c p Hp. simpl in Hnd.
      inversion Hp as [| |? ? ? ? p' ? Hp']; subst.
      destruct (Hpath2 Hnd Hlen c p' Hp') as (e & He & Hok & Hbits & Hlen').
      exists e. rewrite <- (assoc_L (++)) in Hbits, Hlen'. done.
Qed.

(** ** [compress] *)

Lemma write_code_fold e buf k :
  buffer_ok buf → entry_ok e → (k ≤ Z.to_nat (Enc.len e))%nat →
  ∃ buf', foldl (Enc.write_code_bit e) (Some buf) (seq 0 k) = Some buf' ∧
          buffer_ok buf' ∧
          written buf' = written buf ++ (entry_bit e <$> seq 0 k).
Proof.
  intros Hbuf Hok. induction k as [|k IH]; intros Hk.
  - exists buf. split; [done|]. split; [done|]. by rewrite app_nil_r.
  - destruct IH as (buf1 & Hfold & Hok1 & Hw1); [lia|].
    rewrite seq_S, foldl_snoc, Hfold, fmap_app. rewrite Nat.add_0_l.
    unfold Enc.write_code_bit. cbn [mbind option_bind].
    pose proof (Nat.div_mod_eq k 8) as Hdm.
    pose proof (Nat.mod_upper_bound k 8 ltac:(lia)) as Hmod.
    unfold entry_ok in Hok.
    destruct (lookup_lt_is_Some_2 (Enc.code e) (k / 8)) as [cb Hcb]; [lia|].
    rewrite Hcb. cbn [mbind option_bind].
    rewrite land_shiftr_1 by lia.
    destruct (bitBufferWriteBits_one buf1 (Z.testbit cb (Z.of_nat (7 - k mod 8))) Hok1)
      as (buf2 & -> & Hok2 & Hw2).
    exists buf2. split; [done|]. split; [done|].
    rewrite Hw2, Hw1, <- (assoc_L (++)). f_equal. f_equal. simpl.
    unfold entry_bit. by rewrite (list_lookup_total_correct _ _ _ Hcb).
Qed.

Lemma write_code_spec e buf :
  buffer_ok buf → entry_ok e →
  ∃ buf', Enc.write_code e buf = Some buf' ∧ buffer_ok buf' ∧
          written buf' = written buf ++ entry_bits e.
Proof.
  intros Hbuf Hok. apply write_code_fold; [done|done|lia].
Qed.

Lemma compress_loop_spec codes data : ∀ buf,
  buffer_ok buf →
  (∀ b, b ∈ data →
        ∃ e, codes !! bidx b = Some e ∧ Enc.len e ≠ 0 ∧ entry_ok e) →
  ∃ buf', Enc.compress_loop data codes buf = Some (Some buf') ∧
          buffer_ok buf' ∧
          written buf'
          = written buf ++ flat_map (λ b, entry_bits (codes !!! bidx b)) data.
Proof.
  induction data as [|b data IH]; intros buf Hbuf Hcodes.
  - exists buf. split; [done|]. split; [done|]. by rewrite app_nil_r.
  - destruct (Hcodes b) as (e & He & Hlen & Hok); [left|].
    cbn [Enc.compress_loop]. rewrite He. cbn [mbind option_bind].
    rewrite (proj2 (Z.eqb_neq _ _) Hlen).
    destruct (write_code_spec e buf Hbuf Hok) as (buf1 & -> & Hok1 & Hw1).
    cbn [mbind option_bind].
    destruct (IH buf1 Hok1) as (buf2 & -> & Hok2 & Hw2).
    { intros b' Hb'. apply Hcodes. by right. }
    exists buf2. split; [done|]. split; [done|].
    rewrite Hw2, Hw1, <- (assoc_L (++)). cbn [flat_map].
    by rewrite (list_lookup_total_correct _ _ _ He).
Qed.

Lemma compress_spec codes data :
  (∀ b, b ∈ data →
        ∃ e, codes !! bidx b = Some e ∧ Enc.len e ≠ 0 ∧ entry_ok e) →
  ∃ buf, Enc.compress data codes = Some (Some buf) ∧
         bits_of_bytes (Enc.data buf)
         = flat_map (λ b, entry_bits (codes !!! bidx b)) data ++
           replicate (Z.to_nat (padding_of buf)) false ∧
         0 <= padding_of buf < 8.
Proof.
  intros Hcodes. unfold Enc.compress.
  destruct (compress_loop_spec codes data Enc.bitBufferInit buffer_ok_init Hcodes)
    as (buf & -> & Hok & Hw).
  destruct (bitBufferFlush_spec buf Hok) as (Hbits & Hused & Hpad).
  exists (Enc.bitBufferFlush buf). split; [done|].
  assert (padding_of (Enc.bitBufferFlush buf) = padding_of buf) as ->.
  { unfold padding_of. by rewrite Hused. }
  split; [|done]. rewrite Hbits, Hw. reflexivity.
Qed.

(** ** [decompress] *)

Section Decompress.
Variables (root : Node) (original_size padding_bits : Z).

Lemma decompress_loop_symbol p : ∀ current c fuel reader output rest,
  path_to current p c → is_leaf current = false →
  reader_ok reader → remaining reader = p ++ rest →
  Z.of_nat (length output) < original_size →
  ∃ reader',
    reader_ok reader' ∧ remaining reader' = rest ∧
    Dec.data reader' = Dec.data reader ∧
    Dec.decompress_loop (length p + fuel) reader root current output
      original_size padding_bits
    = Dec.decompress_loop fuel reader' root root (output ++ [c])
        original_size padding_bits.
Proof.
  induction p as [|b p IH]; intros current c fuel reader output rest Hpath Hinner Hok Hrem Hlt.
  - inversion Hpath; subst. done.
  - destruct (path_to_inner _ _ _ Hpath Hinner) as (b' & p' & t' & [= <- <-] & Ht' & Hp').
    pose proof (bitReaderReadBit_spec reader Hok) as Hread.
    rewrite Hrem in Hread. cbn [app] in Hread.
    destruct Hread as (reader1 & Hbit & Hok1 & Hrem1 & Hdata1).
    cbn [length Nat.add Dec.decompress_loop].
    rewrite (proj2 (Z.ltb_lt _ _) Hlt), Hbit.
    assert ((Z.b2z b <? 0) = false) as -> by (destruct b; done).
    assert ((if Z.b2z b =? 0 then left current else right current) = Some t') as ->.
    { by destruct b. }
    destruct (is_leaf t') eqn:Hleaf.
    + destruct (path_to_leaf _ _ _ Hp' Hleaf) as [-> ->].
      rewrite (proj2 (Z.leb_gt _ _) Hlt).
      exists reader1. done.
    + destruct (IH t' c fuel reader1 output rest Hp' Hleaf Hok1 Hrem1 Hlt)
        as (reader2 & Hok2 & Hrem2 & Hdata2 & Heq).
      exists reader2. split; [done|]. split; [done|]. split; [congruence|done].
Qed.

Lemma decompress_loop_all (enc : byte → list bool) syms : ∀ fuel reader output tail,
  is_leaf root = false →
  (∀ c, c ∈ syms → path_to root (enc c) c) →
  reader_ok reader → remaining reader = flat_map enc syms ++ tail →
  original_size = Z.of_nat (length output + length syms) →
  (length (flat_map enc syms) < fuel)%nat →
  Dec.decompress_loop fuel reader root root output original_size padding_bits
  = Some (Some (output ++ syms)).
Proof.
  induction syms as [|c syms IH]; intros fuel reader output tail Hroot Henc Hok Hrem Hsize Hfuel.
  - destruct fuel as [|fuel]; [simpl in Hfuel; lia|].
    cbn [Dec.decompress_loop]. simpl in Hsize.
    rewrite (proj2 (Z.ltb_ge _ _)) by lia. by rewrite app_nil_r.
  - cbn [flat_map] in Hrem, Hfuel. rewrite length_app in Hfuel.
    rewrite <- (assoc_L (++)) in Hrem.
    replace fuel with (length (enc c) + (fuel - length (enc c)))%nat by lia.
    destruct (decompress_loop_symbol (enc c) root c (fuel - length (enc c))
                reader output (flat_map enc syms ++ tail))
      as (reader1 & Hok1 & Hrem1 & _ & ->);
      [apply Henc; left|done|done|done|simpl in Hsize; lia|].
    rewrite (IH _ reader1 (output ++ [c]) tail); [|done|..|done|done| |lia].
    + by rewrite <- (assoc_L (++)).
    + intros c' Hc'. apply Henc. by right.
    + rewrite length_app. simpl in *. lia.
Qed.

End Decompress.

Lemma length_fresh cells size : length (fresh cells size) = Z.to_nat size.
Proof. unfold fresh. by rewrite length_fmap, length_seq. Qed.

Lemma decompress_spec (enc : byte → list bool) malloc cells root syms data pad padding_bits :
  is_leaf root = false → syms ≠ [] →
  (∀ c, c ∈ syms → path_to root (enc c) c) →
  bits_of_bytes data = flat_map enc syms ++ pad →
  malloc (Z.of_nat (length syms)) = Some cells →
  Dec.decompress malloc (Dec.bitReaderInit data) (Some root)
    (Z.of_nat (length syms)) padding_bits
  = Some (Some syms).
Proof.
  intros Hroot Hne Henc Hbits Hmalloc. unfold Dec.decompress. rewrite Hroot, Hmalloc.
  assert ((Z.of_nat (length syms) =? 0) = false) as ->.
  { apply Z.eqb_neq. destruct syms; [done|simpl; lia]. }
  change (Dec.data (Dec.bitReaderInit data)) with data.
  rewrite (decompress_loop_all root _ padding_bits enc syms _ _ [] pad);
    [|done|done|apply reader_ok_init|by rewrite remaining_init|done|].
  - cbn [mbind option_bind app].
    rewrite drop_ge by (rewrite length_fresh; lia). by rewrite app_nil_r.
  - rewrite <- length_bits_of_bytes, Hbits, length_app. lia.
Qed.

(** ** Little-endian integers *)

Lemma length_le_bytes n x : length (le_bytes n x) = n.
Proof. revert x. induction n as [|n IH]; intros x; simpl; [done|by rewrite IH]. Qed.

Lemma le_value_le_bytes n x :
  le_value (le_bytes n x) = x mod 2 ^ (8 * Z.of_nat n).
Proof.
  revert x. induction n as [|n IH]; intros x.
  - simpl. change (8 * Z.of_nat 0) with 0. by rewrite Z.mod_1_r.
  - cbn [le_bytes le_value]. rewrite IH, b2z_z2b.
    rewrite Z.shiftr_div_pow2 by lia.
    replace (8 * Z.of_nat (S n)) with (8 + 8 * Z.of_nat n) by lia.
    rewrite Z.pow_add_r by lia. change (2 ^ 8) with 256.
    rewrite Z.rem_mul_r by lia. reflexivity.
Qed.

Lemma le_value_le_bytes_small n x :
  0 <= x < 2 ^ (8 * Z.of_nat n) → le_value (le_bytes n x) = x.
Proof. intros Hx. rewrite le_value_le_bytes. by apply Z.mod_small. Qed.

Lemma le_value_range bs : 0 <= le_value bs < 2 ^ (8 * Z.of_nat (length bs)).
Proof.
  induction bs as [|b bs IH].
  - simpl. change (8 * Z.of_nat 0) with 0. simpl. lia.
  - cbn [le_value length]. pose proof (b2z_range b).
    replace (8 * Z.of_nat (S (length bs))) with (8 + 8 * Z.of_nat (length bs)) by lia.
    rewrite Z.pow_add_r by lia. change (2 ^ 8) with 256. lia.
Qed.

(** ** The header *)

Lemma length_writeHeader h : length (Enc.writeHeader h) = 30%nat.
Proof. unfold Enc.writeHeader. rewrite !length_app, !length_le_bytes. reflexivity. Qed.

Lemma parseHeader_fields (a1 a2 a3 a4 a5 a6 a7 a8 : list byte) :
  length a1 = 4%nat → length a2 = 2%nat → length a3 = 8%nat → length a4 = 8%nat →
  length a5 = 4%nat → length a6 = 2%nat → length a7 = 1%nat → length a8 = 1%nat →
  Dec.parseHeader (a1 ++ a2 ++ a3 ++ a4 ++ a5 ++ a6 ++ a7 ++ a8)
  = mkHuffHeader (le_value a1) (le_value a2) (le_value a3) (le_value a4)
                 (le_value a5) (le_value a6) (le_value a7) (le_value a8).
Proof.
  intros H1 H2 H3 H4 H5 H6 H7 H8. unfold Dec.parseHeader.
  rewrite <- H1 at 1. rewrite take_app_length.
  rewrite <- H1 at 1. rewrite drop_app_length.
  rewrite <- H2 at 1. rewrite take_app_length.
  assert (∀ (a b : list byte) n m, length a = n →
            drop (n + m) (a ++ b) = drop m b) as Hdrop.
  { intros a b n m <-. by rewrite <- drop_drop, drop_app_length. }
  rewrite (Hdrop a1 _ 4%nat 2%nat H1), (Hdrop a2 _ 2%nat 0%nat H2), drop_0.
  rewrite <- H3 at 1. rewrite take_app_length.
  rewrite (Hdrop a1 _ 4%nat 10%nat H1), (Hdrop a2 _ 2%nat 8%nat H2),
    (Hdrop a3 _ 8%nat 0%nat H3), drop_0.
  rewrite <- H4 at 1. rewrite take_app_length.
  rewrite (Hdrop a1 _ 4%nat 18%nat H1), (Hdrop a2 _ 2%nat 16%nat H2),
    (Hdrop a3 _ 8%nat 8%nat H3), (Hdrop a4 _ 8%nat 0%nat H4), drop_0.
  rewrite <- H5 at 1. rewrite take_app_length.
  rewrite (Hdrop a1 _ 4%nat 22%nat H1), (Hdrop a2 _ 2%nat 20%nat H2),
    (Hdrop a3 _ 8%nat 12%nat H3), (Hdrop a4 _ 8%nat 4%nat H4),
    (Hdrop a5 _ 4%nat 0%nat H5), drop_0.
  rewrite <- H6 at 1. rewrite take_app_length.
  rewrite (Hdrop a1 _ 4%nat 24%nat H1), (Hdrop a2 _ 2%nat 22%nat H2),
    (Hdrop a3 _ 8%nat 14%nat H3), (Hdrop a4 _ 8%nat 6%nat H4),
    (Hdrop a5 _ 4%nat 2%nat H5), (Hdrop a6 _ 2%nat 0%nat H6), drop_0.
  rewrite <- H7 at 1. rewrite take_app_length.
  rewrite (Hdrop a1 _ 4%nat 25%nat H1), (Hdrop a2 _ 2%nat 23%nat H2),
    (Hdrop a3 _ 8%nat 15%nat H3), (Hdrop a4 _ 8%nat 7%nat H4),
    (Hdrop a5 _ 4%nat 3%nat H5), (Hdrop a6 _ 2%nat 1%nat H6),
    (Hdrop a7 _ 1%nat 0%nat H7), drop_0.
  rewrite <- H8 at 1. rewrite firstn_all. reflexivity.
Qed.

Lemma parseHeader_writeHeader h :
  header_ok h → Dec.parseHeader (Enc.writeHeader h) = h.
Proof.
  intros (H1 & H2 & H3 & H4 & H5 & H6 & H7 & H8). unfold Enc.writeHeader.
  rewrite parseHeader_fields by apply length_le_bytes.
  rewrite !le_value_le_bytes_small by done. by destruct h.
Qed.

(** ** The checksum *)

Lemma lxor_bound a b n :
  0 <= n → 0 <= a < 2 ^ n → 0 <= b < 2 ^ n → 0 <= Z.lxor a b < 2 ^ n.
Proof.
  intros Hn Ha Hb. assert (0 <= Z.lxor a b) as Hx by (apply Z.lxor_nonneg; lia).
  split; [done|].
  destruct (decide (Z.lxor a b = 0)) as [->|Hne]; [lia|].
  apply Z.log2_lt_pow2; [lia|].
  eapply Z.le_lt_trans; [apply Z.log2_lxor; lia|].
  assert (∀ x, 0 <= x < 2 ^ n → 0 < n → Z.log2 x < n) as Hlog.
  { intros x Hx' Hn'. destruct (decide (x = 0)) as [->|?]; [done|].
    apply Z.log2_lt_pow2; lia. }
  assert (0 < n).
  { destruct (decide (n = 0)) as [->|?]; [|lia].
    change (2 ^ 0) with 1 in *. assert (a = 0) as -> by lia.
    assert (b = 0) as -> by lia. done. }
  apply Z.max_lub_lt; by apply Hlog.
Qed.

Lemma init_crc32_range i : 0 <= init_crc32 !!! i < 2 ^ 32.
Proof.
  assert (Forall (λ x, 0 <= x < 2 ^ 32) init_crc32) as Hall.
  { apply Forall_forall. intros x Hx.
    assert (forallb (λ x, (0 <=? x) && (x <? 2 ^ 32)) init_crc32 = true) as Hb
      by (vm_compute; reflexivity).
    rewrite forallb_forall in Hb.
    specialize (Hb x Hx). lia. }
  destruct (decide (i < length init_crc32)%nat) as [Hi|Hi].
  - destruct (lookup_lt_is_Some_2 _ _ Hi) as [x Hx].
    rewrite (list_lookup_total_correct _ _ _ Hx).
    by apply (Forall_lookup_1 _ _ _ _ Hall Hx).
  - rewrite list_lookup_total_alt, lookup_ge_None_2 by lia. simpl. lia.
Qed.

Lemma crc32_range input : 0 <= crc32 input < 2 ^ 32.
Proof.
  unfold crc32. apply lxor_bound; [lia| |done].
  assert (∀ crc, 0 <= crc < 2 ^ 32 →
            0 <= foldl (λ crc b,
                   Z.lxor (init_crc32 !!! Z.to_nat (Z.land (Z.lxor crc (b2z b)) 255))
                          (Z.shiftr crc 8)) crc input < 2 ^ 32) as H; [|by apply H].
  induction input as [|b input IH]; intros crc Hcrc; [done|].
  cbn [foldl]. apply IH. apply lxor_bound; [lia|apply init_crc32_range|].
  rewrite Z.shiftr_div_pow2 by lia. split; [apply Z.div_pos; lia|].
  apply Z.div_lt_upper_bound; lia.
Qed.

(** ** [buildFreqTable] *)

Lemma MAXN_eq : MAXN = 256%nat.
Proof. reflexivity. Qed.

Lemma count_fold data : ∀ (t : list Z) n,
  length t = 256%nat → (∀ i, (i < 256)%nat → 0 <= t !!! i <= n) →
  n + Z.of_nat (length data) < 2 ^ 32 →
  let r := foldl (λ freq b, <[bidx b := u32 (freq !!! bidx b + 1)]> freq) t data in
  length r = 256%nat ∧
  (∀ i, (i < 256)%nat → t !!! i <= r !!! i <= n + Z.of_nat (length data)) ∧
  (∀ b, b ∈ data → 0 < r !!! bidx b).
Proof.
  induction data as [|b data IH]; intros t n Hlen Ht Hn.
  - simpl. split; [done|]. split; [intros i Hi; specialize (Ht i Hi); simpl; lia|].
    by intros b ?%elem_of_nil.
  - cbn [foldl]. cbn [length] in Hn. pose proof (bidx_lt b) as Hb.
    set (t' := <[bidx b := u32 (t !!! bidx b + 1)]> t).
    assert (u32 (t !!! bidx b + 1) = t !!! bidx b + 1) as Hu.
    { unfold u32. apply Z.mod_small. specialize (Ht (bidx b) Hb). lia. }
    assert (∀ i, (i < 256)%nat → t !!! i <= t' !!! i <= n + 1) as Ht'.
    { intros i Hi. unfold t'. specialize (Ht i Hi). rewrite Hu.
      destruct (decide (i = bidx b)) as [->|Hne].
      - rewrite list_lookup_total_insert_eq by lia. lia.
      - rewrite list_lookup_total_insert_ne by done. lia. }
    destruct (IH t' (n + 1)) as (Hl & Hr & Hpos).
    { unfold t'. by rewrite length_insert. }
    { intros i Hi. specialize (Ht i Hi). specialize (Ht' i Hi). lia. }
    { lia. }
    cbn zeta in *. split; [done|]. split.
    + intros i Hi. specialize (Hr i Hi). specialize (Ht' i Hi). cbn [length]. lia.
    + intros b' [->|Hb']%elem_of_cons; [|by apply Hpos].
      specialize (Hr (bidx b) Hb). specialize (Ht (bidx b) Hb).
      assert (t' !!! bidx b = t !!! bidx b + 1); [|lia].
      unfold t'. rewrite Hu.
      apply list_lookup_total_insert_eq. lia.
Qed.

Lemma range_fold data : ∀ (t : list Z),
  freq_table_ok t →
  freq_table_ok (foldl (λ freq b, <[bidx b := u32 (freq !!! bidx b + 1)]> freq) t data).
Proof.
  induction data as [|b data IH]; intros t Ht; [done|].
  cbn [foldl]. apply IH. destruct Ht as [Hl Hr]. split; [by rewrite length_insert|].
  apply Forall_insert; [done|]. apply Z.mod_pos_bound. lia.
Qed.

Lemma buildFreqTable_ok data : freq_table_ok (Enc.buildFreqTable data).
Proof.
  apply range_fold. split; [apply length_replicate|].
  apply Forall_replicate. lia.
Qed.

Lemma buildFreqTable_pos data b :
  Z.of_nat (length data) < 2 ^ 32 → b ∈ data →
  0 < Enc.buildFreqTable data !!! bidx b.
Proof.
  intros Hlen Hb.
  destruct (count_fold data (replicate MAXN 0) 0) as (_ & _ & Hpos).
  - apply length_replicate.
  - intros i Hi. rewrite lookup_total_replicate_2 by (by rewrite MAXN_eq). lia.
  - lia.
  - by apply Hpos.
Qed.

Lemma buildFreqTable_replicate n b :
  Enc.buildFreqTable (replicate n b)
  = <[bidx b := u32 (Z.of_nat n)]> (replicate MAXN 0).
Proof.
  unfold Enc.buildFreqTable.
  assert (∀ n t, length t = 256%nat → 0 <= t !!! bidx b < 2 ^ 32 →
            foldl (λ freq b, <[bidx b := u32 (freq !!! bidx b + 1)]> freq) t (replicate n b)
            = <[bidx b := u32 (t !!! bidx b + Z.of_nat n)]> t) as H.
  { clear n. induction n as [|n IH]; intros t Hl Hr.
    - change (replicate 0 b) with (@nil byte). cbn [foldl].
      rewrite Z.add_0_r. unfold u32. rewrite Z.mod_small by done.
      symmetry. apply list_insert_id. apply list_lookup_lookup_total_lt.
      pose proof (bidx_lt b). lia.
    - change (replicate (S n) b) with (b :: replicate n b). cbn [foldl].
      pose proof (bidx_lt b).
      rewrite IH.
      + rewrite list_lookup_total_insert_eq by lia. rewrite list_insert_insert_eq.
        f_equal. unfold u32. rewrite Zplus_mod_idemp_l. f_equal. lia.
      + by rewrite length_insert.
      + rewrite list_lookup_total_insert_eq by lia. apply Z.mod_pos_bound. lia. }
  rewrite H.
  - rewrite lookup_total_replicate_2 by (pose proof (bidx_lt b); rewrite MAXN_eq; lia).
    by rewrite Z.add_0_l.
  - apply length_replicate.
  - rewrite lookup_total_replicate_2 by (pose proof (bidx_lt b); rewrite MAXN_eq; lia).
    lia.
Qed.

(** ** The symbols of a table *)

Lemma elem_of_symbols_of freq b :
  (256 ≤ length freq)%nat →
  b ∈ symbols_of freq ↔ 0 < freq !!! bidx b.
Proof.
  intros Hlen. unfold symbols_of. rewrite leaf_nodes_unfold.
  pose proof (bidx_lt b) as Hb.
  destruct (lookup_lt_is_Some_2 freq (bidx b) ltac:(lia)) as [f Hf].
  rewrite (list_lookup_total_correct _ _ _ Hf).
  rewrite list_elem_of_fmap. setoid_rewrite list_elem_of_omap. split.
  - intros (n & -> & i & Hi & Hn). apply leaf_of_Some in Hn as (f' & Hf' & Hpos & ->).
    simpl in Hf. apply elem_of_seq in Hi. rewrite MAXN_eq in Hi.
    rewrite bidx_z2b in Hf by lia. congruence.
  - intros Hpos. exists (newNode b f None None). split; [done|].
    exists (bidx b). split; [apply elem_of_seq; rewrite MAXN_eq; lia|].
    unfold leaf_of. rewrite Hf. simpl.
    rewrite (proj2 (Z.ltb_lt _ _) Hpos), z2b_bidx. done.
Qed.

(** ** Writing and reading the table *)

Lemma length_entry_bytes e : length (entry_bytes e) = 5%nat.
Proof. unfold entry_bytes. cbn [length]. by rewrite length_le_bytes. Qed.

Lemma table_entries_S freq k :
  (k < length freq)%nat →
  table_entries freq (seq 0 (S k))
  = table_entries freq (seq 0 k) ++
    (if 0 <? freq !!! k then [(k, freq !!! k)] else []).
Proof.
  intros Hk. unfold table_entries. rewrite seq_S, omap_app. f_equal.
  rewrite Nat.add_0_l. csimpl.
  destruct (lookup_lt_is_Some_2 freq k Hk) as [f Hf].
  rewrite Hf, (list_lookup_total_correct _ _ _ Hf). simpl.
  by destruct (0 <? f).
Qed.

Lemma length_table_entries freq idxs :
  (length (table_entries freq idxs) ≤ length idxs)%nat.
Proof. apply length_omap_le. Qed.

Lemma writeFreqTable_fold freq k :
  (k ≤ 256)%nat → (k ≤ length freq)%nat →
  foldl (Enc.write_entry freq) ([], 0) (seq 0 k)
  = (flat_map entry_bytes (table_entries freq (seq 0 k)),
     Z.of_nat (length (table_entries freq (seq 0 k)))).
Proof.
  induction k as [|k IH]; intros Hk Hlen; [done|].
  rewrite table_entries_S by lia.
  rewrite seq_S, foldl_snoc, IH by lia. rewrite Nat.add_0_l.
  unfold Enc.write_entry.
  pose proof (length_table_entries freq (seq 0 k)) as Hle.
  rewrite length_seq in Hle.
  destruct (0 <? freq !!! k).
  - rewrite flat_map_app, length_app. cbn [flat_map length].
    rewrite app_nil_r. f_equal. unfold u16. rewrite Z.mod_small; [lia|].
    change (2 ^ 16) with 65536. lia.
  - by rewrite !app_nil_r.
Qed.

Lemma writeFreqTable_spec freq :
  (256 ≤ length freq)%nat →
  Enc.writeFreqTable freq
  = (flat_map entry_bytes (table_entries freq (seq 0 MAXN)),
     Z.of_nat (length (table_entries freq (seq 0 MAXN)))).
Proof.
  intros Hlen. unfold Enc.writeFreqTable. apply writeFreqTable_fold.
  - by rewrite MAXN_eq.
  - rewrite MAXN_eq. lia.
Qed.

Lemma read_entries_written freq rest n : ∀ k t,
  freq_table_ok freq → (k + n = 256)%nat →
  t = take k freq ++ replicate n 0 →
  Dec.read_entries (length (table_entries freq (seq k n)))
    (flat_map entry_bytes (table_entries freq (seq k n)) ++ rest) t
  = Some (freq, rest).
Proof.
  induction n as [|n IH]; intros k t [Hlen Hrange] Hk ->.
  - change (seq k 0) with (@nil nat). simpl.
    change (replicate 0 0) with (@nil Z).
    by rewrite app_nil_r, firstn_all2 by lia.
  - change (seq k (S n)) with (k :: seq (S k) n). unfold table_entries. csimpl.
    destruct (lookup_lt_is_Some_2 freq k ltac:(lia)) as [f Hf].
    rewrite Hf. simpl.
    assert (0 <= f < 2 ^ 32) as Hfr by (by apply (Forall_lookup_1 _ _ _ _ Hrange Hf)).
    assert (take (S k) freq ++ replicate n 0 = <[k := f]> (take k freq ++ replicate (S n) 0))
      as Hins.
    { rewrite (take_S_r _ _ _ Hf), <- (assoc_L (++)). simpl.
      rewrite insert_app_r_alt by (rewrite length_take; lia).
      rewrite length_take, Nat.min_l, Nat.sub_diag by lia. done. }
    destruct (0 <? f) eqn:Hpos.
    + csimpl. fold (table_entries freq (seq (S k) n)).
      change (b2z (z2b f) + _) with (le_value (le_bytes 4 f)).
      rewrite le_value_le_bytes_small by (change (8 * Z.of_nat 4) with 32; lia).
      rewrite drop_0, bidx_z2b by lia.
      apply IH; [done|lia|]. by rewrite Hins.
    + fold (table_entries freq (seq (S k) n)).
      apply IH; [done|lia|]. rewrite Hins.
      assert (f = 0) as -> by lia.
      symmetry. apply list_insert_id.
      rewrite lookup_app_r by (rewrite length_take; lia).
      rewrite length_take, Nat.min_l, Nat.sub_diag by lia. done.
Qed.

Lemma readFreqTable_written freq rest :
  freq_table_ok freq →
  Dec.readFreqTable
    (flat_map entry_bytes (table_entries freq (seq 0 MAXN)) ++ rest)
    (Z.of_nat (length (table_entries freq (seq 0 MAXN))))
  = Some (freq, rest).
Proof.
  intros Hok. unfold Dec.readFreqTable. rewrite Nat2Z.id.
  apply read_entries_written; [done|by rewrite MAXN_eq|].
  by rewrite take_0.
Qed.

(** ** The code table of [main] *)

Lemma main_codes_spec root :
  NoDup (leaves root) → (height root ≤ 32)%nat →
  ∃ codes,
    Enc.main_codes root = Some codes ∧ length codes = 256%nat ∧
    ∀ b, b ∈ leaves root →
      ∃ e, codes !! bidx b = Some e ∧ entry_ok e ∧ Enc.len e ≠ 0 ∧
           (length (entry_bits e) ≤ 32)%nat ∧
           (is_leaf root = false → path_to root (entry_bits e) b) ∧
           (is_leaf root = true → entry_bits e = [false]).
Proof.
  intros Hnd Hh. unfold Enc.main_codes.
  destruct (is_leaf root) eqn:Hleaf; cbn [negb].
  - eexists. split; [reflexivity|]. split.
    { by rewrite length_insert, length_replicate. }
    intros b Hb. destruct root as [c f [l|] [r|]]; try discriminate.
    simpl in Hb. apply list_elem_of_singleton in Hb as ->. simpl.
    eexists. split.
    { apply list_lookup_insert_eq. rewrite length_replicate.
      pose proof (bidx_lt c). by rewrite MAXN_eq. }
    split; [unfold entry_ok; simpl; lia|]. split; [done|].
    split; [simpl; lia|]. split; [done|]. intros _. reflexivity.
  - destruct (generateCodes_spec root (replicate MAXN (Enc.mkCodeEntry [] 0)) 0 [])
      as (codes & Hg & Hlen & _ & Hpath).
    { simpl. lia. }
    { apply holds_nil. }
    exists codes. split; [done|]. rewrite length_replicate in Hlen.
    split; [done|]. intros b Hb.
    destruct (leaves_path_to root b Hb) as [p Hp].
    destruct (Hpath Hnd ltac:(by rewrite length_replicate) b p Hp)
      as (e & He & Hok & Hbits & Hl).
    simpl in Hbits, Hl. exists e. split; [done|]. split; [done|].
    pose proof (path_to_height _ _ _ Hp) as Hph.
    destruct (path_to_inner _ _ _ Hp Hleaf) as (b' & p' & t' & -> & _ & _).
    split; [simpl in Hl; lia|]. rewrite Hbits.
    split; [lia|]. split; [done|]. done.
Qed.

Lemma length_flat_map_le {A B} (f : A → list B) (l : list A) n :
  (∀ x, x ∈ l → (length (f x) ≤ n)%nat) →
  (length (flat_map f l) ≤ n * length l)%nat.
Proof.
  induction l as [|x l IH]; intros H; [simpl; lia|].
  cbn [flat_map length]. rewrite length_app.
  specialize (H x ltac:(left)) as Hx.
  specialize (IH ltac:(intros y Hy; apply H; by right)). lia.
Qed.

Lemma length_table_entries_leaf_nodes freq idxs :
  length (table_entries freq idxs) = length (omap (leaf_of freq) idxs).
Proof.
  unfold table_entries. induction idxs as [|i idxs IH]; [done|]. csimpl.
  unfold leaf_of at 1. destruct (freq !! i) as [f|]; simpl; [|done].
  destruct (0 <? f); simpl; by rewrite IH.
Qed.

Lemma length_table_entries_symbols freq :
  length (table_entries freq (seq 0 MAXN)) = length (symbols_of freq).
Proof.
  unfold symbols_of. rewrite length_fmap, leaf_nodes_unfold.
  apply length_table_entries_leaf_nodes.
Qed.

(** ** The compressor, end to end *)

(** What [main] computes for an input it accepts. *)
Lemma Enc_main_spec input :
  input ≠ [] → Z.of_nat (length input) < 2 ^ 62 →
  (∀ b, b ∈ input → Enc.buildFreqTable input !!! bidx b ≠ 0) →
  (tree_height input ≤ 32)%nat →
  ∃ root codes buf,
    let freq := Enc.buildFreqTable input in
    let h := mkHuffHeader MAGIC_NUMBER VERSION (Z.of_nat (length input))
               (Z.of_nat (length (Enc.data buf))) (crc32 input)
               (Z.of_nat (length (table_entries freq (seq 0 MAXN))))
               (padding_of buf) 0 in
    Enc.buildHuffmanTree freq = Some (Some root) ∧
    Enc.main_codes root = Some codes ∧
    Enc.compress input codes = Some (Some buf) ∧
    header_ok h ∧
    (1 ≤ length (table_entries freq (seq 0 MAXN)))%nat ∧
    Enc.main input
    = Some (Success (Enc.writeHeader h ++
                     flat_map entry_bytes (table_entries freq (seq 0 MAXN)) ++
                     Enc.data buf)) ∧
    ∀ malloc cells padding_bits,
      malloc (Z.of_nat (length input)) = Some cells →
      Dec.decompress malloc (Dec.bitReaderInit (Enc.data buf)) (Some root)
        (Z.of_nat (length input)) padding_bits = Some (Some input).
Proof.
  intros Hne Hlen Hnz Hheight. unfold tree_height in Hheight.
  pose proof (buildFreqTable_ok input) as [Hfl Hfr].
  assert (∀ b, b ∈ input → 0 < Enc.buildFreqTable input !!! bidx b) as Hpos.
  { intros b Hb. specialize (Hnz b Hb).
    pose proof (bidx_lt b) as Hi.
    destruct (lookup_lt_is_Some_2 (Enc.buildFreqTable input) (bidx b) ltac:(lia))
      as [f Hf].
    rewrite (list_lookup_total_correct _ _ _ Hf) in Hnz |- *.
    pose proof (Forall_lookup_1 _ _ _ _ Hfr Hf) as Hr. cbv beta in Hr. lia. }
  clear Hnz.
  unfold Enc.main. cbv zeta.
  remember (Enc.buildFreqTable input) as freq eqn:Hfreq. clear Hfreq.
  assert (∀ b, b ∈ input → b ∈ symbols_of freq) as Hsym.
  { intros b Hb. apply elem_of_symbols_of; [lia|]. by apply Hpos. }
  destruct (buildHuffmanTree_spec freq ltac:(lia)) as (r & Hbuild & Hr).
  destruct r as [root|]; last first.
  { destruct input as [|b ?]; [done|]. specialize (Hsym b ltac:(left)).
    rewrite Hr in Hsym. by apply elem_of_nil in Hsym. }
  destruct Hr as (Hstrict & Hleaves & Hsingle & Hmany).
  assert (NoDup (leaves root)) as Hnd.
  { rewrite Hleaves. apply NoDup_symbols_of. }
  assert (height root ≤ 32)%nat as Hh.
  { by rewrite Hbuild in Hheight. }
  destruct (main_codes_spec root Hnd Hh) as (codes & Hcodes & Hcl & Hentries).
  assert (∀ b, b ∈ input → b ∈ leaves root) as Hin.
  { intros b Hb. rewrite Hleaves. by apply Hsym. }
  destruct (compress_spec codes input) as (buf & Hcomp & Hbits & Hpad).
  { intros b Hb. destruct (Hentries b (Hin b Hb)) as (e & He & Hok & Hl & _).
    exists e. done. }
  exists root, codes, buf.
  assert (1 ≤ length (table_entries freq (seq 0 MAXN)))%nat as Hcount.
  { rewrite length_table_entries_symbols.
    destruct input as [|b ?]; [done|]. specialize (Hsym b ltac:(left)).
    destruct (symbols_of freq); [by apply elem_of_nil in Hsym|simpl; lia]. }
  assert (length (table_entries freq (seq 0 MAXN)) ≤ 256)%nat as Hcount'.
  { etrans; [apply length_table_entries|]. by rewrite length_seq. }
  assert (8 * length (Enc.data buf) ≤ 32 * length input + 8)%nat as Hsize.
  { rewrite <- length_bits_of_bytes, Hbits, length_app, length_replicate.
    assert (length (flat_map (λ b, entry_bits (codes !!! bidx b)) input)
            ≤ 32 * length input)%nat as Hle.
    { apply length_flat_map_le. intros b Hb.
      destruct (Hentries b (Hin b Hb)) as (e & He & _ & _ & Hl & _).
      by rewrite (list_lookup_total_correct _ _ _ He). }
    lia. }
  split; [done|]. split; [done|]. split; [done|]. split.
  { unfold header_ok, MAGIC_NUMBER, VERSION.
    cbn [magic version original_size compressed_size checksum tree_size
         padding_bits reserved].
    pose proof (crc32_range input). lia. }
  split; [done|]. split.
  - rewrite (proj2 (Z.leb_gt _ _)) by (destruct input; [done|cbn [length]; lia]).
    rewrite Hbuild. cbn [mbind option_bind].
    rewrite Hcodes. cbn [mbind option_bind]. rewrite Hcomp. cbn [mbind option_bind].
    rewrite writeFreqTable_spec by lia.
    rewrite (proj2 (Z.eqb_neq _ _)) by lia. done.
  - intros malloc cells padding_bits Hmalloc. destruct (is_leaf root) eqn:Hleaf.
    + unfold Dec.decompress. rewrite Hleaf, Hmalloc.
      rewrite (proj2 (Z.eqb_neq _ _)) by (destruct input; [done|cbn [length]; lia]).
      rewrite Nat2Z.id. do 2 f_equal.
      specialize (Hsingle eq_refl).
      apply list_eq_same_length with (length input); [done|by rewrite length_replicate|].
      intros i x y Hi Hx Hy. apply lookup_replicate in Hx as [-> _].
      apply list_elem_of_lookup_2 in Hy. apply Hsym in Hy. rewrite Hsingle in Hy.
      by apply list_elem_of_singleton in Hy.
    + apply (decompress_spec (λ b, entry_bits (codes !!! bidx b)) malloc cells root
               input (Enc.data buf) (replicate (Z.to_nat (padding_of buf)) false));
        [done|done| |done|done].
      intros c Hc. destruct (Hentries c (Hin c Hc)) as (e & He & _ & _ & _ & Hp & _).
      rewrite (list_lookup_total_correct _ _ _ He). by apply Hp.
Qed.

(** ** The decompressor on a well-formed container *)

Lemma Dec_main_container mem verify h freq payload :
  header_ok h → magic h = MAGIC_NUMBER → version h <= 1 →
  freq_table_ok freq →
  tree_size h = Z.of_nat (length (table_entries freq (seq 0 MAXN))) →
  (1 ≤ length (table_entries freq (seq 0 MAXN)))%nat →
  compressed_size h = Z.of_nat (length payload) →
  Dec.main mem verify
    (Enc.writeHeader h ++
     flat_map entry_bytes (table_entries freq (seq 0 MAXN)) ++ payload)
  = match Dec.compressed_data_malloc mem (compressed_size h) with
    | None => Some (Failure CompressedAllocFailed)
    | Some _ => Dec.decode_payload (Dec.output_malloc mem) verify h freq payload
    end.
Proof.
  intros Hh Hmagic Hver Hfreq Hts Hcount Hcs. unfold Dec.main.
  set (table := flat_map entry_bytes (table_entries freq (seq 0 MAXN))).
  assert (5 ≤ length table)%nat as Htl.
  { unfold table. destruct (table_entries freq (seq 0 MAXN)) as [|e es];
      [simpl in Hcount; lia|].
    cbn [flat_map]. rewrite length_app, length_entry_bytes. lia. }
  pose proof (length_writeHeader h) as Hhl.
  unfold sizeof_HuffHeader.
  destruct (decide _) as [Hsmall|_].
  { rewrite !length_app in Hsmall. lia. }
  unfold Dec.readHeader, sizeof_HuffHeader.
  destruct (decide _) as [Hsmall|_].
  { rewrite !length_app in Hsmall. lia. }
  rewrite (take_app_length' (Enc.writeHeader h)) by done.
  rewrite parseHeader_writeHeader by done.
  rewrite Hmagic, Z.eqb_refl. cbn [negb].
  rewrite (proj2 (Z.ltb_ge 1 (version h))) by lia.
  rewrite (drop_app_length' (Enc.writeHeader h)) by done.
  rewrite Hts. unfold table. rewrite readFreqTable_written by done.
  destruct (Dec.compressed_data_malloc mem (compressed_size h)); [|done].
  rewrite Hcs, Z.ltb_irrefl, Nat2Z.id, firstn_all. reflexivity.
Qed.

(** ** 2^32 copies of one byte *)

(** The 32-bit counter of the byte wraps to zero and no tree is built. *)
Lemma buildHuffmanTree_four_gib :
  Enc.buildHuffmanTree (Enc.buildFreqTable four_gib_of_A) = Some None.
Proof.
  unfold four_gib_of_A. rewrite buildFreqTable_replicate, Z2Nat.id by done.
  change (u32 (2 ^ 32)) with 0.
  replace (<[bidx "A" := 0]> (replicate MAXN 0)) with (replicate MAXN 0)
    by (vm_compute; reflexivity).
  vm_compute. reflexivity.
Qed.

Lemma Enc_main_four_gib : Enc.main four_gib_of_A = Some (Failure TreeBuildFailed).
Proof.
  unfold Enc.main. rewrite buildHuffmanTree_four_gib.
  unfold four_gib_of_A. rewrite length_replicate, Z2Nat.id by done.
  reflexivity.
Qed.

(** ** C1: round trip *)

(** C1, as stated, fails on the empty buffer, which the compressor
    rejects, and on the buffer of 2^32 bytes "A", for which it builds no
    tree: in both cases there is no container to decode. *)
Lemma roundtrip_fails_without_container :
  (¬ ∃ mem file, Enc.main [] = Some (Success file) ∧
                 Dec.main mem true file = Some (Success [])) ∧
  (¬ ∃ mem file, Enc.main four_gib_of_A = Some (Success file) ∧
                 Dec.main mem true file = Some (Success four_gib_of_A)).
Proof.
  split.
  - intros (mem & file & Henc & _). discriminate Henc.
  - intros (mem & file & Henc & _). rewrite Enc_main_four_gib in Henc.
    discriminate Henc.
Qed.

(** C1, amended: for every non-empty byte buffer in which every byte
    value that occurs has a nonzero 32-bit count, whose Huffman tree is
    at most 32 levels deep and which has fewer than 2^62 bytes (its
    payload, of at most 4 bytes for each of them, then has a size within
    the 64-bit fields of the header), the compressor produces a
    container, and the decompressor, with or without the checksum
    verification, returns exactly the buffer whenever [malloc] gives it
    its two buffers; when [malloc] fails it reports the failure and
    writes nothing. *)
Theorem roundtrip (mem : Dec.Memory) (verify : bool) (input : list byte) :
  input ≠ [] → Z.of_nat (length input) < 2 ^ 62 →
  (∀ b, b ∈ input → Enc.buildFreqTable input !!! bidx b ≠ 0) →
  (tree_height input ≤ 32)%nat →
  ∃ file,
    Enc.main input = Some (Success file) ∧
    let h := Dec.parseHeader (take sizeof_HuffHeader file) in
    original_size h = Z.of_nat (length input) ∧
    Dec.main mem verify file
    = match Dec.compressed_data_malloc mem (compressed_size h),
            Dec.output_malloc mem (original_size h) with
      | Some _, Some _ => Some (Success input)
      | Some _, None => Some (Failure DecompressionFailed)
      | None, _ => Some (Failure CompressedAllocFailed)
      end.
Proof.
  intros Hne Hlen Hnz Hheight.
  destruct (Enc_main_spec input Hne Hlen Hnz Hheight)
    as (root & codes & buf & Hbuild & Hcodes & Hcomp & Hh & Hcount & Hmain & Hdec).
  eexists. split; [exact Hmain|]. cbv zeta.
  unfold sizeof_HuffHeader at 1 2 3.
  rewrite (take_app_length' (Enc.writeHeader _)) by (by rewrite length_writeHeader).
  rewrite parseHeader_writeHeader by done.
  cbn [original_size compressed_size]. split; [done|].
  rewrite Dec_main_container; try done; [|apply buildFreqTable_ok].
  cbn [compressed_size].
  destruct (Dec.compressed_data_malloc mem _) as [cells0|]; [|done].
  unfold Dec.decode_payload. cbv zeta.
  rewrite decoder_builds_the_same_tree, Hbuild. cbn [mbind option_bind].
  cbn [original_size padding_bits checksum].
  destruct (Dec.output_malloc mem (Z.of_nat (length input))) as [cells|] eqn:Hm.
  - rewrite (Hdec _ cells _ Hm). cbn [mbind option_bind].
    rewrite Z.eqb_refl. by rewrite andb_false_r.
  - unfold Dec.decompress. rewrite Hm.
    rewrite (proj2 (Z.eqb_neq _ _)) by (destruct input; [done|cbn [length]; lia]).
    done.
Qed.

Lemma roundtrip_witness :
  aaabbc ≠ [] ∧ Z.of_nat (length aaabbc) < 2 ^ 62 ∧
  (∀ b, b ∈ aaabbc → Enc.buildFreqTable aaabbc !!! bidx b ≠ 0) ∧
  (tree_height aaabbc ≤ 32)%nat ∧
  ∃ file, Enc.main aaabbc = Some (Success file) ∧
          Dec.main one_tebibyte true file = Some (Success aaabbc).
Proof.
  assert (aaabbc ≠ []) as H1 by discriminate.
  assert (Z.of_nat (length aaabbc) < 2 ^ 62) as H2 by (vm_compute; reflexivity).
  assert (∀ b, b ∈ aaabbc → Enc.buildFreqTable aaabbc !!! bidx b ≠ 0) as H3.
  { apply list.Forall_forall. repeat constructor; vm_compute; discriminate. }
  assert (tree_height aaabbc ≤ 32)%nat as H4 by (vm_compute; lia).
  split; [exact H1|]. split; [exact H2|]. split; [exact H3|]. split; [exact H4|].
  destruct (roundtrip one_tebibyte true aaabbc H1 H2 H3 H4) as (file & Henc & Hdec).
  exists file. split; [exact Henc|].
  assert (Some (Success file) = Some (Success aaabbc_file)) as Hfile.
  { rewrite <- Henc. vm_compute. reflexivity. }
  injection Hfile as ->. destruct Hdec as [_ Hdec]. rewrite Hdec.
  vm_compute. reflexivity.
Defined.

(** ** C2: determinism *)

(** C2: the compressor is a function of its input, and for every
    frequency table the decompressor, reading back the table the
    compressor persisted, builds the tree the compressor built, so that
    every symbol is reached by the same branches in both. *)
Theorem encoder_and_decoder_agree (freq : list Z) (rest : list byte) :
  freq_table_ok freq →
  (∀ input r1 r2, Enc.main input = r1 → Enc.main input = r2 → r1 = r2) ∧
  ∃ freq',
    Dec.readFreqTable ((Enc.writeFreqTable freq).1 ++ rest) (Enc.writeFreqTable freq).2
      = Some (freq', rest) ∧
    Dec.buildHuffmanTree freq' = Enc.buildHuffmanTree freq ∧
    ∀ root root' c p,
      Enc.buildHuffmanTree freq = Some (Some root) →
      Dec.buildHuffmanTree freq' = Some (Some root') →
      (path_to root' p c ↔ path_to root p c).
Proof.
  intros Hok. split; [congruence|]. exists freq.
  rewrite writeFreqTable_spec by (destruct Hok; lia). cbn [fst snd].
  split; [by apply readFreqTable_written|].
  split; [apply decoder_builds_the_same_tree|].
  intros root root' c p He Hd. rewrite decoder_builds_the_same_tree in Hd.
  by simplify_eq.
Qed.

Lemma encoder_and_decoder_agree_witness :
  freq_table_ok aaabbc_freq ∧
  ∃ freq',
    Dec.readFreqTable ((Enc.writeFreqTable aaabbc_freq).1 ++ [])
      (Enc.writeFreqTable aaabbc_freq).2 = Some (freq', []) ∧
    Dec.buildHuffmanTree freq' = Enc.buildHuffmanTree aaabbc_freq.
Proof.
  assert (freq_table_ok aaabbc_freq) as Hok.
  { split; [reflexivity|].
    apply Forall_forall. intros x Hx.
    assert (forallb (λ x, (0 <=? x) && (x <? 2 ^ 32)) aaabbc_freq = true) as Hb
      by (vm_compute; reflexivity).
    rewrite forallb_forall in Hb. specialize (Hb x Hx). lia. }
  split; [exact Hok|].
  destruct (encoder_and_decoder_agree aaabbc_freq [] Hok) as (_ & freq' & H1 & H2 & _).
  exists freq'. split; [exact H1|exact H2].
Defined.

(** ** C3: a single distinct symbol *)

Lemma NoDup_only {A} (l : list A) (c : A) :
  NoDup l → (∀ x, x ∈ l ↔ x = c) → l = [c].
Proof.
  intros Hnd Hin. destruct l as [|x l].
  - specialize (proj2 (Hin c) eq_refl) as Hc. by apply elem_of_nil in Hc.
  - assert (x = c) as -> by (apply Hin; left).
    destruct l as [|y l]; [done|].
    assert (y = c) as -> by (apply Hin; right; left).
    apply list.NoDup_cons in Hnd as [Hni _]. exfalso. apply Hni. left.
Qed.

Lemma symbols_of_single c f :
  0 < f →
  symbols_of (<[bidx c := f]> (replicate MAXN 0)) = [c].
Proof.
  intros Hf. apply NoDup_only; [apply NoDup_symbols_of|].
  intros x. pose proof (bidx_lt c) as Hc. pose proof (bidx_lt x) as Hx.
  rewrite elem_of_symbols_of by (rewrite length_insert, length_replicate, MAXN_eq; lia).
  destruct (decide (bidx x = bidx c)) as [Heq|Hne].
  - apply bidx_inj in Heq as ->.
    rewrite list_lookup_total_insert_eq by (rewrite length_replicate, MAXN_eq; lia).
    done.
  - rewrite list_lookup_total_insert_ne by done.
    rewrite lookup_total_replicate_2 by (rewrite MAXN_eq; lia).
    split; [lia|]. by intros ->.
Qed.

(** The tree of a table with exactly one symbol is a leaf for it. *)
Lemma buildHuffmanTree_single freq c :
  (256 ≤ length freq)%nat → symbols_of freq = [c] →
  ∃ f, Enc.buildHuffmanTree freq = Some (Some (newNode c f None None)).
Proof.
  intros Hlen Hsym.
  destruct (buildHuffmanTree_spec freq Hlen) as (r & -> & Hr).
  destruct r as [root|]; [|by rewrite Hsym in Hr].
  destruct Hr as (_ & Hleaves & _ & Hmany).
  destruct (is_leaf root) eqn:Hleaf.
  - destruct root as [c' f [l|] [r|]]; try discriminate.
    simpl in Hleaves. rewrite Hsym in Hleaves.
    apply Permutation_singleton_l in Hleaves. injection Hleaves as ->.
    by exists f.
  - specialize (Hmany eq_refl). rewrite Hsym in Hmany. simpl in Hmany. lia.
Qed.

(** [decompress] on a single-leaf tree: the reader is not consulted. *)
Lemma decompress_single_leaf malloc reader c f original_size padding_bits :
  original_size ≠ 0 →
  Dec.decompress malloc reader (Some (newNode c f None None)) original_size padding_bits
  = match malloc original_size with
    | Some _ => Some (Some (replicate (Z.to_nat original_size) c))
    | None => Some None
    end.
Proof.
  intros Hne. unfold Dec.decompress. rewrite (proj2 (Z.eqb_neq _ _) Hne).
  by destruct (malloc original_size).
Qed.

(** C3, as stated, fails when the symbol occurs 2^32 times: its 32-bit
    counter wraps to zero, no tree is built and the compressor gives up
    before any code is assigned.  It also fails for an original size of
    0, where [decompress] returns [NULL] before it looks at the tree, and
    for an original size of 2^62 on a machine that does not have that
    much memory, where [decompress] returns [NULL] as well. *)
Lemma no_code_for_4GiB_of_one_symbol :
  Enc.buildHuffmanTree (Enc.buildFreqTable four_gib_of_A) = Some None ∧
  Enc.main four_gib_of_A = Some (Failure TreeBuildFailed) ∧
  (∀ malloc,
     Dec.decompress malloc (Dec.bitReaderInit []) (Some (newNode "A" 1 None None)) 0 0
     = Some None) ∧
  Dec.decompress (malloc_below (2 ^ 40)) (Dec.bitReaderInit [])
    (Some (newNode "A" 1 None None)) (2 ^ 62) 0
  = Some None.
Proof.
  split; [apply buildHuffmanTree_four_gib|].
  split; [apply Enc_main_four_gib|]. split; [reflexivity|].
  vm_compute. reflexivity.
Qed.

(** C3, amended: for every input made of [n] copies of one symbol, [n]
    not a multiple of 2^32, the tree is a single leaf and [main] gives
    the symbol the one-bit code 0; [decompress], on such a tree and a
    nonzero [original_size], returns [original_size] copies of the symbol
    whatever the reader holds when [malloc] gives it the buffer, and
    [NULL] when [malloc] fails. *)
Theorem single_symbol_code (c : byte) (n : nat) :
  Z.of_nat n mod 2 ^ 32 ≠ 0 →
  ∃ f codes e,
    Enc.buildHuffmanTree (Enc.buildFreqTable (replicate n c))
      = Some (Some (newNode c f None None)) ∧
    Enc.main_codes (newNode c f None None) = Some codes ∧
    codes !! bidx c = Some e ∧ Enc.len e = 1 ∧ entry_bits e = [false] ∧
    ∀ malloc reader original_size padding_bits,
      original_size ≠ 0 →
      Dec.decompress malloc reader (Some (newNode c f None None))
        original_size padding_bits
      = match malloc original_size with
        | Some _ => Some (Some (replicate (Z.to_nat original_size) c))
        | None => Some None
        end.
Proof.
  intros Hn. rewrite buildFreqTable_replicate.
  assert (0 < u32 (Z.of_nat n)) as Hpos.
  { unfold u32. pose proof (Z.mod_pos_bound (Z.of_nat n) (2 ^ 32) ltac:(done)). lia. }
  destruct (buildHuffmanTree_single (<[bidx c := u32 (Z.of_nat n)]> (replicate MAXN 0)) c)
    as [f Hf].
  { rewrite length_insert, length_replicate, MAXN_eq. lia. }
  { by apply symbols_of_single. }
  exists f. eexists. eexists. split; [exact Hf|].
  split; [reflexivity|]. split.
  { apply list_lookup_insert_eq. rewrite length_replicate, MAXN_eq.
    apply bidx_lt. }
  split; [reflexivity|]. split; [reflexivity|].
  intros malloc reader original_size padding_bits Hne. by apply decompress_single_leaf.
Qed.

Lemma single_symbol_code_witness :
  Z.of_nat 1000 mod 2 ^ 32 ≠ 0 ∧
  ∃ f codes e,
    Enc.buildHuffmanTree (Enc.buildFreqTable (replicate 1000 "A"%byte))
      = Some (Some (newNode "A"%byte f None None)) ∧
    Enc.main_codes (newNode "A"%byte f None None) = Some codes ∧
    codes !! bidx "A"%byte = Some e ∧ Enc.len e = 1 ∧ entry_bits e = [false].
Proof.
  assert (Z.of_nat 1000 mod 2 ^ 32 ≠ 0) as H by (vm_compute; discriminate).
  split; [exact H|].
  destruct (single_symbol_code "A"%byte 1000 H)
    as (f & codes & e & H1 & H2 & H3 & H4 & H5 & _).
  exists f, codes, e. repeat split; assumption.
Defined.

(** ** Reading a table from any file *)

Lemma read_entries_length n : ∀ bs t t' r,
  Dec.read_entries n bs t = Some (t', r) → length t' = length t.
Proof.
  induction n as [|n IH]; intros bs t t' r H.
  - by simplify_eq/=.
  - cbn [Dec.read_entries] in H. destruct (decide _); [done|].
    apply IH in H. by rewrite length_insert in H.
Qed.

Lemma read_entries_app n : ∀ bs t t' r x,
  Dec.read_entries n bs t = Some (t', r) →
  Dec.read_entries n (bs ++ x) t = Some (t', r ++ x).
Proof.
  induction n as [|n IH]; intros bs t t' r x H.
  - by simplify_eq/=.
  - cbn [Dec.read_entries] in H |- *. unfold sizeof_FreqEntry in *.
    destruct (decide (length bs < 5)%nat) as [|Hlen]; [done|].
    destruct (decide (length (bs ++ x) < 5)%nat) as [Hshort|_].
    { rewrite length_app in Hshort. lia. }
    destruct bs as [|b0 [|b1 [|b2 [|b3 [|b4 bs]]]]]; simpl in Hlen; try lia.
    apply (IH _ _ _ _ x) in H. exact H.
Qed.

Lemma readFreqTable_length bs n freq rest :
  Dec.readFreqTable bs n = Some (freq, rest) → length freq = 256%nat.
Proof.
  unfold Dec.readFreqTable. intros H%read_entries_length.
  by rewrite length_replicate in H.
Qed.

(** ** C4: the empty input *)

(** C4, as stated, fails: the compressor rejects the empty buffer and
    emits no container. *)
Lemma empty_input_is_rejected : ¬ ∃ file, Enc.main [] = Some (Success file).
Proof. intros [file H]. discriminate H. Qed.

(** Every step of [decode_payload] returns for a table of 256 entries
    when the header declares no original byte. *)
Lemma decode_payload_zero_size malloc verify h freq payload :
  length freq = 256%nat → original_size h = 0 →
  ∃ m, Dec.decode_payload malloc verify h freq payload = Some (Failure m).
Proof.
  intros Hlen Hsize. unfold Dec.decode_payload.
  rewrite decoder_builds_the_same_tree.
  destruct (buildHuffmanTree_spec freq ltac:(lia)) as (r & -> & _).
  cbn [mbind option_bind]. destruct r as [root|]; [|by eexists].
  cbv zeta. rewrite Hsize. unfold Dec.decompress. rewrite Z.eqb_refl.
  cbn [mbind option_bind]. by eexists.
Qed.

(** C4, amended: the compressor answers the empty buffer with the error
    "Input file is empty or cannot read size" and writes nothing, and the
    decompressor fails on every file whose header declares an original
    size of 0, whatever [malloc] does. *)
Theorem empty_input_and_zero_size
    (mem : Dec.Memory) (verify : bool) (file : list byte) :
  original_size (Dec.parseHeader (take sizeof_HuffHeader file)) = 0 →
  Enc.main [] = Some (Failure EmptyInput) ∧
  ∃ m, Dec.main mem verify file = Some (Failure m).
Proof.
  intros Hsize. split; [reflexivity|]. unfold Dec.main.
  destruct (decide _) as [|Hlen]; [by eexists|].
  unfold Dec.readHeader. destruct (decide _) as [|_]; [unfold sizeof_HuffHeader in *; lia|].
  destruct (negb _); [by eexists|].
  destruct (1 <? _); [by eexists|].
  destruct (Dec.readFreqTable _ _) as [[freq rest]|] eqn:Hread; [|by eexists].
  destruct (Dec.compressed_data_malloc mem _); [|by eexists].
  destruct (_ <? _); [by eexists|].
  apply decode_payload_zero_size; [|done].
  by apply readFreqTable_length in Hread.
Qed.

Lemma empty_input_and_zero_size_witness :
  original_size (Dec.parseHeader (take sizeof_HuffHeader zero_size_file)) = 0 ∧
  Enc.main [] = Some (Failure EmptyInput) ∧
  ∃ m, Dec.main one_tebibyte true zero_size_file = Some (Failure m).
Proof.
  assert (original_size (Dec.parseHeader (take sizeof_HuffHeader zero_size_file)) = 0)
    as H by (vm_compute; reflexivity).
  split; [exact H|].
  exact (empty_input_and_zero_size one_tebibyte true zero_size_file H).
Defined.

(** ** C8: magic number and version *)

Lemma le_bytes_le_value bs : le_bytes (length bs) (le_value bs) = bs.
Proof.
  induction bs as [|b bs IH]; [done|].
  cbn [length le_value le_bytes]. pose proof (b2z_range b) as Hb.
  f_equal.
  - assert (z2b (b2z b + 256 * le_value bs) = z2b (b2z b)) as ->; [|apply z2b_b2z].
    unfold z2b, u8. change (2 ^ 8) with 256. do 3 f_equal.
    rewrite Z.mul_comm. apply Z_mod_plus_full.
  - rewrite Z.shiftr_div_pow2 by lia. change (2 ^ 8) with 256.
    replace ((b2z b + 256 * le_value bs) `div` 256) with (le_value bs); [done|].
    rewrite Z.add_comm, Z.mul_comm, Z.div_add_l by lia.
    rewrite (Z.div_small (b2z b)) by lia. lia.
Qed.

(** C8, as stated, fails for the version: a container whose version field
    is 0, not the current version 1, is decoded without complaint. *)
Lemma version_0_is_accepted :
  version (Dec.parseHeader (take sizeof_HuffHeader version0_file)) ≠ VERSION ∧
  Dec.main one_tebibyte true version0_file = Some (Success aaabbc).
Proof. split; [vm_compute; discriminate|vm_compute; reflexivity]. Qed.

(** C8, amended: the decompressor ends with a format error, and writes
    nothing, on every file whose first four bytes are not the magic
    constant or whose version field is greater than 1 (a version of 0 is
    accepted); no buffer is allocated before that. *)
Theorem bad_magic_or_version_is_rejected
    (mem : Dec.Memory) (verify : bool) (file : list byte) :
  take 4 file ≠ le_bytes 4 MAGIC_NUMBER ∨
  1 < version (Dec.parseHeader (take sizeof_HuffHeader file)) →
  ∃ m, Dec.main mem verify file = Some (Failure m) ∧ format_error m.
Proof.
  intros Hbad. unfold Dec.main, format_error.
  destruct (decide _) as [|Hlen]; [eexists; split; [done|by left]|].
  unfold Dec.readHeader.
  destruct (decide _) as [|_]; [unfold sizeof_HuffHeader in *; lia|].
  destruct (magic _ =? MAGIC_NUMBER) eqn:Hmagic; cbn [negb];
    [|eexists; split; [done|by right; left]].
  destruct Hbad as [Hbad|Hbad].
  - exfalso. apply Hbad. apply Z.eqb_eq in Hmagic.
    unfold Dec.parseHeader in Hmagic. cbn [magic] in Hmagic.
    unfold sizeof_HuffHeader in *.
    rewrite take_take, Nat.min_l in Hmagic by lia.
    rewrite <- Hmagic.
    assert (length (take 4 file) = 4%nat) as Hl by (rewrite length_take; lia).
    rewrite <- Hl at 2. by rewrite le_bytes_le_value.
  - rewrite (proj2 (Z.ltb_lt _ _) Hbad). eexists. split; [done|by right; right].
Qed.

Lemma bad_magic_or_version_is_rejected_witness :
  (take 4 bad_magic_file ≠ le_bytes 4 MAGIC_NUMBER ∨
   1 < version (Dec.parseHeader (take sizeof_HuffHeader bad_magic_file))) ∧
  ∃ m, Dec.main one_tebibyte true bad_magic_file = Some (Failure m) ∧ format_error m.
Proof.
  assert (take 4 bad_magic_file ≠ le_bytes 4 MAGIC_NUMBER ∨
          1 < version (Dec.parseHeader (take sizeof_HuffHeader bad_magic_file))) as H.
  { left. vm_compute. discriminate. }
  split; [exact H|].
  exact (bad_magic_or_version_is_rejected one_tebibyte true bad_magic_file H).
Defined.

(** ** C10: the payload of a single-symbol container *)

Lemma readFreqTable_nonempty bs n freq rest c :
  Dec.readFreqTable bs n = Some (freq, rest) → symbols_of freq = [c] →
  (5 ≤ length bs)%nat.
Proof.
  unfold Dec.readFreqTable. intros Hread Hsym.
  destruct (Z.to_nat n) as [|k].
  - simpl in Hread. injection Hread as <- _.
    assert (c ∈ symbols_of (replicate MAXN 0)) as Hc by (rewrite Hsym; left).
    apply elem_of_symbols_of in Hc; [|by rewrite length_replicate, MAXN_eq].
    rewrite lookup_total_replicate_2 in Hc
      by (pose proof (bidx_lt c); rewrite MAXN_eq; lia).
    lia.
  - cbn [Dec.read_entries] in Hread. unfold sizeof_FreqEntry in Hread.
    destruct (decide _); [done|lia].
Qed.

(** What [main] returns for a container with one symbol: the payload
    appears only through its length. *)
Lemma Dec_main_single_symbol mem verify preamble h freq c payload :
  Dec.readHeader preamble = inr h →
  Dec.readFreqTable (drop sizeof_HuffHeader preamble) (tree_size h) = Some (freq, []) →
  symbols_of freq = [c] → original_size h ≠ 0 →
  compressed_size h <= Z.of_nat (length payload) →
  Dec.main mem verify (preamble ++ payload)
  = match Dec.compressed_data_malloc mem (compressed_size h),
          Dec.output_malloc mem (original_size h) with
    | Some _, Some _ =>
        if verify &&
           negb (crc32 (replicate (Z.to_nat (original_size h)) c) =? checksum h)
        then Some (Failure ChecksumMismatch)
        else Some (Success (replicate (Z.to_nat (original_size h)) c))
    | Some _, None => Some (Failure DecompressionFailed)
    | None, _ => Some (Failure CompressedAllocFailed)
    end.
Proof.
  intros Hhdr Htable Hsym Hsize Hpayload.
  pose proof (readFreqTable_nonempty _ _ _ _ _ Htable Hsym) as Hpre.
  rewrite length_drop in Hpre. unfold sizeof_HuffHeader in *.
  unfold Dec.main, sizeof_HuffHeader.
  destruct (decide _) as [Hsmall|_]; [rewrite length_app in Hsmall; lia|].
  assert (Dec.readHeader (preamble ++ payload) = inr h) as ->.
  { unfold Dec.readHeader, sizeof_HuffHeader in *.
    destruct (decide (length preamble < 30)%nat); [done|].
    destruct (decide _) as [Hsmall|_]; [rewrite length_app in Hsmall; lia|].
    by rewrite take_app_le by lia. }
  rewrite drop_app_le by lia.
  unfold Dec.readFreqTable in *.
  rewrite (read_entries_app _ _ _ _ _ payload Htable). cbn [app].
  destruct (Dec.compressed_data_malloc mem (compressed_size h)); [|done].
  rewrite (proj2 (Z.ltb_ge _ _)) by lia.
  unfold Dec.decode_payload. rewrite decoder_builds_the_same_tree.
  apply read_entries_length in Htable. rewrite length_replicate, MAXN_eq in Htable.
  destruct (buildHuffmanTree_single freq c ltac:(lia) Hsym) as [f ->].
  cbn [mbind option_bind]. cbv zeta.
  rewrite decompress_single_leaf by done.
  by destruct (Dec.output_malloc mem (original_size h)).
Qed.

(** C10, as stated, fails in its last clause and in its first one.
    The container of "aaa" and a copy of it with another payload both
    pass the checksum verification and give "aaa": the checksum is taken
    over the output, so verification does not detect the corruption of
    the payload either.  And on a machine that serves no request of 2^40
    bytes or more, a container with one symbol and an original size of
    2^62 gives "Decompression failed", not 2^62 copies of the symbol. *)
Lemma single_symbol_corruption_passes_verification :
  Enc.main ["a"; "a"; "a"]%byte = Some (Success (aaa_preamble ++ ["000"%byte])) ∧
  Dec.main one_tebibyte true (aaa_preamble ++ ["000"%byte])
    = Some (Success ["a"; "a"; "a"]%byte) ∧
  Dec.main one_tebibyte true (aaa_preamble ++ ["255"%byte; "255"%byte])
    = Some (Success ["a"; "a"; "a"]%byte) ∧
  Dec.readHeader huge_aaa_file
    = inr (mkHuffHeader MAGIC_NUMBER VERSION (2 ^ 62) 1 0xF007732D 1 5 0) ∧
  Dec.main one_tebibyte false huge_aaa_file = Some (Failure DecompressionFailed).
Proof. repeat split; vm_compute; reflexivity. Qed.

(** C10, amended: for every container whose table has exactly one symbol
    with a nonzero count and whose original size is not 0, the
    decompressor ignores the payload.  When [malloc] gives it its two
    buffers the output is [original_size] copies of the symbol, written
    unless verification is on and their CRC-32 is not the checksum of the
    header; when [malloc] fails it reports the failure.  In every case
    the result is the same for any two payloads, with and without
    verification: no check of the decompressor sees the payload. *)
Theorem single_symbol_payload_is_ignored
    (mem : Dec.Memory) (verify : bool) (preamble payload1 payload2 : list byte)
    (h : HuffHeader) (freq : list Z) (c : byte) :
  Dec.readHeader preamble = inr h →
  Dec.readFreqTable (drop sizeof_HuffHeader preamble) (tree_size h) = Some (freq, []) →
  symbols_of freq = [c] → original_size h ≠ 0 →
  compressed_size h <= Z.of_nat (length payload1) →
  compressed_size h <= Z.of_nat (length payload2) →
  Dec.main mem verify (preamble ++ payload1)
  = match Dec.compressed_data_malloc mem (compressed_size h),
          Dec.output_malloc mem (original_size h) with
    | Some _, Some _ =>
        if verify &&
           negb (crc32 (replicate (Z.to_nat (original_size h)) c) =? checksum h)
        then Some (Failure ChecksumMismatch)
        else Some (Success (replicate (Z.to_nat (original_size h)) c))
    | Some _, None => Some (Failure DecompressionFailed)
    | None, _ => Some (Failure CompressedAllocFailed)
    end ∧
  Dec.main mem verify (preamble ++ payload1) = Dec.main mem verify (preamble ++ payload2).
Proof.
  intros Hhdr Htable Hsym Hsize Hp1 Hp2. split.
  - by apply (Dec_main_single_symbol mem verify preamble h freq c payload1).
  - rewrite (Dec_main_single_symbol mem verify preamble h freq c payload1) by done.
    by rewrite (Dec_main_single_symbol mem verify preamble h freq c payload2).
Qed.

Lemma single_symbol_payload_is_ignored_witness :
  Dec.readHeader aaa_preamble = inr aaa_header ∧
  Dec.readFreqTable (drop sizeof_HuffHeader aaa_preamble) (tree_size aaa_header)
    = Some (aaa_freq, []) ∧
  symbols_of aaa_freq = ["a"%byte] ∧ original_size aaa_header ≠ 0 ∧
  compressed_size aaa_header <= Z.of_nat (length ["000"%byte]) ∧
  compressed_size aaa_header <= Z.of_nat (length ["255"%byte; "255"%byte]) ∧
  Dec.main one_tebibyte true (aaa_preamble ++ ["000"%byte])
    = Dec.main one_tebibyte true (aaa_preamble ++ ["255"%byte; "255"%byte]).
Proof.
  assert (Dec.readHeader aaa_preamble = inr aaa_header) as H1
    by (vm_compute; reflexivity).
  assert (Dec.readFreqTable (drop sizeof_HuffHeader aaa_preamble) (tree_size aaa_header)
          = Some (aaa_freq, [])) as H2 by (vm_compute; reflexivity).
  assert (symbols_of aaa_freq = ["a"%byte]) as H3 by (vm_compute; reflexivity).
  assert (original_size aaa_header ≠ 0) as H4 by (vm_compute; discriminate).
  assert (compressed_size aaa_header <= Z.of_nat (length ["000"%byte])) as H5
    by (vm_compute; discriminate).
  assert (compressed_size aaa_header <= Z.of_nat (length ["255"%byte; "255"%byte])) as H6
    by (vm_compute; discriminate).
  repeat (split; [assumption|]).
  exact (proj2 (single_symbol_payload_is_ignored one_tebibyte true aaa_preamble
                  ["000"%byte] ["255"%byte; "255"%byte] aaa_header aaa_freq "a"%byte
                  H1 H2 H3 H4 H5 H6)).
Defined.

(** ** C7: the sizes in the header *)

Lemma write_code_fold_inv e buf k : ∀ buf',
  buffer_ok buf →
  foldl (Enc.write_code_bit e) (Some buf) (seq 0 k) = Some buf' →
  buffer_ok buf' ∧ written buf' = written buf ++ (entry_bit e <$> seq 0 k).
Proof.
  induction k as [|k IH]; intros buf' Hok H.
  - injection H as <-. split; [done|]. by rewrite app_nil_r.
  - rewrite seq_S, foldl_snoc, Nat.add_0_l in H.
    destruct (foldl (Enc.write_code_bit e) (Some buf) (seq 0 k)) as [buf1|]; [|done].
    destruct (IH buf1 Hok eq_refl) as [Hok1 Hw1].
    unfold Enc.write_code_bit in H. cbn [mbind option_bind] in H.
    destruct (Enc.code e !! (k / 8)%nat) as [cb|] eqn:Hcb; [|done].
    cbn [mbind option_bind] in H. rewrite land_shiftr_1 in H by lia.
    destruct (bitBufferWriteBits_one buf1 (Z.testbit cb (Z.of_nat (7 - k mod 8))) Hok1)
      as (buf2 & Hb & Hok2 & Hw2).
    rewrite Hb in H. injection H as <-. split; [done|].
    rewrite Hw2, Hw1, seq_S, fmap_app, <- (assoc_L (++)). do 2 f_equal.
    simpl. unfold entry_bit. by rewrite (list_lookup_total_correct _ _ _ Hcb).
Qed.

Lemma compress_loop_inv codes data : ∀ buf buf',
  buffer_ok buf →
  Enc.compress_loop data codes buf = Some (Some buf') →
  buffer_ok buf' ∧
  written buf' = written buf ++ flat_map (λ b, entry_bits (codes !!! bidx b)) data.
Proof.
  induction data as [|b data IH]; intros buf buf' Hok H.
  - injection H as <-. split; [done|]. by rewrite app_nil_r.
  - cbn [Enc.compress_loop] in H.
    destruct (codes !! bidx b) as [e|] eqn:He; [|done].
    cbn [mbind option_bind] in H. destruct (Enc.len e =? 0); [done|].
    destruct (Enc.write_code e buf) as [buf1|] eqn:Hw; [|done].
    cbn [mbind option_bind] in H.
    destruct (write_code_fold_inv e buf _ buf1 Hok Hw) as [Hok1 Hw1].
    destruct (IH buf1 buf' Hok1 H) as [Hok' Hw'].
    split; [done|]. rewrite Hw', Hw1, <- (assoc_L (++)). cbn [flat_map].
    by rewrite (list_lookup_total_correct _ _ _ He).
Qed.

Lemma generateCodes_len t : ∀ codes code depth codes',
  Enc.generateCodes t codes code depth = Some codes' →
  Forall (λ e, 0 <= Enc.len e < 256) codes →
  Forall (λ e, 0 <= Enc.len e < 256) codes'.
Proof.
  induction t as [c0 f l r IHl IHr] using Node_ind'.
  intros codes code depth codes' H Hall.
  destruct l as [ln|] eqn:El, r as [rn|] eqn:Er; cbn [Enc.generateCodes] in H.
  - destruct (Enc.generateCodes ln _ _ _) as [codes1|] eqn:H1; [|done].
    cbn [mbind option_bind] in H.
    eapply (IHr rn eq_refl); [exact H|]. by eapply (IHl ln eq_refl).
  - destruct (Enc.generateCodes ln _ _ _) as [codes1|] eqn:H1; [|done].
    cbn [mbind option_bind] in H. injection H as <-. by eapply (IHl ln eq_refl).
  - cbn [mbind option_bind] in H. by eapply (IHr rn eq_refl).
  - destruct (Enc.pack_code code depth) as [bytes|]; [|done].
    cbn [mbind option_bind] in H. injection H as <-.
    apply Forall_insert; [done|]. simpl. unfold u8.
    apply Z.mod_pos_bound. lia.
Qed.

Lemma main_codes_len root codes :
  Enc.main_codes root = Some codes → Forall (λ e, 0 <= Enc.len e < 256) codes.
Proof.
  unfold Enc.main_codes. intros H.
  assert (Forall (λ e, 0 <= Enc.len e < 256) (replicate MAXN (Enc.mkCodeEntry [] 0)))
    as Hall by (apply Forall_replicate; simpl; lia).
  destruct (negb (is_leaf root)).
  - by eapply generateCodes_len.
  - injection H as <-. apply Forall_insert; [done|]. simpl. lia.
Qed.

Lemma length_entry_bits e : length (entry_bits e) = Z.to_nat (Enc.len e).
Proof. unfold entry_bits. by rewrite length_fmap, length_seq. Qed.

Lemma length_table_bytes (es : list (nat * Z)) :
  length (flat_map entry_bytes es) = (5 * length es)%nat.
Proof.
  induction es as [|e es IH]; [done|].
  cbn [flat_map length]. rewrite length_app, length_entry_bytes, IH. lia.
Qed.

(** C7: in every container [main] writes, [original_size] is the length
    of the input, [compressed_size] is the number of payload bytes after
    the table, and [padding_bits], between 0 and 7, is the number of zero
    bits that follow the codes of the input in the payload; the header
    read back from the file holds these values. *)
Theorem header_accounts_for_the_payload (input file : list byte) :
  Enc.main input = Some (Success file) →
  ∃ h table payload root codes,
    file = Enc.writeHeader h ++ table ++ payload ∧
    Z.of_nat (length table) = 5 * tree_size h ∧
    original_size h = Z.of_nat (length input) ∧
    compressed_size h = Z.of_nat (length payload) ∧
    0 <= padding_bits h <= 7 ∧
    Enc.buildHuffmanTree (Enc.buildFreqTable input) = Some (Some root) ∧
    Enc.main_codes root = Some codes ∧
    bits_of_bytes payload
    = flat_map (λ b, entry_bits (codes !!! bidx b)) input ++
      replicate (Z.to_nat (padding_bits h)) false ∧
    (Z.of_nat (length input) < 2 ^ 56 →
     Dec.parseHeader (take sizeof_HuffHeader file) = h).
Proof.
  unfold Enc.main. intros H. destruct (_ <=? 0); [done|]. cbv zeta in H.
  pose proof (buildFreqTable_ok input) as [Hfl Hfr].
  remember (Enc.buildFreqTable input) as freq eqn:Hfreq. clear Hfreq.
  destruct (Enc.buildHuffmanTree freq) as [[root|]|]; [|done..].
  cbn [mbind option_bind] in H.
  destruct (Enc.main_codes root) as [codes|] eqn:Hcodes; [|done].
  cbn [mbind option_bind] in H.
  pose proof (main_codes_len root codes Hcodes) as Hlens.
  destruct (Enc.compress input codes) as [[buf|]|] eqn:Hcomp; [|done..].
  cbn [mbind option_bind] in H.
  unfold Enc.compress in Hcomp.
  destruct (Enc.compress_loop input codes Enc.bitBufferInit) as [[buf0|]|] eqn:Hloop;
    [|done..].
  injection Hcomp as <-.
  destruct (compress_loop_inv codes input _ buf0 buffer_ok_init Hloop) as [Hok Hw].
  destruct (bitBufferFlush_spec buf0 Hok) as (Hbits & Hused & Hpad).
  rewrite writeFreqTable_spec in H by lia.
  destruct (_ =? 0); [done|].
  assert (∀ a b, Some (Success a) = Some (Success b) → a = b) as Hinj
    by (intros a b [=]; done).
  apply Hinj in H. clear Hinj. subst file.
  cbn [magic version original_size compressed_size checksum tree_size
       padding_bits reserved].
  change (if 0 <? Enc.bits_used (Enc.bitBufferFlush buf0)
          then 8 - Enc.bits_used (Enc.bitBufferFlush buf0) else 0)
    with (padding_of (Enc.bitBufferFlush buf0)).
  assert (padding_of (Enc.bitBufferFlush buf0) = padding_of buf0) as Hp.
  { unfold padding_of. by rewrite Hused. }
  rewrite Hp.
  assert (bits_of_bytes (Enc.data (Enc.bitBufferFlush buf0))
          = flat_map (λ b, entry_bits (codes !!! bidx b)) input ++
            replicate (Z.to_nat (padding_of buf0)) false) as Hpayload.
  { rewrite Hbits, Hw. reflexivity. }
  eexists _, _, _, root, codes. split; [reflexivity|].
  cbn [magic version original_size compressed_size checksum tree_size
       padding_bits reserved].
  split; [rewrite length_table_bytes; lia|]. split; [done|]. split; [done|].
  split; [lia|]. split; [done|]. split; [done|]. split; [done|].
  intros Hlen. unfold sizeof_HuffHeader.
  rewrite (take_app_length' (Enc.writeHeader _)) by (by rewrite length_writeHeader).
  apply parseHeader_writeHeader. unfold header_ok, MAGIC_NUMBER, VERSION.
  cbn [magic version original_size compressed_size checksum tree_size
       padding_bits reserved].
  pose proof (crc32_range input).
  assert (length (table_entries freq (seq 0 MAXN)) ≤ 256)%nat as Hcount.
  { etrans; [apply length_table_entries|]. by rewrite length_seq. }
  assert (8 * length (Enc.data (Enc.bitBufferFlush buf0)) ≤ 255 * length input + 8)%nat
    as Hsize.
  { rewrite <- length_bits_of_bytes, Hpayload, length_app, length_replicate.
    assert (length (flat_map (λ b, entry_bits (codes !!! bidx b)) input)
            ≤ 255 * length input)%nat as Hle.
    { apply length_flat_map_le. intros b _. rewrite length_entry_bits.
      assert (0 <= Enc.len (codes !!! bidx b) < 256); [|lia].
      destruct (decide (bidx b < length codes)%nat) as [Hin|Hout].
      - destruct (lookup_lt_is_Some_2 _ _ Hin) as [e He].
        rewrite (list_lookup_total_correct _ _ _ He).
        by apply (Forall_lookup_1 _ _ _ _ Hlens He).
      - rewrite list_lookup_total_alt, lookup_ge_None_2 by lia. simpl. lia. }
    lia. }
  lia.
Qed.

Lemma header_accounts_for_the_payload_witness :
  Enc.main aaabbc = Some (Success aaabbc_file) ∧
  ∃ h table payload,
    aaabbc_file = Enc.writeHeader h ++ table ++ payload ∧
    original_size h = Z.of_nat (length aaabbc) ∧
    compressed_size h = Z.of_nat (length payload) ∧
    0 <= padding_bits h <= 7.
Proof.
  assert (Enc.main aaabbc = Some (Success aaabbc_file)) as Hmain
    by (vm_compute; reflexivity).
  split; [exact Hmain|].
  destruct (header_accounts_for_the_payload aaabbc aaabbc_file Hmain)
    as (h & table & payload & root & codes & H1 & _ & H3 & H4 & H5 & _).
  exists h, table, payload. repeat split; try assumption; apply H5.
Defined.

(** ** C5: prefix-freedom *)

(** The codes of a tree of at most 32 levels are prefix-free. *)
Lemma main_codes_prefix_free freq root :
  (256 ≤ length freq)%nat →
  Enc.buildHuffmanTree freq = Some (Some root) → (height root ≤ 32)%nat →
  ∃ codes, Enc.main_codes root = Some codes ∧ prefix_free codes.
Proof.
  intros Hlen Hbuild Hh.
  destruct (buildHuffmanTree_spec freq Hlen) as (r & Hr & Hspec).
  rewrite Hbuild in Hr. injection Hr as <-.
  destruct Hspec as (_ & Hleaves & _ & _).
  assert (NoDup (leaves root)) as Hnd by (rewrite Hleaves; apply NoDup_symbols_of).
  destruct (main_codes_spec root Hnd Hh) as (codes & Hcodes & Hcl & Hentries).
  exists codes. split; [done|].
  assert (∀ i e, codes !! i = Some e → 0 < Enc.len e →
            ∃ c, c ∈ leaves root ∧ i = bidx c) as Hleaf.
  { intros i e He Hpos.
    destruct (decide (Exists (λ c, i = bidx c) (leaves root))) as [Hex|Hnex].
    - apply list.Exists_exists in Hex as (c & Hc & ->). by exists c.
    - exfalso. rewrite <- Forall_Exists_neg, list.Forall_forall in Hnex.
      unfold Enc.main_codes in Hcodes.
      destruct (is_leaf root) eqn:Hl; cbn [negb] in Hcodes.
      + injection Hcodes as <-.
        destruct root as [c f [l|] [r|]]; try discriminate. simpl in *.
        rewrite list_lookup_insert_ne in He
          by (intros <-; apply (Hnex c); [left|done]).
        apply lookup_replicate in He as [-> _]. simpl in Hpos. lia.
      + destruct (generateCodes_spec root (replicate MAXN (Enc.mkCodeEntry [] 0)) 0 [])
          as (codes' & Hg & _ & Hsame & _); [simpl; lia|apply holds_nil|].
        simpl in Hg. rewrite Hg in Hcodes. injection Hcodes as <-.
        rewrite Hsame in He by (intros c Hc; by apply Hnex).
        apply lookup_replicate in He as [-> _]. simpl in Hpos. lia. }
  intros i j e1 e2 H1 H2 Hij Hp1 Hp2 Hpre.
  destruct (Hleaf i e1 H1 Hp1) as (c1 & Hc1 & ->).
  destruct (Hleaf j e2 H2 Hp2) as (c2 & Hc2 & ->).
  destruct (Hentries c1 Hc1) as (e1' & He1 & _ & _ & _ & Hpath1 & Hone1).
  destruct (Hentries c2 Hc2) as (e2' & He2 & _ & _ & _ & Hpath2 & Hone2).
  simplify_eq.
  destruct (is_leaf root) eqn:Hl.
  - destruct root as [c f [l|] [r|]]; try discriminate. simpl in *.
    apply list_elem_of_singleton in Hc1, Hc2. congruence.
  - destruct (path_to_prefix root _ _ c1 c2 (Hpath1 eq_refl) (Hpath2 eq_refl) Hpre)
      as [_ ->]. done.
Qed.

(** C5 at the Fibonacci table: the tree is 33 levels deep and
    [generateCodes], whose 32-bit accumulator cannot hold the 33 branches
    of its deepest leaves, shifts it by 32 and has no defined result. *)
Theorem generateCodes_undefined_on_deep_tree :
  freq_table_ok fib_freq ∧
  ∃ root,
    Enc.buildHuffmanTree fib_freq = Some (Some root) ∧
    height root = 33%nat ∧
    path_to root (replicate 32 true ++ [false]) "000"%byte ∧
    Enc.generateCodes root (replicate MAXN (Enc.mkCodeEntry [] 0)) 0 0 = None.
Proof.
  split.
  { split; [reflexivity|]. apply Forall_forall. intros x Hx.
    assert (forallb (λ x, (0 <=? x) && (x <? 2 ^ 32)) fib_freq = true) as Hb
      by (vm_compute; reflexivity).
    rewrite forallb_forall in Hb. specialize (Hb x Hx). lia. }
  destruct (Enc.buildHuffmanTree fib_freq) as [[root|]|] eqn:Hbuild;
    [|vm_compute in Hbuild; discriminate..].
  exists root. split; [done|].
  assert (Some (Some root) = Enc.buildHuffmanTree fib_freq) as Hroot by done.
  vm_compute in Hroot. injection Hroot as ->.
  split; [vm_compute; reflexivity|]. split; [|vm_compute; reflexivity].
  repeat constructor.
Qed.

(** ** C9: a null child during the walk *)

(** huffman-01: when the next bit leads to a null child, [decompress]
    frees its buffer and returns [NULL]. *)
Lemma decompress_loop_null_child fuel reader root current output
    original_size padding_bits (b : bool) rest :
  reader_ok reader → remaining reader = b :: rest →
  Z.of_nat (length output) < original_size →
  (if b then right current else left current) = None →
  Dec.decompress_loop (S fuel) reader root current output original_size padding_bits
  = Some None.
Proof.
  intros Hok Hrem Hlt Hnull. cbn [Dec.decompress_loop].
  rewrite (proj2 (Z.ltb_lt _ _) Hlt).
  pose proof (bitReaderReadBit_spec reader Hok) as Hread. rewrite Hrem in Hread.
  destruct Hread as (reader' & -> & _).
  assert ((Z.b2z b <? 0) = false) as -> by (by destruct b).
  assert ((if Z.b2z b =? 0 then left current else right current) = None) as ->
    by (by destruct b).
  reflexivity.
Qed.

(** C9 at the file [h00_bad_file]: the decoder of huffman-00 writes one
    byte, prints the error when the second bit leads to the missing
    right child of its root, and returns to [main], which exits with
    status 0 and leaves the byte in the output file. *)
Theorem h00_invalid_path_keeps_output :
  H00.decodeFile h00_bad_file = Some (H00.Return0 true ["a"%byte]).
Proof. vm_compute. reflexivity. Qed.

End Container.

Section FirstVariant.

#[local] Arguments Nat.div : simpl never.
#[local] Arguments Nat.modulo : simpl never.
#[local] Arguments Nat.mul : simpl never.
#[local] Arguments seq : simpl never.
#[local] Arguments replicate : simpl never.
#[local] Arguments Z.mul : simpl never.
#[local] Arguments Z.add : simpl never.
#[local] Arguments Z.sub : simpl never.
#[local] Arguments Z.of_nat : simpl never.
#[local] Arguments Z.to_nat : simpl never.

(** ** The heap of huffman-00 *)

Lemma insert_swap {A} (l : list A) i j x y :
  i ≠ j → l !! i = Some x → l !! j = Some y →
  <[j:=x]> (<[i:=y]> l) ≡ₚ l.
Proof.
  intros Hij Hx Hy.
  rewrite insert_move_hole; [|done|by eapply lookup_lt_Some|done].
  by rewrite list_insert_id.
Qed.

Lemma minHeapify_spec fuel : ∀ a idx,
  (idx < length a)%nat → (length a - idx ≤ fuel)%nat →
  ∃ a', H00.minHeapify fuel a idx = Some a' ∧ a' ≡ₚ a.
Proof.
  induction fuel as [|fuel IH]; intros a idx Hidx Hfuel; [lia|].
  cbn [H00.minHeapify]. cbv zeta.
  destruct (lookup_lt_is_Some_2 a idx Hidx) as [at_idx Hat]. rewrite Hat.
  cbn [mbind option_bind].
  assert (∃ s, (idx ≤ s < length a)%nat ∧
            (if decide (2 * idx + 1 < length a)%nat
             then a !! (2 * idx + 1)%nat ≫= λ at_l,
                    Some (if freq at_l <? freq at_idx then (2 * idx + 1)%nat else idx)
             else Some idx) = Some s) as (s & Hs & ->).
  { destruct (decide _) as [Hl|_]; [|exists idx; split; [lia|done]].
    destruct (lookup_lt_is_Some_2 a _ Hl) as [at_l ->]. cbn [mbind option_bind].
    destruct (_ <? _); eexists; (split; [|done]); lia. }
  cbn [mbind option_bind].
  destruct (lookup_lt_is_Some_2 a s ltac:(lia)) as [at_s Hats]. rewrite Hats.
  cbn [mbind option_bind].
  assert (∃ s', (idx ≤ s' < length a)%nat ∧
            (if decide (2 * idx + 2 < length a)%nat
             then a !! (2 * idx + 2)%nat ≫= λ at_r,
                    Some (if freq at_r <? freq at_s then (2 * idx + 2)%nat else s)
             else Some s) = Some s') as (s' & Hs' & ->).
  { destruct (decide _) as [Hr|_]; [|exists s; split; [lia|done]].
    destruct (lookup_lt_is_Some_2 a _ Hr) as [at_r ->]. cbn [mbind option_bind].
    destruct (_ <? _); eexists; (split; [|done]); lia. }
  cbn [mbind option_bind].
  destruct (decide (s' = idx)) as [->|Hne]; [by exists a|].
  destruct (lookup_lt_is_Some_2 a s' ltac:(lia)) as [at_s' Hats']. rewrite Hats'.
  cbn [mbind option_bind].
  destruct (IH (<[s' := at_idx]> (<[idx := at_s']> a)) s') as (a' & -> & Hperm).
  { rewrite !length_insert. lia. }
  { rewrite !length_insert. lia. }
  exists a'. split; [done|]. rewrite Hperm. by apply insert_swap.
Qed.

Lemma extractMin_spec a :
  a ≠ [] → ∃ x a', H00.extractMin a = Some (x, a') ∧ x :: a' ≡ₚ a.
Proof.
  intros Hne. unfold H00.extractMin.
  destruct a as [|temp t]; [done|]. cbn [lookup list_lookup mbind option_bind].
  destruct (lookup_lt_is_Some_2 (temp :: t) (length (temp :: t) - 1))
    as [last Hlast]; [simpl; lia|].
  rewrite Hlast. cbn [mbind option_bind].
  cbn [length] in *. rewrite Nat.sub_succ, Nat.sub_0_r in *.
  cbn [insert list_insert]. 
  destruct t as [|x t'] using rev_ind.
  - simpl. exists temp, []. done.
  - clear IHt'. rewrite length_app in *. cbn [length] in *.
    rewrite Nat.add_1_r in *. 
    assert (last = x) as ->.
    { rewrite lookup_cons_ne_0, Nat.pred_succ in Hlast by lia.
      rewrite lookup_app_r, Nat.sub_diag in Hlast by lia. by injection Hlast. }
    change (take (S (length t')) (x :: t' ++ [x]))
      with (x :: take (length t') (t' ++ [x])).
    rewrite take_app_length.
    destruct (minHeapify_spec (S (S (length t'))) (x :: t') 0)
      as (a2 & -> & Hperm); [simpl; lia|simpl; lia|].
    cbn [mbind option_bind]. exists temp, a2. split; [done|].
    rewrite Hperm. f_equiv. apply Permutation_cons_append.
Qed.

Lemma sift_up_spec fuel : ∀ a i node,
  (i < length a)%nat → (i < fuel)%nat →
  ∃ a' i', H00.sift_up fuel a i node = Some (a', i') ∧
           (i' < length a')%nat ∧
           <[i' := node]> a' ≡ₚ <[i := node]> a.
Proof.
  induction fuel as [|fuel IH]; intros a i node Hi Hf; [lia|].
  cbn [H00.sift_up]. destruct (decide (i ≠ 0%nat)) as [Hne|_]; [|by exists a, i].
  assert ((i - 1) / 2 < i)%nat as Hhalf.
  { apply Nat.Div0.div_lt_upper_bound; lia. }
  destruct (lookup_lt_is_Some_2 a ((i - 1) / 2) ltac:(lia)) as [parent Hp].
  rewrite Hp. cbn [mbind option_bind].
  destruct (_ <? _); [|by exists a, i].
  destruct (IH (<[i := parent]> a) ((i - 1) / 2)%nat node) as (a' & i' & -> & Hi' & Hperm).
  { rewrite length_insert. lia. }
  { lia. }
  exists a', i'. split; [done|]. split; [done|].
  rewrite Hperm. apply insert_move_hole; [lia|lia|done].
Qed.

Lemma insertMinHeap_spec a node :
  ∃ a', H00.insertMinHeap a node = Some a' ∧ a' ≡ₚ node :: a.
Proof.
  unfold H00.insertMinHeap.
  destruct (sift_up_spec (S (length a)) (a ++ [node]) (length a) node)
    as (a' & i' & -> & Hi' & Hperm).
  { rewrite length_app. simpl. lia. }
  { lia. }
  cbn [mbind option_bind]. eexists. split; [done|].
  rewrite Hperm, insert_app_r_alt, Nat.sub_diag by lia. simpl.
  symmetry. apply Permutation_cons_append.
Qed.

Lemma buildMinHeap_spec a :
  (2 ≤ length a)%nat → ∃ a', H00.buildMinHeap a = Some a' ∧ a' ≡ₚ a.
Proof.
  intros Hlen. unfold H00.buildMinHeap.
  assert (∀ idxs a0, a0 ≡ₚ a → (∀ i, i ∈ idxs → (i < length a)%nat) →
            ∃ a', foldl (λ acc i, a' ← acc; H00.minHeapify (S (length a)) a' i)
                        (Some a0) idxs = Some a' ∧ a' ≡ₚ a) as H.
  { induction idxs as [|i idxs IH]; intros a0 Hp Hin; [by exists a0|].
    cbn [foldl mbind option_bind].
    destruct (minHeapify_spec (S (length a)) a0 i) as (a1 & -> & Hp1).
    { rewrite Hp. apply Hin. left. }
    { rewrite Hp. lia. }
    apply IH; [by rewrite Hp1|]. intros j Hj. apply Hin. by right. }
  apply H; [done|]. intros i Hi.
  apply list_elem_of_In, in_rev, list_elem_of_In, elem_of_seq in Hi.
  assert ((length a - 1 - 1) / 2 < length a)%nat; [|lia].
  apply Nat.Div0.div_lt_upper_bound; lia.
Qed.

Lemma H00_merge_loop_spec fuel : ∀ a,
  (1 ≤ length a ≤ fuel)%nat → Forall (λ t, strict t = true) a →
  ∃ root, H00.merge_loop fuel a = Some [root] ∧ strict root = true.
Proof.
  induction fuel as [|fuel IH]; intros a Hlen Hall; [lia|].
  cbn [H00.merge_loop]. destruct (decide (length a ≠ 1%nat)) as [Hne|Hone].
  - destruct (extractMin_spec a) as (l & a1 & -> & Hp1);
      [destruct a; [simpl in Hlen; lia|done]|].
    cbn [mbind option_bind].
    assert (length a = S (length a1)) as Hl1 by (by rewrite <- Hp1).
    destruct (extractMin_spec a1) as (r & a2 & -> & Hp2);
      [destruct a1; [simpl in *; lia|done]|].
    cbn [mbind option_bind]. cbv zeta.
    assert (length a1 = S (length a2)) as Hl2 by (by rewrite <- Hp2).
    destruct (insertMinHeap_spec a2 (newNode "$" (u32 (freq l + freq r)) (Some l) (Some r)))
      as (a3 & -> & Hp3).
    cbn [mbind option_bind].
    apply IH.
    + rewrite Hp3. simpl. lia.
    + rewrite Hp3. rewrite <- Hp1, <- Hp2 in Hall.
      apply list.Forall_cons in Hall as [Hsl Hall].
      apply list.Forall_cons in Hall as [Hsr Hall].
      constructor; [|done]. simpl. by rewrite Hsl, Hsr.
  - destruct a as [|root [|??]]; simpl in *; try lia.
    exists root. split; [done|]. by apply Forall_inv in Hall.
Qed.

Lemma H00_fill_spec freq n :
  (n ≤ length freq)%nat →
  foldl (λ acc i, a ← acc; f ← freq !! i;
                  if 0 <? f then Some (a ++ [H00.newNode (z2b (Z.of_nat i)) f])
                  else Some a)
        (Some []) (seq 0 n)
  = Some (omap (leaf_of freq) (seq 0 n)).
Proof.
  induction n as [|n IH]; intros Hn; [done|].
  rewrite seq_S, foldl_snoc, IH, omap_app by lia. rewrite Nat.add_0_l.
  cbn [mbind option_bind]. csimpl. unfold leaf_of.
  destruct (lookup_lt_is_Some_2 freq n ltac:(lia)) as [f ->].
  cbn [mbind option_bind]. destruct (0 <? f); [done|]. by rewrite app_nil_r.
Qed.

(** The tree builder of huffman-00 always returns a tree; the tree is
    strict unless exactly one symbol has a count, and then its root has a
    left child, the leaf of the symbol, and no right child. *)
Lemma H00_buildHuffmanTree_spec freq :
  (256 ≤ length freq)%nat →
  ∃ root,
    H00.buildHuffmanTree freq H00.MAX_CHARS = Some root ∧
    (length (symbols_of freq) ≠ 1%nat → strict root = true) ∧
    (∀ c, symbols_of freq = [c] →
          ∃ f, root = newNode "$" f (Some (newNode c f None None)) None).
Proof.
  intros Hlen. unfold H00.buildHuffmanTree.
  rewrite H00_fill_spec by (unfold H00.MAX_CHARS; lia).
  change (seq 0 H00.MAX_CHARS) with (seq 0 MAXN). rewrite <- leaf_nodes_unfold.
  cbn [mbind option_bind]. unfold symbols_of.
  pose proof (strict_leaf_nodes freq (seq 0 MAXN)) as Hstrict.
  rewrite <- leaf_nodes_unfold in Hstrict.
  destruct (leaf_nodes freq) as [|n1 [|n2 rest]] eqn:Hnodes.
  - eexists. split; [done|]. split; [done|]. by intros c.
  - eexists. split; [done|]. split; [done|]. intros c [= <-].
    assert (n1 ∈ leaf_nodes freq) as Hin by (rewrite Hnodes; left).
    rewrite leaf_nodes_unfold in Hin.
    apply list_elem_of_omap in Hin as (i & _ & Hi).
    apply leaf_of_Some in Hi as (f & _ & _ & ->). by exists f.
  - destruct (buildMinHeap_spec (n1 :: n2 :: rest)) as (a1 & -> & Hp1);
      [simpl; lia|].
    cbn [mbind option_bind].
    destruct (H00_merge_loop_spec (length a1) a1) as (root & -> & Hroot).
    { rewrite Hp1. simpl. lia. }
    { by rewrite Hp1. }
    cbn [mbind option_bind].
    destruct (extractMin_spec [root]) as (x & a' & -> & Hp); [done|].
    cbn [mbind option_bind]. exists x.
    assert (x = root) as ->.
    { apply Permutation_length in Hp as Hl. simpl in Hl.
      destruct a'; [|simpl in Hl; lia].
      apply Permutation_singleton_l in Hp. by injection Hp. }
    split; [done|]. split; [done|]. by intros c.
Qed.

End FirstVariant.

Section TreeShape.

(** ** C6: strict binary trees *)

(** C6, as stated, fails in huffman-00: for a table with one symbol its
    tree builder returns a root with a left child and no right child. *)
Lemma h00_single_symbol_root_has_one_child :
  H00.buildHuffmanTree aaa_freq H00.MAX_CHARS
    = Some (newNode "$" 3 (Some (newNode "a" 3 None None)) None) ∧
  strict (newNode "$" 3 (Some (newNode "a" 3 None None)) None) = false.
Proof. split; [vm_compute; reflexivity|reflexivity]. Qed.

(** C6, amended: for every frequency table, the tree [buildHuffmanTree]
    of huffman-01 returns is strict, and so is the tree of huffman-00
    unless exactly one symbol has a nonzero count; in that case the root
    of huffman-00 has the leaf of the symbol as its left child and no
    right child. *)
Theorem trees_are_strict_but_for_one_symbol_in_h00 (freq : list Z) :
  length freq = 256%nat →
  (∀ root, Enc.buildHuffmanTree freq = Some (Some root) → strict root = true) ∧
  ∃ root,
    H00.buildHuffmanTree freq H00.MAX_CHARS = Some root ∧
    (length (symbols_of freq) ≠ 1%nat → strict root = true) ∧
    (∀ c, symbols_of freq = [c] →
          ∃ f, root = newNode "$" f (Some (newNode c f None None)) None).
Proof.
  intros Hlen. split.
  - intros root Hroot.
    destruct (buildHuffmanTree_spec freq ltac:(lia)) as (r & Hr & Hspec).
    rewrite Hroot in Hr. injection Hr as <-. apply Hspec.
  - apply H00_buildHuffmanTree_spec. lia.
Qed.

Lemma trees_are_strict_but_for_one_symbol_in_h00_witness :
  length aaabbc_freq = 256%nat ∧
  (∀ root, Enc.buildHuffmanTree aaabbc_freq = Some (Some root) → strict root = true) ∧
  ∃ root,
    H00.buildHuffmanTree aaabbc_freq H00.MAX_CHARS = Some root ∧
    (length (symbols_of aaabbc_freq) ≠ 1%nat → strict root = true).
Proof.
  assert (length aaabbc_freq = 256%nat) as H by reflexivity.
  split; [exact H|].
  destruct (trees_are_strict_but_for_one_symbol_in_h00 aaabbc_freq H)
    as (H1 & root & H2 & H3 & _).
  split; [exact H1|]. exists root. split; [exact H2|exact H3].
Defined.

End TreeShape.

Section HeapOrder.

#[local] Arguments Nat.div : simpl never.
#[local] Arguments Nat.modulo : simpl never.
#[local] Arguments Nat.mul : simpl never.

(** ** The heap order of pqueue.h *)

Lemma hget_hset_eq h k x : (1 ≤ k ≤ length h)%nat → hget (hset h k x) k = Some x.
Proof.
  intros Hk. destruct k as [|j]; [lia|]. simpl.
  apply list_lookup_insert_eq. lia.
Qed.

Lemma hget_hset_ne h k j x : j ≠ k → hget (hset h k x) j = hget h j.
Proof.
  intros Hne. destruct k as [|k], j as [|j]; simpl; try done.
  apply list_lookup_insert_ne. congruence.
Qed.

Lemma hget_lt h k x : hget h k = Some x → (1 ≤ k ≤ length h)%nat.
Proof.
  destruct k as [|j]; simpl; [done|]. intros H%lookup_lt_Some. lia.
Qed.

Lemma half_cases (j k : nat) : (j / 2 = k → j = 2 * k ∨ j = 2 * k + 1)%nat.
Proof.
  intros <-. pose proof (Nat.div_mod_eq j 2).
  pose proof (Nat.mod_upper_bound j 2). lia.
Qed.

Lemma half_double (k : nat) : ((2 * k) / 2 = k)%nat.
Proof. rewrite Nat.mul_comm. apply Nat.div_mul. lia. Qed.

Lemma half_double_1 (k : nat) : ((2 * k + 1) / 2 = k)%nat.
Proof.
  rewrite Nat.mul_comm, Nat.div_add_l by lia. rewrite (Nat.div_small 1 2) by lia. lia.
Qed.

Lemma half_lt (k : nat) : (1 ≤ k → k / 2 < k)%nat.
Proof. intros. apply Nat.div_lt; lia. Qed.

(** The loop of [PQinsert] with the hole at [k]: the order holds but at
    the hole, the children of the hole are not below its parent, and they
    are not below the item. *)
Lemma percolate_up_heap fuel h k item h' k' :
  percolate_up fuel h k item = Some (h', k') →
  (1 ≤ k ≤ length h)%nat →
  heap_ok_but h k →
  (∀ j p c, (j / 2 = k)%nat → hget h (k / 2) = Some p → hget h j = Some c →
            freq p <= freq c) →
  (∀ j c, (j / 2 = k)%nat → hget h j = Some c → freq item <= freq c) →
  heap_ok (hset h' k' item).
Proof.
  revert h k. induction fuel as [|fuel IH]; intros h k Hrun Hk Hbut Hgrand Hitem;
    [discriminate|].
  cbn [percolate_up] in Hrun.
  assert (heap_ok_but h k →
          (∀ p, hget h (k / 2) = Some p → freq p <= freq item) →
          heap_ok (hset h k item)) as Hplace.
  { intros _ Hparent j p c Hp Hc.
    assert (k / 2 < k)%nat by (apply half_lt; lia).
    destruct (decide (j = k)) as [->|Hjk].
    - rewrite hget_hset_eq in Hc by done. injection Hc as <-.
      rewrite hget_hset_ne in Hp by lia. by apply Hparent.
    - rewrite hget_hset_ne in Hc by done.
      destruct (decide (j / 2 = k)%nat) as [Hjp|Hjp].
      + rewrite Hjp, hget_hset_eq in Hp by done. injection Hp as <-.
        by apply (Hitem j).
      + rewrite hget_hset_ne in Hp by done. by apply (Hbut j). }
  destruct (decide (1 < k)%nat) as [Hgt|Hle].
  - assert (1 ≤ k / 2 < k)%nat as Hhalf.
    { split; [apply Nat.div_le_lower_bound; lia|apply Nat.div_lt; lia]. }
    destruct (hget h (k / 2)) as [parent|] eqn:Hparent; [|discriminate].
    cbn [mbind option_bind] in Hrun.
    destruct (freq item <? freq parent) eqn:Hlt.
    + apply Z.ltb_lt in Hlt.
      apply (IH _ _ Hrun).
      * rewrite length_hset. lia.
      * intros j p c Hj Hp Hc.
        destruct (decide (j = k)) as [->|Hjk].
        -- rewrite hget_hset_eq in Hc by done. injection Hc as <-.
           rewrite hget_hset_ne in Hp by lia. rewrite Hparent in Hp. injection Hp as <-.
           lia.
        -- rewrite hget_hset_ne in Hc by done.
           destruct (decide (j / 2 = k)%nat) as [Hjp|Hjp].
           ++ rewrite Hjp, hget_hset_eq in Hp by done. injection Hp as <-.
              by apply (Hgrand j).
           ++ rewrite hget_hset_ne in Hp by done. by apply (Hbut j).
      * intros j p c Hj Hp Hc.
        assert (k / 2 / 2 < k / 2)%nat by (apply half_lt; lia).
        rewrite hget_hset_ne in Hp by lia.
        assert (freq p <= freq parent) as Hpp by (by apply (Hbut (k / 2)%nat); [lia|..]).
        destruct (decide (j = k)) as [->|Hjk].
        -- rewrite hget_hset_eq in Hc by done. by injection Hc as <-.
        -- rewrite hget_hset_ne in Hc by done.
           assert (freq parent <= freq c) by (apply (Hbut j); [done|by rewrite Hj|done]).
           lia.
      * intros j c Hj Hc.
        destruct (decide (j = k)) as [->|Hjk].
        -- rewrite hget_hset_eq in Hc by done. injection Hc as <-. lia.
        -- rewrite hget_hset_ne in Hc by done.
           assert (freq parent <= freq c) by (apply (Hbut j); [done|by rewrite Hj|done]).
           lia.
    + injection Hrun as <- <-. apply Hplace; [done|].
      intros p [= <-]. apply Z.ltb_ge in Hlt. lia.
  - injection Hrun as <- <-. apply Hplace; [done|].
    intros p Hp. apply hget_lt in Hp.
    assert (k = 1%nat) as -> by lia. change (1 / 2)%nat with 0%nat in Hp. lia.
Qed.

Lemma heap_ok_app_but h item :
  heap_ok h → heap_ok_but (h ++ [item]) (S (length h)).
Proof.
  intros Hok j p c Hj Hp Hc.
  pose proof (hget_lt _ _ _ Hc) as Hjl. pose proof (hget_lt _ _ _ Hp) as Hpl.
  rewrite length_app in Hjl, Hpl. simpl in Hjl, Hpl.
  apply (Hok j).
  - destruct (j / 2)%nat as [|q] eqn:Hq; [done|]. simpl in *.
    assert (S q < j)%nat by (rewrite <- Hq; apply half_lt; lia).
    rewrite lookup_app_l in Hp by lia. done.
  - destruct j as [|q]; [done|]. simpl in *.
    rewrite lookup_app_l in Hc by lia. done.
Qed.

Lemma PQinsert_heap pq item pq' :
  heap_ok (heap pq) → PQinsert pq item = Some pq' → heap_ok (heap pq').
Proof.
  intros Hok. unfold PQinsert. destruct (decide _) as [|Hn]; [by intros [= <-]|].
  unfold PQ_n.
  destruct (percolate_up _ _ _ _) as [[h k']|] eqn:Hrun; [|discriminate].
  cbn [mbind option_bind]. intros [= <-]. cbn [heap].
  apply (percolate_up_heap _ _ _ _ _ _ Hrun).
  - rewrite length_app. simpl. lia.
  - by apply heap_ok_app_but.
  - intros j p c Hj _ Hc. apply hget_lt in Hc. rewrite length_app in Hc. simpl in Hc.
    apply half_cases in Hj. lia.
  - intros j c Hj Hc. apply hget_lt in Hc. rewrite length_app in Hc. simpl in Hc.
    apply half_cases in Hj. lia.
Qed.

(** The loop of [PQdelmin] with the hole at [k]: the array, with the copy
    left in the hole, is in heap order and the parent of the hole is not
    above [last]. *)
Lemma percolate_down_heap fuel h n k last h' k' :
  percolate_down fuel h n k last = Some (h', k') →
  n = length h → (1 ≤ k ≤ n)%nat →
  heap_ok h →
  (∀ p, hget h (k / 2) = Some p → freq p <= freq last) →
  heap_ok (hset h' k' last).
Proof.
  revert h k. induction fuel as [|fuel IH]; intros h k Hrun Hn Hk Hok Hparent;
    [discriminate|].
  cbn [percolate_down] in Hrun.
  assert ((∀ j c, (j / 2 = k)%nat → hget h j = Some c → freq last <= freq c) →
          heap_ok (hset h k last)) as Hplace.
  { intros Hchildren j p c Hp Hc.
    assert (k / 2 < k)%nat by (apply half_lt; lia).
    destruct (decide (j = k)) as [->|Hjk].
    - rewrite hget_hset_eq in Hc by lia. injection Hc as <-.
      rewrite hget_hset_ne in Hp by lia. by apply Hparent.
    - rewrite hget_hset_ne in Hc by done.
      destruct (decide (j / 2 = k)%nat) as [Hjp|Hjp].
      + rewrite Hjp, hget_hset_eq in Hp by lia. injection Hp as <-.
        by apply (Hchildren j).
      + rewrite hget_hset_ne in Hp by done. by apply (Hok j). }
  destruct (decide (2 * k ≤ n)%nat) as [Hin|Hout].
  - destruct (hget h (2 * k)) as [hj|] eqn:Hj; [|discriminate].
    cbn [mbind option_bind] in Hrun.
    assert (∃ j' child, (j' / 2 = k)%nat ∧ hget h j' = Some child ∧
              (∀ j c, (j / 2 = k)%nat → hget h j = Some c → freq child <= freq c) ∧
              (if freq last <=? freq child then Some (h, k)
               else percolate_down fuel (hset h k child) n j' last) = Some (h', k'))
      as (j' & child & Hj' & Hchild & Hleast & Hrun').
    { destruct (decide (2 * k < n)%nat) as [Hlt|Hnlt].
      - destruct (hget h (2 * k + 1)) as [hj1|] eqn:Hj1; [|discriminate].
        cbn [mbind option_bind] in Hrun.
        destruct (freq hj1 <? freq hj) eqn:Hcmp.
        + apply Z.ltb_lt in Hcmp. rewrite Hj1 in Hrun. cbn [mbind option_bind] in Hrun.
          exists (2 * k + 1)%nat, hj1. split; [apply half_double_1|].
          split; [done|]. split; [|done].
          intros j c Hjk Hc. apply half_cases in Hjk as [->| ->]; simplify_eq; lia.
        + apply Z.ltb_ge in Hcmp. rewrite Hj in Hrun. cbn [mbind option_bind] in Hrun.
          exists (2 * k)%nat, hj. split; [apply half_double|].
          split; [done|]. split; [|done].
          intros j c Hjk Hc. apply half_cases in Hjk as [->| ->]; simplify_eq; lia.
      - cbn [mbind option_bind] in Hrun. rewrite Hj in Hrun.
        cbn [mbind option_bind] in Hrun.
        exists (2 * k)%nat, hj. split; [apply half_double|].
        split; [done|]. split; [|done].
        intros j c Hjk Hc. apply half_cases in Hjk as [->| ->]; [simplify_eq; lia|].
        apply hget_lt in Hc. lia. }
    clear Hrun. pose proof (hget_lt _ _ _ Hchild) as Hj'l.
    assert (k < j')%nat as Hkj' by (apply half_cases in Hj'; lia).
    destruct (freq last <=? freq child) eqn:Hcmp.
    + injection Hrun' as <- <-. apply Hplace.
      intros j c Hjk Hc. apply Z.leb_le in Hcmp.
      specialize (Hleast j c Hjk Hc). lia.
    + apply Z.leb_gt in Hcmp.
      apply (IH _ _ Hrun').
      * by rewrite length_hset.
      * lia.
      * intros j p c Hp Hc.
        assert (k / 2 < k)%nat by (apply half_lt; lia).
        destruct (decide (j = k)) as [->|Hjk].
        -- rewrite hget_hset_eq in Hc by lia. injection Hc as <-.
           rewrite hget_hset_ne in Hp by lia.
           destruct (hget h k) as [hk|] eqn:Hhk.
           ++ assert (freq p <= freq hk) by (by apply (Hok k)).
              assert (freq hk <= freq child) by (apply (Hok j'); [by rewrite Hj'|done]).
              lia.
           ++ destruct (hget_Some h k) as [? ?]; [lia|congruence].
        -- rewrite hget_hset_ne in Hc by done.
           destruct (decide (j / 2 = k)%nat) as [Hjp|Hjp].
           ++ rewrite Hjp, hget_hset_eq in Hp by lia. injection Hp as <-.
              by apply (Hleast j).
           ++ rewrite hget_hset_ne in Hp by done. by apply (Hok j).
      * intros p Hp. rewrite Hj', hget_hset_eq in Hp by lia. injection Hp as <-. lia.
  - injection Hrun as <- <-. apply Hplace.
    intros j c Hjk Hc. apply hget_lt in Hc. apply half_cases in Hjk. lia.
Qed.

Lemma heap_ok_take h n : heap_ok h → heap_ok (take n h).
Proof.
  intros Hok k p c Hp Hc. apply (Hok k).
  - destruct (k / 2)%nat; [done|]. simpl in *. by apply lookup_take_Some in Hp as [? _].
  - destruct k; [done|]. simpl in *. by apply lookup_take_Some in Hc as [? _].
Qed.

(** In a heap the first slot holds a least frequency. *)
Lemma heap_ok_root h m :
  heap_ok h → hget h 1 = Some m → ∀ x, x ∈ h → freq m <= freq x.
Proof.
  intros Hok Hm x Hx. apply list_elem_of_lookup in Hx as [i Hi].
  assert (hget h (S i) = Some x) as Hget by done. clear Hi.
  remember (S i) as k eqn:Hk. assert (1 ≤ k)%nat as Hk1 by lia. clear Hk i.
  revert x Hget. induction (lt_wf k) as [k _ IH]. intros x Hget.
  destruct (decide (k = 1%nat)) as [->|Hne]; [by simplify_eq|].
  assert (1 ≤ k / 2 < k)%nat as Hhalf.
  { split; [apply Nat.div_le_lower_bound; lia|apply Nat.div_lt; lia]. }
  pose proof (hget_lt _ _ _ Hget).
  destruct (hget_Some h (k / 2)) as [p Hp]; [lia|].
  assert (freq m <= freq p) by (apply (IH (k / 2)%nat); [lia|lia|done]).
  assert (freq p <= freq x) by (by apply (Hok k)).
  lia.
Qed.

Lemma PQdelmin_heap pq min pq' :
  heap_ok (heap pq) → PQdelmin pq = Some (min, pq') → heap_ok (heap pq').
Proof.
  intros Hok. unfold PQdelmin, PQ_n.
  destruct (length (heap pq)) as [|n'] eqn:Hlen; [by intros [= _ <-]|].
  destruct (hget (heap pq) 1) as [m|]; [|discriminate]. cbn [mbind option_bind].
  destruct (hget (heap pq) (S n')) as [last|]; [|discriminate].
  cbn [mbind option_bind].
  destruct n' as [|n''].
  - intros [= _ <-]. cbn [heap]. by apply heap_ok_take.
  - destruct (percolate_down _ _ _ _ _) as [[h' k]|] eqn:Hrun; [|discriminate].
    cbn [mbind option_bind]. intros [= _ <-]. cbn [heap].
    apply (percolate_down_heap _ _ _ _ _ _ _ Hrun).
    + rewrite length_take. lia.
    + lia.
    + by apply heap_ok_take.
    + intros p Hp. change (1 / 2)%nat with 0%nat in Hp. done.
Qed.

Lemma heap_ok_nil : heap_ok [].
Proof. intros k p c Hp _. by destruct (k / 2)%nat. Qed.

Lemma PQdelmin_least pq :
  heap_ok (heap pq) → heap pq ≠ [] →
  ∃ min pq', PQdelmin pq = Some (Some min, pq') ∧ maxN pq' = maxN pq ∧
    min :: heap pq' ≡ₚ heap pq ∧ heap_ok (heap pq') ∧
    ∀ x, x ∈ heap pq → freq min <= freq x.
Proof.
  intros Hok Hne.
  destruct (PQdelmin_spec pq Hne) as (min & pq' & Hdel & Hmax & Hperm).
  exists min, pq'. split; [done|]. split; [done|]. split; [done|].
  split; [by eapply PQdelmin_heap|].
  apply heap_ok_root; [done|].
  unfold PQdelmin, PQ_n in Hdel.
  destruct (heap pq) as [|m rest]; [done|]. cbn [length] in Hdel. cbn iota in Hdel.
  change (hget (m :: rest) 1) with (Some m) in *.
  cbn [mbind option_bind] in Hdel.
  destruct (hget (m :: rest) (S (length rest))); [|discriminate].
  cbn [mbind option_bind] in Hdel.
  destruct (length rest).
  - by injection Hdel as -> _.
  - destruct (percolate_down _ _ _ _ _) as [[? ?]|]; [|discriminate].
    cbn [mbind option_bind] in Hdel. by injection Hdel as -> _.
Qed.

Lemma heap_ok_cab : heap_ok (heap pq_cab).
Proof.
  intros k p c Hp Hc.
  destruct k as [|[|[|[|k]]]]; try discriminate;
    vm_compute in Hp, Hc; simplify_eq; vm_compute; discriminate.
Qed.

(** X1: [PQinsert] keeps the heap in order.  On a queue with room the new
    queue holds the item and the nodes it held; on a full queue
    ([n >= maxN]) the call changes nothing and the item is dropped. *)
Theorem PQinsert_keeps_heap_order (pq : PQ) (item : Node) :
  heap_ok (heap pq) →
  ∃ pq', PQinsert pq item = Some pq' ∧ heap_ok (heap pq') ∧ maxN pq' = maxN pq ∧
         if decide (PQ_n pq < maxN pq)%nat then heap pq' ≡ₚ item :: heap pq
         else pq' = pq.
Proof.
  intros Hok. destruct (decide (PQ_n pq < maxN pq)%nat) as [Hroom|Hfull].
  - destruct (PQinsert_spec pq item Hroom) as (pq' & Hins & Hmax & Hperm).
    exists pq'. split; [done|]. split; [by eapply PQinsert_heap|]. done.
  - exists pq. unfold PQinsert. destruct (decide _) as [_|]; [done|lia].
Qed.

Lemma PQinsert_keeps_heap_order_witness :
  heap_ok (heap (PQinit 1)) ∧
  ∃ pq1 pq2,
    PQinsert (PQinit 1) (newNode "a" 5 None None) = Some pq1 ∧
    heap pq1 ≡ₚ [newNode "a" 5 None None] ∧
    PQinsert pq1 (newNode "b" 3 None None) = Some pq2 ∧ pq2 = pq1.
Proof.
  assert (heap_ok (heap (PQinit 1))) as H0 by exact heap_ok_nil.
  split; [exact H0|].
  destruct (PQinsert_keeps_heap_order (PQinit 1) (newNode "a" 5 None None) H0)
    as (pq1 & H1 & Hok1 & Hmax1 & Hc1).
  destruct (PQinsert_keeps_heap_order pq1 (newNode "b" 3 None None) Hok1)
    as (pq2 & H2 & _ & _ & Hc2).
  exists pq1, pq2.
  assert (PQinsert (PQinit 1) (newNode "a" 5 None None)
          = Some (mkPQ [newNode "a" 5 None None] 1)) as Hval by reflexivity.
  rewrite Hval in H1. injection H1 as <-.
  split; [exact Hval|]. split; [reflexivity|]. split; [exact H2|]. exact Hc2.
Defined.

(** X2: [PQdelmin] on an empty queue returns [NULL] and leaves the queue
    as it is; on a queue in heap order it returns a node of least
    frequency, removes exactly that node and leaves the queue in heap
    order. *)
Theorem PQdelmin_returns_a_least_node (pq : PQ) :
  heap_ok (heap pq) →
  (heap pq = [] → PQdelmin pq = Some (None, pq)) ∧
  (heap pq ≠ [] →
   ∃ min pq', PQdelmin pq = Some (Some min, pq') ∧ maxN pq' = maxN pq ∧
     min :: heap pq' ≡ₚ heap pq ∧ heap_ok (heap pq') ∧
     ∀ x, x ∈ heap pq → freq min <= freq x).
Proof.
  intros Hok. split.
  - intros Hnil. unfold PQdelmin, PQ_n. by rewrite Hnil.
  - by apply PQdelmin_least.
Qed.

Lemma PQdelmin_returns_a_least_node_witness :
  heap_ok (heap pq_cab) ∧ heap pq_cab ≠ [] ∧
  ∃ min pq', PQdelmin pq_cab = Some (Some min, pq') ∧
    min :: heap pq' ≡ₚ heap pq_cab ∧ ∀ x, x ∈ heap pq_cab → freq min <= freq x.
Proof.
  assert (heap pq_cab ≠ []) as Hne by discriminate.
  split; [exact heap_ok_cab|]. split; [exact Hne|].
  destruct (proj2 (PQdelmin_returns_a_least_node pq_cab heap_ok_cab) Hne)
    as (min & pq' & H1 & _ & H2 & _ & H3).
  exists min, pq'. split; [exact H1|]. split; [exact H2|exact H3].
Defined.

(** X3: two calls of [PQdelmin] in a row, as in the merge loop of
    [buildHuffmanTree], return the two nodes of least frequency of a
    queue in heap order, the smaller first, and leave the others. *)
Theorem PQdelmin_twice_takes_the_two_least (pq : PQ) :
  heap_ok (heap pq) → (2 ≤ PQ_n pq)%nat →
  ∃ l r pq1 pq2,
    PQdelmin pq = Some (Some l, pq1) ∧ PQdelmin pq1 = Some (Some r, pq2) ∧
    l :: r :: heap pq2 ≡ₚ heap pq ∧ heap_ok (heap pq2) ∧
    freq l <= freq r ∧ ∀ x, x ∈ heap pq2 → freq r <= freq x.
Proof.
  intros Hok Hn. unfold PQ_n in Hn.
  destruct (PQdelmin_least pq Hok) as (l & pq1 & H1 & _ & Hp1 & Hok1 & Hmin1).
  { intros Hnil. rewrite Hnil in Hn. simpl in Hn. lia. }
  destruct (PQdelmin_least pq1 Hok1) as (r & pq2 & H2 & _ & Hp2 & Hok2 & Hmin2).
  { intros Hnil. apply Permutation_length in Hp1. rewrite Hnil in Hp1.
    simpl in Hp1. lia. }
  exists l, r, pq1, pq2. split; [done|]. split; [done|].
  split; [by rewrite Hp2|]. split; [done|]. split.
  - apply Hmin1. rewrite <- Hp1, <- Hp2. right. left.
  - intros x Hx. apply Hmin2. rewrite <- Hp2. by right.
Qed.

Lemma PQdelmin_twice_takes_the_two_least_witness :
  heap_ok (heap pq_cab) ∧ (2 ≤ PQ_n pq_cab)%nat ∧
  ∃ l r pq1 pq2,
    PQdelmin pq_cab = Some (Some l, pq1) ∧ PQdelmin pq1 = Some (Some r, pq2) ∧
    freq l <= freq r.
Proof.
  assert (2 ≤ PQ_n pq_cab)%nat as Hn by (vm_compute; lia).
  split; [exact heap_ok_cab|]. split; [exact Hn|].
  destruct (PQdelmin_twice_takes_the_two_least pq_cab heap_ok_cab Hn)
    as (l & r & pq1 & pq2 & H1 & H2 & _ & _ & Hle & _).
  exists l, r, pq1, pq2. split; [exact H1|]. split; [exact H2|exact Hle].
Defined.

End HeapOrder.

Section BitStreams.

#[local] Arguments Nat.div : simpl never.
#[local] Arguments Nat.modulo : simpl never.
#[local] Arguments Nat.mul : simpl never.
#[local] Arguments seq : simpl never.
#[local] Arguments Z.mul : simpl never.
#[local] Arguments Z.add : simpl never.
#[local] Arguments Z.sub : simpl never.
#[local] Arguments Z.pow : simpl never.
#[local] Arguments Z.modulo : simpl never.
#[local] Arguments Z.div : simpl never.
#[local] Arguments Z.shiftl : simpl never.
#[local] Arguments Z.shiftr : simpl never.
#[local] Arguments Z.land : simpl never.
#[local] Arguments Z.lor : simpl never.
#[local] Arguments Z.testbit : simpl never.
#[local] Arguments Z.of_nat : simpl never.
#[local] Arguments Z.to_nat : simpl never.
#[local] Arguments bits_of_byte : simpl never.
#[local] Arguments bits_of_bytes : simpl never.
#[local] Arguments high_bits : simpl never.

(** ** [bitBufferWriteBits] with any count *)

(** One iteration of the loop writes bit [i] of [bits]. *)
Lemma write_bit_testbit bits buf i :
  (i < 32)%nat →
  Enc.write_bit bits (Some buf) i
  = Enc.bitBufferWriteBits buf (Z.b2z (Z.testbit bits (Z.of_nat i))) 1.
Proof.
  intros Hi. unfold Enc.bitBufferWriteBits.
  change (rev (seq 0 1)) with [0%nat]. cbn [foldl].
  unfold Enc.write_bit. cbn [mbind option_bind].
  destruct (decide (32 ≤ i)%nat) as [|_]; [lia|].
  destruct (decide (32 ≤ 0)%nat) as [|_]; [lia|].
  rewrite land_shiftr_1 by lia.
  change (Z.of_nat 0) with 0. rewrite Z.shiftr_0_r.
  assert (Z.land (Z.b2z (Z.testbit bits (Z.of_nat i))) 1
          = Z.b2z (Z.testbit bits (Z.of_nat i))) as -> by (by destruct (Z.testbit _ _)).
  reflexivity.
Qed.

Lemma write_bits_fold bits idxs : ∀ buf,
  buffer_ok buf → Forall (λ i, i < 32)%nat idxs →
  ∃ buf', foldl (Enc.write_bit bits) (Some buf) idxs = Some buf' ∧
          buffer_ok buf' ∧
          written buf' = written buf ++ ((λ i, Z.testbit bits (Z.of_nat i)) <$> idxs).
Proof.
  induction idxs as [|i idxs IH]; intros buf Hok Hall.
  - exists buf. cbn [foldl fmap list_fmap]. by rewrite app_nil_r.
  - apply list.Forall_cons in Hall as [Hi Hall]. cbn [foldl].
    rewrite write_bit_testbit by done.
    destruct (bitBufferWriteBits_one buf (Z.testbit bits (Z.of_nat i)) Hok)
      as (buf1 & -> & Hok1 & Hw1).
    destruct (IH buf1 Hok1 Hall) as (buf' & -> & Hok' & Hw').
    exists buf'. split; [done|]. split; [done|].
    rewrite Hw', Hw1, <- (assoc_L (++)). reflexivity.
Qed.

Lemma low_bits_rev_seq bits count :
  (λ i, Z.testbit bits (Z.of_nat i)) <$> rev (seq 0 count) = low_bits bits count.
Proof.
  induction count as [|n IH]; [done|].
  rewrite seq_S, rev_app_distr. cbn [rev app fmap list_fmap low_bits].
  change (list_fmap nat bool ?f ?l) with (f <$> l). by rewrite IH.
Qed.

Lemma bitBufferWriteBits_spec buf bits count :
  buffer_ok buf → (count ≤ 32)%nat →
  ∃ buf', Enc.bitBufferWriteBits buf bits count = Some buf' ∧ buffer_ok buf' ∧
          written buf' = written buf ++ low_bits bits count.
Proof.
  intros Hok Hc. unfold Enc.bitBufferWriteBits.
  destruct (write_bits_fold bits (rev (seq 0 count)) buf Hok) as (buf' & H & Hok' & Hw).
  { apply list.Forall_forall. intros i Hi. apply list_elem_of_In, in_rev, in_seq in Hi. lia. }
  exists buf'. split; [done|]. split; [done|]. by rewrite Hw, low_bits_rev_seq.
Qed.

(** X4: [bitBufferWriteBits] with a count of at most 32 appends bits
    [count - 1 .. 0] of its argument, the most significant first, and
    after [bitBufferFlush] the bytes of the buffer spell all the bits
    written followed by fewer than 8 zero bits, none when the bits fill
    whole bytes. *)
Theorem bitBuffer_bytes_spell_the_bits (buf : Enc.BitBuffer) (bits : Z) (count : nat) :
  buffer_ok buf → (count ≤ 32)%nat →
  ∃ buf' padding,
    Enc.bitBufferWriteBits buf bits count = Some buf' ∧ buffer_ok buf' ∧
    written buf' = written buf ++ low_bits bits count ∧
    bits_of_bytes (Enc.data (Enc.bitBufferFlush buf'))
      = written buf' ++ replicate padding false ∧
    (padding < 8)%nat ∧ ((length (written buf') + padding) `mod` 8 = 0)%nat ∧
    (Enc.bits_used buf' = 0 → padding = 0%nat).
Proof.
  intros Hok Hc.
  destruct (bitBufferWriteBits_spec buf bits count Hok Hc) as (buf' & Hw & Hok' & Hbits).
  destruct (bitBufferFlush_spec buf' Hok') as (Hflush & _ & Hpad).
  exists buf', (Z.to_nat (padding_of buf')).
  split; [done|]. split; [done|]. split; [done|]. split; [done|].
  split; [lia|]. split.
  - rewrite <- (length_replicate (Z.to_nat (padding_of buf')) false), <- length_app,
      <- Hflush, length_bits_of_bytes.
    rewrite Nat.mul_comm. apply Nat.Div0.mod_mul.
  - intros Hu. unfold padding_of. rewrite Hu. reflexivity.
Qed.

Lemma bitBuffer_bytes_spell_the_bits_witness :
  buffer_ok Enc.bitBufferInit ∧ (11 ≤ 32)%nat ∧
  ∃ buf' padding,
    Enc.bitBufferWriteBits Enc.bitBufferInit 0x5A5 11 = Some buf' ∧
    bits_of_bytes (Enc.data (Enc.bitBufferFlush buf'))
      = written buf' ++ replicate padding false ∧ (padding < 8)%nat.
Proof.
  assert (11 ≤ 32)%nat as H by lia.
  split; [exact buffer_ok_init|]. split; [exact H|].
  destruct (bitBuffer_bytes_spell_the_bits Enc.bitBufferInit 0x5A5 11 buffer_ok_init H)
    as (buf' & padding & H1 & _ & _ & H2 & H3 & _).
  exists buf', padding. split; [exact H1|]. split; [exact H2|exact H3].
Defined.

(** X5: a reader made by [bitReaderInit] has all the bits of the data
    ahead of it; [bitReaderReadBit] returns the next of them, the most
    significant bit of each byte first, and once none is left it returns
    -1 and leaves the reader as it is, so that every later call returns
    -1 as well. *)
Theorem bitReaderReadBit_reads_in_order (r : Dec.BitReader) :
  reader_ok r →
  (∀ d, reader_ok (Dec.bitReaderInit d) ∧
        remaining (Dec.bitReaderInit d) = bits_of_bytes d) ∧
  match remaining r with
  | [] => Dec.bitReaderReadBit r = (-1, r)
  | b :: rest =>
      ∃ r', Dec.bitReaderReadBit r = (Z.b2z b, r') ∧ reader_ok r' ∧
            remaining r' = rest ∧ Dec.data r' = Dec.data r
  end.
Proof.
  intros Hok. split.
  - intros d. split; [apply reader_ok_init|apply remaining_init].
  - pose proof (bitReaderReadBit_spec r Hok) as H.
    destruct (remaining r); [apply H|exact H].
Qed.

Lemma bitReaderReadBit_reads_in_order_witness :
  reader_ok (Dec.bitReaderInit ["@"%byte]) ∧
  ∃ r', Dec.bitReaderReadBit (Dec.bitReaderInit ["@"%byte]) = (0, r') ∧
        remaining r' = [true; false; false; false; false; false; false].
Proof.
  split; [exact (reader_ok_init ["@"%byte])|].
  pose proof (proj2 (bitReaderReadBit_reads_in_order (Dec.bitReaderInit ["@"%byte])
                       (reader_ok_init ["@"%byte]))) as H.
  change (remaining (Dec.bitReaderInit ["@"%byte]))
    with [false; true; false; false; false; false; false; false] in H.
  destruct H as (r' & H1 & _ & H2 & _).
  exists r'. split; [exact H1|exact H2].
Defined.

End BitStreams.

Section MoreProperties.

#[local] Arguments Nat.div : simpl never.
#[local] Arguments Nat.modulo : simpl never.
#[local] Arguments Nat.mul : simpl never.
#[local] Arguments seq : simpl never.
#[local] Arguments replicate : simpl never.
#[local] Arguments Z.mul : simpl never.
#[local] Arguments Z.add : simpl never.
#[local] Arguments Z.sub : simpl never.
#[local] Arguments Z.pow : simpl never.
#[local] Arguments Z.modulo : simpl never.
#[local] Arguments Z.div : simpl never.
#[local] Arguments Z.shiftl : simpl never.
#[local] Arguments Z.shiftr : simpl never.
#[local] Arguments Z.land : simpl never.
#[local] Arguments Z.lor : simpl never.
#[local] Arguments Z.lxor : simpl never.
#[local] Arguments Z.testbit : simpl never.
#[local] Arguments Z.of_nat : simpl never.
#[local] Arguments Z.to_nat : simpl never.
#[local] Arguments bits_of_byte : simpl never.
#[local] Arguments bits_of_bytes : simpl never.
#[local] Arguments high_bits : simpl never.

(** ** The header, written and read back *)

Lemma readHeader_writeHeader h rest :
  header_ok h →
  Dec.readHeader (Enc.writeHeader h ++ rest)
  = if negb (magic h =? MAGIC_NUMBER) then inl NotHuffmanFile
    else if 1 <? version h then inl UnsupportedVersion
    else inr h.
Proof.
  intros Hh. unfold Dec.readHeader, sizeof_HuffHeader.
  pose proof (length_writeHeader h) as Hl.
  destruct (decide _) as [Hs|_]; [rewrite length_app in Hs; lia|].
  rewrite (take_app_length' (Enc.writeHeader h)) by done.
  by rewrite parseHeader_writeHeader.
Qed.

(** X6: a header whose fields fit their types is written as 30 bytes,
    and [readHeader] on these bytes, whatever follows them, returns the
    same header when its magic number is the constant and its version is
    at most 1, and otherwise rejects it: the magic number is checked
    first. *)
Theorem header_is_read_back (h : HuffHeader) (rest : list byte) :
  header_ok h →
  length (Enc.writeHeader h) = 30%nat ∧
  Dec.parseHeader (Enc.writeHeader h) = h ∧
  Dec.readHeader (Enc.writeHeader h ++ rest)
  = if negb (magic h =? MAGIC_NUMBER) then inl NotHuffmanFile
    else if 1 <? version h then inl UnsupportedVersion
    else inr h.
Proof.
  intros Hh. split; [apply length_writeHeader|].
  split; [by apply parseHeader_writeHeader|by apply readHeader_writeHeader].
Qed.

Lemma header_is_read_back_witness :
  header_ok aaa_header ∧
  Dec.readHeader (Enc.writeHeader aaa_header ++ ["a"%byte]) = inr aaa_header.
Proof.
  assert (header_ok aaa_header) as H by (vm_compute; repeat split; discriminate).
  split; [exact H|].
  exact (proj2 (proj2 (header_is_read_back aaa_header ["a"%byte] H))).
Defined.

(** ** [readFreqTable] on any bytes *)

Lemma read_entries_rest n : ∀ bs t,
  match Dec.read_entries n bs t with
  | None => (length bs < 5 * n)%nat
  | Some (t', rest) => (5 * n ≤ length bs)%nat ∧ rest = drop (5 * n) bs
  end.
Proof.
  induction n as [|n IH]; intros bs t.
  - cbn [Dec.read_entries]. split; [lia|]. by rewrite Nat.mul_0_r.
  - cbn [Dec.read_entries]. unfold sizeof_FreqEntry.
    destruct (decide _) as [Hs|Hs]; [lia|].
    specialize (IH (drop 5 bs) (<[bidx (default x00 (head bs)) :=
                                   le_value (take 4 (drop 1 bs))]> t)).
    destruct (Dec.read_entries n _ _) as [[t' rest]|].
    + destruct IH as [Hl ->]. rewrite length_drop in Hl. split; [lia|].
      rewrite drop_drop. f_equal. lia.
    + rewrite length_drop in IH. lia.
Qed.

Lemma read_entries_range n : ∀ bs t t' rest,
  Forall (λ x, 0 <= x < 2 ^ 32) t →
  Dec.read_entries n bs t = Some (t', rest) →
  Forall (λ x, 0 <= x < 2 ^ 32) t'.
Proof.
  induction n as [|n IH]; intros bs t t' rest Ht H.
  - cbn [Dec.read_entries] in H. by simplify_eq.
  - cbn [Dec.read_entries] in H. destruct (decide _); [done|].
    eapply IH; [|exact H]. apply Forall_insert; [done|].
    pose proof (le_value_range (take 4 (drop 1 bs))) as Hr.
    assert (2 ^ (8 * Z.of_nat (length (take 4 (drop 1 bs)))) <= 2 ^ 32).
    { apply Z.pow_le_mono_r; [lia|]. rewrite length_take. lia. }
    lia.
Qed.

(** X7: [readFreqTable] fails exactly when fewer than [5 * tree_size]
    bytes are left; otherwise it consumes exactly that many bytes and
    returns a table of 256 counts of 32 bits. *)
Theorem readFreqTable_fails_only_on_short_input (bs : list byte) (tree_size : Z) :
  0 <= tree_size →
  match Dec.readFreqTable bs tree_size with
  | None => Z.of_nat (length bs) < 5 * tree_size
  | Some (freq, rest) =>
      5 * tree_size <= Z.of_nat (length bs) ∧
      rest = drop (5 * Z.to_nat tree_size) bs ∧ freq_table_ok freq
  end.
Proof.
  intros Hn. unfold Dec.readFreqTable.
  pose proof (read_entries_rest (Z.to_nat tree_size) bs (replicate MAXN 0)) as Hrest.
  destruct (Dec.read_entries _ _ _) as [[freq rest]|] eqn:Hread; [|lia].
  destruct Hrest as [Hl ->]. split; [lia|]. split; [done|]. split.
  - apply read_entries_length in Hread. by rewrite length_replicate in Hread.
  - eapply read_entries_range; [|exact Hread]. apply Forall_replicate. lia.
Qed.

Lemma readFreqTable_fails_only_on_short_input_witness :
  0 <= 1 ∧
  Dec.readFreqTable ["a"; "003"; "000"; "000"]%byte 1 = None ∧
  ∃ freq, Dec.readFreqTable ["a"; "003"; "000"; "000"; "000"; "x"]%byte 1
          = Some (freq, ["x"%byte]).
Proof.
  assert (0 <= 1) as H by lia. split; [exact H|].
  pose proof (readFreqTable_fails_only_on_short_input
                ["a"; "003"; "000"; "000"]%byte 1 H) as H1.
  pose proof (readFreqTable_fails_only_on_short_input
                ["a"; "003"; "000"; "000"; "000"; "x"]%byte 1 H) as H2.
  split.
  - clear H2.
    destruct (Dec.readFreqTable ["a"; "003"; "000"; "000"]%byte 1) as [[f r]|];
      [|reflexivity].
    exfalso. destruct H1 as [H1 _]. vm_compute in H1. apply H1. reflexivity.
  - clear H1.
    destruct (Dec.readFreqTable ["a"; "003"; "000"; "000"; "000"; "x"]%byte 1)
      as [[f r]|].
    + destruct H2 as (_ & Hr & _). exists f. rewrite Hr. reflexivity.
    + exfalso. vm_compute in H2. discriminate H2.
Defined.


(** ** [main] of dec.c on any file *)

(** X8: bytes that follow the payload are never read: a file on which
    [main] ends in any way but for want of bytes ("File too small",
    "Could not read frequency table", "Could not read compressed data")
    gives the same result with any bytes appended, on the same
    machine. *)
Theorem trailing_bytes_are_ignored
    (mem : Dec.Memory) (verify : bool) (file extra : list byte) (r : exit) :
  Dec.main mem verify file = Some r →
  r ≠ Failure FileTooSmall → r ≠ Failure FreqTableReadFailed →
  r ≠ Failure CompressedReadFailed →
  Dec.main mem verify (file ++ extra) = Some r.
Proof.
  unfold Dec.main, sizeof_HuffHeader. intros H H1 H2 H3.
  destruct (decide (length file ≤ 30)%nat) as [|Hlen]; [congruence|].
  destruct (decide _) as [Hs|_]; [rewrite length_app in Hs; lia|].
  assert (Dec.readHeader (file ++ extra) = Dec.readHeader file) as ->.
  { unfold Dec.readHeader, sizeof_HuffHeader.
    destruct (decide _) as [Hs|_]; [rewrite length_app in Hs; lia|].
    destruct (decide _) as [Hs|_]; [lia|].
    by rewrite take_app_le by lia. }
  destruct (Dec.readHeader file) as [m|header]; [done|].
  rewrite drop_app_le by lia.
  destruct (Dec.readFreqTable (drop 30 file) (tree_size header))
    as [[freq rest]|] eqn:Hread; [|congruence].
  unfold Dec.readFreqTable in *.
  rewrite (read_entries_app _ _ _ _ _ extra Hread).
  destruct (Dec.compressed_data_malloc mem (compressed_size header)); [|done].
  destruct (Z.of_nat (length rest) <? compressed_size header) eqn:Hc; [congruence|].
  apply Z.ltb_ge in Hc.
  assert ((Z.of_nat (length (rest ++ extra)) <? compressed_size header) = false) as ->.
  { apply Z.ltb_ge. rewrite length_app. lia. }
  rewrite take_app_le by lia. exact H.
Qed.

Lemma trailing_bytes_are_ignored_witness :
  Dec.main one_tebibyte true aaabbc_file = Some (Success aaabbc) ∧
  Dec.main one_tebibyte true (aaabbc_file ++ ["x"; "y"; "z"]%byte)
    = Some (Success aaabbc).
Proof.
  assert (Dec.main one_tebibyte true aaabbc_file = Some (Success aaabbc)) as H
    by (vm_compute; reflexivity).
  split; [exact H|].
  apply (trailing_bytes_are_ignored one_tebibyte true aaabbc_file
           ["x"; "y"; "z"]%byte (Success aaabbc) H); discriminate.
Defined.

(** X9: checksum verification is the only difference between the two
    modes of [main]: with verification, a file that decodes to [out]
    under [--no-verify] gives [out] when the CRC-32 of [out] is the
    checksum of the header and "Checksum verification failed!"
    otherwise; every other file ends the same way in both modes, on the
    same machine. *)
Theorem verification_only_checks_the_checksum (mem : Dec.Memory) (file : list byte) :
  Dec.main mem true file
  = match Dec.main mem false file with
    | Some (Success out) =>
        if crc32 out =? checksum (Dec.parseHeader (take sizeof_HuffHeader file))
        then Some (Success out) else Some (Failure ChecksumMismatch)
    | r => r
    end.
Proof.
  unfold Dec.main.
  destruct (decide _) as [|Hlen]; [done|].
  unfold Dec.readHeader.
  destruct (decide _) as [|_]; [done|].
  remember (Dec.parseHeader (take sizeof_HuffHeader file)) as h eqn:Hh. clear Hh.
  destruct (negb _); [done|]. destruct (1 <? _); [done|].
  destruct (Dec.readFreqTable _ _) as [[freq rest]|]; [|done].
  destruct (Dec.compressed_data_malloc mem _); [|done].
  destruct (_ <? _); [done|].
  unfold Dec.decode_payload.
  destruct (Dec.buildHuffmanTree freq) as [[root|]|]; [|done..].
  cbn [mbind option_bind].
  destruct (Dec.decompress _ _ _ _ _) as [[out|]|]; [|done..].
  cbn [mbind option_bind andb].
  by destruct (crc32 out =? checksum h).
Qed.

(** ** [decompress] on any payload *)

Lemma bitReaderReadBit_pos r :
  (Dec.pos r ≤ length (Dec.data r))%nat →
  (Dec.pos (Dec.bitReaderReadBit r).2 ≤ length (Dec.data (Dec.bitReaderReadBit r).2))%nat.
Proof.
  intros Hp. unfold Dec.bitReaderReadBit.
  destruct (Dec.bits_available r =? 0); [|done].
  destruct (Dec.data r !! Dec.pos r) eqn:Hl; [|done].
  apply lookup_lt_Some in Hl. cbn [snd Dec.pos Dec.data]. lia.
Qed.

Lemma strict_children c f l r :
  strict (newNode c f l r) = true → is_leaf (newNode c f l r) = false →
  ∃ ln rn, l = Some ln ∧ r = Some rn ∧ strict ln = true ∧ strict rn = true.
Proof.
  destruct l as [ln|], r as [rn|]; try done. cbn [strict].
  intros [? ?]%andb_true_iff _. by exists ln, rn.
Qed.

Lemma leaves_leaf t : is_leaf t = true → leaves t = [ch t].
Proof. by destruct t as [c f [l|] [r|]]. Qed.

Section DecompressAny.
Variables (root : Node) (original_size padding_bits : Z).
Hypothesis Hpad : 0 <= padding_bits.

(** On a strict tree the loop of [decompress] never returns [NULL]: no
    child is missing, and when the data ends the test on the padding
    always succeeds. *)
Lemma decompress_loop_strict fuel : ∀ reader current output,
  reader_ok reader → (Dec.pos reader ≤ length (Dec.data reader))%nat →
  strict current = true → is_leaf current = false →
  (∀ x, x ∈ leaves current → x ∈ leaves root) →
  strict root = true → is_leaf root = false →
  Forall (λ x, x ∈ leaves root) output →
  Z.of_nat (length output) <= original_size →
  (length (remaining reader) < fuel)%nat →
  ∃ out,
    Dec.decompress_loop fuel reader root current output original_size padding_bits
      = Some (Some out) ∧
    Forall (λ x, x ∈ leaves root) out ∧ Z.of_nat (length out) <= original_size.
Proof.
  induction fuel as [|fuel IH];
    intros reader current output Hok Hpos Hs Hinner Hsub Hsr Hir Hout Hlen Hfuel; [lia|].
  cbn [Dec.decompress_loop].
  destruct (Z.of_nat (length output) <? original_size) eqn:Hlt.
  2: { exists output. split; [done|]. split; [done|]. done. }
  apply Z.ltb_lt in Hlt.
  pose proof (bitReaderReadBit_spec reader Hok) as Hread.
  pose proof (bitReaderReadBit_pos reader Hpos) as Hpos'.
  destruct (remaining reader) as [|b rest] eqn:Hrem.
  - destruct Hread as (-> & Ha & Hend).
    change (-1 <? 0) with true. cbv iota.
    rewrite Ha.
    assert (Dec.pos reader = length (Dec.data reader)) as -> by lia.
    replace (u64 ((Z.of_nat (length (Dec.data reader)) - 1) * 8 + (8 - 0)))
      with (u64 (Z.of_nat (length (Dec.data reader)) * 8)) by (f_equal; lia).
    rewrite Z.sub_diag. change (u64 0) with 0.
    rewrite (proj2 (Z.leb_le 0 padding_bits)) by done.
    exists output. split; [done|]. split; [done|]. lia.
  - destruct Hread as (reader1 & Hbit & Hok1 & Hrem1 & Hdata1).
    rewrite Hbit in Hpos' |- *. cbn [snd] in Hpos'.
    assert ((Z.b2z b <? 0) = false) as -> by (by destruct b).
    destruct current as [c f l r].
    destruct (strict_children c f l r Hs Hinner) as (ln & rn & -> & -> & Hsl & Hsrn).
    cbn [left right].
    assert (∃ child, (if Z.b2z b =? 0 then Some ln else Some rn) = Some child ∧
                     strict child = true ∧
                     ∀ x, x ∈ leaves child → x ∈ leaves root)
      as (child & -> & Hsc & Hsubc).
    { cbn [leaves] in Hsub.
      destruct b; [exists rn|exists ln]; (split; [done|]); (split; [done|]);
        intros x Hx; apply Hsub; apply elem_of_app; [by right|by left]. }
    cbn [length] in Hfuel.
    destruct (is_leaf child) eqn:Hleaf.
    + rewrite (proj2 (Z.leb_gt _ _) Hlt).
      destruct (IH reader1 root (output ++ [ch child])) as (out & -> & Ho & Hl);
        try done.
      * apply Forall_app. split; [done|]. apply list.Forall_cons. split; [|done].
        apply Hsubc. rewrite leaves_leaf by done. left.
      * rewrite length_app. simpl. lia.
      * rewrite Hrem1. lia.
      * by exists out.
    + destruct (IH reader1 child output) as (out & -> & Ho & Hl); try done.
      * rewrite Hrem1. lia.
      * by exists out.
Qed.

End DecompressAny.

Lemma decompress_strict malloc data root size pad :
  strict root = true → 0 <= pad → 0 < size →
  match malloc size with
  | None =>
      Dec.decompress malloc (Dec.bitReaderInit data) (Some root) size pad = Some None
  | Some cells =>
      ∃ written,
        Dec.decompress malloc (Dec.bitReaderInit data) (Some root) size pad
        = Some (Some (written ++ drop (length written) (fresh cells size))) ∧
        Forall (λ x, x ∈ leaves root) written ∧
        Z.of_nat (length written) <= size
  end.
Proof.
  intros Hs Hpad Hsize. unfold Dec.decompress.
  rewrite (proj2 (Z.eqb_neq size 0)) by lia.
  destruct (malloc size) as [cells|]; [|done].
  destruct (is_leaf root) eqn:Hleaf.
  - exists (replicate (Z.to_nat size) (ch root)).
    rewrite length_replicate, drop_ge by (rewrite length_fresh; lia).
    rewrite app_nil_r. split; [done|]. split; [|lia].
    apply Forall_replicate. rewrite leaves_leaf by done. left.
  - change (Dec.data (Dec.bitReaderInit data)) with data.
    destruct (decompress_loop_strict root size pad Hpad (S (8 * length data))
                (Dec.bitReaderInit data) root []) as (out & H & Ho & Hl);
      [apply reader_ok_init|simpl; lia|done|done|done|done|done|done|simpl; lia| |].
    + rewrite remaining_init, length_bits_of_bytes. lia.
    + exists out. rewrite H. done.
Qed.

Lemma length_buffer written cells size :
  Z.of_nat (length written) <= size →
  Z.of_nat (length (written ++ drop (length written) (fresh cells size))) = size.
Proof.
  intros Hl. rewrite length_app, length_drop, length_fresh. lia.
Qed.

(** X10: on a tree where every node has two children or none, and with a
    nonzero [original_size], [decompress] returns [NULL] only when
    [malloc] fails: for every payload and every padding count the
    messages "Invalid path in Huffman tree" and "Unexpected end of data
    during decompression" are never printed.  The buffer it returns has
    [original_size] bytes: the bytes written, which are symbols of the
    tree, and after them the cells of the block that were not written. *)
Theorem decompress_fails_on_a_strict_tree_only_without_memory
    (malloc : allocator) (data : list byte) (root : Node)
    (original_size padding_bits : Z) :
  strict root = true → 0 <= padding_bits → 0 < original_size →
  match malloc original_size with
  | None =>
      Dec.decompress malloc (Dec.bitReaderInit data) (Some root)
        original_size padding_bits = Some None
  | Some cells =>
      ∃ written,
        Dec.decompress malloc (Dec.bitReaderInit data) (Some root)
          original_size padding_bits
        = Some (Some (written ++
                      drop (length written) (fresh cells original_size))) ∧
        Forall (λ x, x ∈ leaves root) written ∧
        Z.of_nat (length written) <= original_size ∧
        Z.of_nat (length (written ++
                          drop (length written) (fresh cells original_size)))
        = original_size
  end.
Proof.
  intros Hs Hpad Hsize.
  pose proof (decompress_strict malloc data root original_size padding_bits
                Hs Hpad Hsize) as H.
  destruct (malloc original_size) as [cells|]; [|done].
  destruct H as (written & H1 & H2 & H3).
  exists written. split; [done|]. split; [done|]. split; [done|].
  by apply length_buffer.
Qed.

Lemma decompress_fails_on_a_strict_tree_only_without_memory_witness :
  ∃ root,
    Enc.buildHuffmanTree aaabbc_freq = Some (Some root) ∧
    strict root = true ∧ 0 <= 0 ∧ 0 < 5 ∧
    ∃ out, Dec.decompress (malloc_below (2 ^ 40)) (Dec.bitReaderInit ["255"%byte])
             (Some root) 5 0
           = Some (Some out) ∧ Z.of_nat (length out) = 5.
Proof.
  destruct (Enc.buildHuffmanTree aaabbc_freq) as [[root|]|] eqn:Hb;
    [|vm_compute in Hb; discriminate..].
  exists root.
  assert (strict root = true) as Hs.
  { assert (Some (Some root) = Enc.buildHuffmanTree aaabbc_freq) as Hr by done.
    vm_compute in Hr. injection Hr as ->. reflexivity. }
  assert (0 <= 0) as H0 by lia. assert (0 < 5) as H5 by lia.
  split; [reflexivity|]. split; [exact Hs|]. split; [exact H0|]. split; [exact H5|].
  pose proof (decompress_fails_on_a_strict_tree_only_without_memory
                (malloc_below (2 ^ 40)) ["255"%byte] root 5 0 Hs H0 H5) as H.
  change (malloc_below (2 ^ 40) 5) with (Some (λ _ : nat, x00)) in H.
  destruct H as (written & H1 & _ & _ & H2).
  eexists. split; [exact H1|exact H2].
Defined.

(** ** What [main] of dec.c writes *)

Lemma parseHeader_range bs :
  0 <= original_size (Dec.parseHeader bs) ∧ 0 <= padding_bits (Dec.parseHeader bs).
Proof.
  unfold Dec.parseHeader. cbn [original_size padding_bits].
  split; apply le_value_range.
Qed.

Lemma decode_payload_cases malloc verify h freq payload :
  length freq = 256%nat → 0 <= original_size h → 0 <= padding_bits h →
  match Dec.decode_payload malloc verify h freq payload with
  | Some (Success out) =>
      Z.of_nat (length out) = original_size h ∧ 0 < original_size h ∧
      (verify = true → crc32 out = checksum h) ∧
      ∃ cells written,
        malloc (original_size h) = Some cells ∧
        out = written ++ drop (length written) (fresh cells (original_size h)) ∧
        Forall (λ b, 0 < freq !!! bidx b) written
  | Some (Failure m) =>
      (m = TreeRebuildFailed ∧ symbols_of freq = []) ∨
      (m = DecompressionFailed ∧ symbols_of freq ≠ [] ∧
       (original_size h = 0 ∨ malloc (original_size h) = None)) ∨
      (m = ChecksumMismatch ∧ verify = true ∧ 0 < original_size h)
  | None => False
  end.
Proof.
  intros Hlen Hsize Hpad. unfold Dec.decode_payload.
  rewrite decoder_builds_the_same_tree.
  destruct (buildHuffmanTree_spec freq ltac:(lia)) as (r & -> & Hr).
  cbn [mbind option_bind]. destruct r as [root|]; [|by left].
  destruct Hr as (Hs & Hleaves & Hone & Hmany).
  assert (symbols_of freq ≠ []) as Hne.
  { intros Hnil. rewrite Hnil in Hleaves. apply Permutation_nil_r in Hleaves.
    destruct root as [c f [l|] [r|]]; try discriminate.
    cbn [strict] in Hs. apply andb_true_iff in Hs as [Hsl _].
    cbn [leaves] in Hleaves. apply app_eq_nil in Hleaves as [Hl _].
    clear -Hl Hsl. induction l as [c f l r IHl IHr] using Node_ind'.
    destruct l as [l|], r as [r|]; try discriminate.
    cbn [leaves] in Hl. apply app_eq_nil in Hl as [Hl _].
    cbn [strict] in Hsl. apply andb_true_iff in Hsl as [Hsl _].
    by apply (IHl l). }
  destruct (decide (original_size h = 0)) as [H0|H0].
  - unfold Dec.decompress. rewrite H0. cbn [Z.eqb mbind option_bind].
    right. left. split; [done|]. split; [done|]. by left.
  - pose proof (decompress_strict malloc payload root (original_size h) (padding_bits h)
                  Hs Hpad ltac:(lia)) as Hd.
    destruct (malloc (original_size h)) as [cells|] eqn:Hm.
    + destruct Hd as (written & -> & Hout & Hl).
      cbn [mbind option_bind].
      pose proof (length_buffer written cells (original_size h) Hl) as Hlb.
      assert (Forall (λ b, 0 < freq !!! bidx b) written) as Hsym.
      { eapply list.Forall_impl; [exact Hout|]. intros b Hb. cbv beta in Hb.
        rewrite Hleaves in Hb. apply elem_of_symbols_of in Hb; [done|lia]. }
      destruct verify; cbn [andb].
      * destruct (crc32 _ =? checksum h) eqn:Hcrc; cbn [negb].
        -- apply Z.eqb_eq in Hcrc. split; [done|]. split; [lia|]. split; [done|].
           by exists cells, written.
        -- right. right. split; [done|]. split; [done|lia].
      * split; [done|]. split; [lia|]. split; [done|]. by exists cells, written.
    + rewrite Hd. cbn [mbind option_bind]. right. left.
      split; [done|]. split; [done|]. by right.
Qed.

Lemma Dec_main_cases mem verify file :
  match Dec.main mem verify file with
  | Some (Success out) =>
      let h := Dec.parseHeader (take sizeof_HuffHeader file) in
      Z.of_nat (length out) = original_size h ∧ 0 < original_size h ∧
      (verify = true → crc32 out = checksum h) ∧
      ∃ freq rest cells written,
        Dec.readFreqTable (drop sizeof_HuffHeader file) (tree_size h)
          = Some (freq, rest) ∧
        Dec.output_malloc mem (original_size h) = Some cells ∧
        out = written ++ drop (length written) (fresh cells (original_size h)) ∧
        Forall (λ b, 0 < freq !!! bidx b) written
  | Some (Failure DecompressionFailed) =>
      let size := original_size (Dec.parseHeader (take sizeof_HuffHeader file)) in
      size = 0 ∨ Dec.output_malloc mem size = None
  | Some (Failure _) => True
  | None => False
  end.
Proof.
  unfold Dec.main.
  destruct (decide _) as [|Hlen]; [done|].
  unfold Dec.readHeader.
  destruct (decide _) as [|_]; [done|].
  pose proof (parseHeader_range (take sizeof_HuffHeader file)) as [Hsize Hpad].
  remember (Dec.parseHeader (take sizeof_HuffHeader file)) as h eqn:Hh. clear Hh.
  destruct (negb _); [done|]. destruct (1 <? _); [done|].
  destruct (Dec.readFreqTable _ _) as [[freq rest]|] eqn:Hread; [|done].
  destruct (Dec.compressed_data_malloc mem _); [|done].
  destruct (_ <? _); [done|].
  pose proof (readFreqTable_length _ _ _ _ Hread) as Hfl.
  pose proof (decode_payload_cases (Dec.output_malloc mem) verify h freq
                (take (Z.to_nat (compressed_size h)) rest) Hfl Hsize Hpad) as Hc.
  destruct (Dec.decode_payload _ _ _ _ _) as [[m|out]|]; [| |done].
  - destruct m; try done.
    destruct Hc as [[? _]|[(_ & _ & ?)|[? _]]]; done.
  - destruct Hc as (H1 & H2 & H3 & cells & written & H4 & H5 & H6). cbv zeta.
    split; [done|]. split; [done|]. split; [done|].
    by exists freq, rest, cells, written.
Qed.

(** X11: when [main] of dec.c succeeds, the output has exactly
    [original_size] bytes, at least one, and under verification its
    CRC-32 is the checksum of the header.  The output is the buffer of
    [decompress]: the bytes the loop wrote, each a symbol with a nonzero
    count in the table of the file, followed, when the payload ended
    before [original_size] bytes were written, by the bytes the block
    held when [malloc] returned it. *)
Theorem decoded_output_has_the_declared_size
    (mem : Dec.Memory) (verify : bool) (file out : list byte) :
  Dec.main mem verify file = Some (Success out) →
  let h := Dec.parseHeader (take sizeof_HuffHeader file) in
  Z.of_nat (length out) = original_size h ∧ 0 < original_size h ∧
  (verify = true → crc32 out = checksum h) ∧
  ∃ freq rest cells written,
    Dec.readFreqTable (drop sizeof_HuffHeader file) (tree_size h) = Some (freq, rest) ∧
    Dec.output_malloc mem (original_size h) = Some cells ∧
    out = written ++ drop (length written) (fresh cells (original_size h)) ∧
    Forall (λ b, 0 < freq !!! bidx b) written.
Proof.
  intros H. pose proof (Dec_main_cases mem verify file) as Hc. rewrite H in Hc.
  exact Hc.
Qed.

Lemma decoded_output_has_the_declared_size_witness :
  Dec.main one_tebibyte false short_aaabbc_file
    = Some (Success ["a"; "a"; "a"; "b"; "b"; "000"]%byte) ∧
  Z.of_nat (length ["a"; "a"; "a"; "b"; "b"; "000"]%byte)
  = original_size (Dec.parseHeader (take sizeof_HuffHeader short_aaabbc_file)).
Proof.
  assert (Dec.main one_tebibyte false short_aaabbc_file
          = Some (Success ["a"; "a"; "a"; "b"; "b"; "000"]%byte)) as H
    by (vm_compute; reflexivity).
  split; [exact H|].
  exact (proj1 (decoded_output_has_the_declared_size one_tebibyte false
                  short_aaabbc_file _ H)).
Defined.



(** ** More on the tree of [buildHuffmanTree] *)

Lemma leaves_nonempty t : strict t = true → (1 ≤ length (leaves t))%nat.
Proof.
  induction t as [c f l r IHl IHr] using Node_ind'. intros Hs.
  destruct l as [ln|], r as [rn|]; try discriminate.
  - cbn [strict] in Hs. apply andb_true_iff in Hs as [Hsl _].
    cbn [leaves]. rewrite length_app. specialize (IHl ln eq_refl Hsl). lia.
  - simpl. lia.
Qed.

(** A strict tree is lower than it has leaves. *)
Lemma height_lt_leaves t : strict t = true → (height t < length (leaves t))%nat.
Proof.
  induction t as [c f l r IHl IHr] using Node_ind'. intros Hs.
  destruct l as [ln|], r as [rn|]; try discriminate.
  - cbn [strict] in Hs. apply andb_true_iff in Hs as [Hsl Hsr].
    cbn [leaves height]. rewrite length_app.
    specialize (IHl ln eq_refl Hsl). specialize (IHr rn eq_refl Hsr).
    pose proof (leaves_nonempty ln Hsl). pose proof (leaves_nonempty rn Hsr). lia.
  - simpl. lia.
Qed.

(** A property of the leaves that merging keeps holds for what the merge
    loop leaves in the queue. *)
Lemma merge_loop_Forall (P : Node → Prop) symbols : ∀ pq pq',
  (∀ l r, P l → P r → P (newNode x00 (u32 (freq l + freq r)) (Some l) (Some r))) →
  symbols = PQ_n pq → (1 ≤ symbols ≤ maxN pq)%nat →
  Forall P (heap pq) →
  Enc.merge_loop symbols pq = Some pq' → Forall P (heap pq').
Proof.
  induction symbols as [|symbols IH]; intros pq pq' Hmerge Hn Hb Hall Hrun; [lia|].
  destruct symbols as [|s].
  - cbn [Enc.merge_loop] in Hrun. by injection Hrun as <-.
  - rewrite merge_loop_step in Hrun.
    destruct (PQdelmin_spec pq) as (l & pq1 & Hd1 & Hm1 & Hp1).
    { unfold PQ_n in Hn. by destruct (heap pq). }
    rewrite Hd1 in Hrun. cbn [mbind option_bind] in Hrun.
    assert (length (heap pq1) = S s) as Hl1.
    { apply Permutation_length in Hp1. unfold PQ_n in Hn. simpl in Hp1. lia. }
    destruct (PQdelmin_spec pq1) as (r & pq2 & Hd2 & Hm2 & Hp2).
    { by destruct (heap pq1). }
    rewrite Hd2 in Hrun. cbn [mbind option_bind] in Hrun.
    assert (length (heap pq2) = s) as Hl2.
    { apply Permutation_length in Hp2. simpl in Hp2. lia. }
    destruct (PQinsert_spec pq2 (newNode x00 (u32 (freq l + freq r)) (Some l) (Some r)))
      as (pq3 & Hi3 & Hm3 & Hp3).
    { unfold PQ_n. lia. }
    rewrite Hi3 in Hrun. cbn [mbind option_bind] in Hrun.
    apply (IH pq3 pq' Hmerge); [| |  |done].
    + unfold PQ_n. apply Permutation_length in Hp3. simpl in Hp3. lia.
    + lia.
    + rewrite Hp3. rewrite <- Hp1, <- Hp2 in Hall.
      apply list.Forall_cons in Hall as [Hl Hall].
      apply list.Forall_cons in Hall as [Hr Hall].
      apply list.Forall_cons. split; [by apply Hmerge|done].
Qed.

Lemma buildHuffmanTree_Forall (P : Node → Prop) freq root :
  (256 ≤ length freq)%nat →
  (∀ l r, P l → P r → P (newNode x00 (u32 (Top.freq l + Top.freq r)) (Some l) (Some r))) →
  Forall P (leaf_nodes freq) →
  Enc.buildHuffmanTree freq = Some (Some root) → P root.
Proof.
  intros Hlen Hmerge Hleaves. unfold Enc.buildHuffmanTree.
  destruct (insert_fold_spec freq (seq 0 MAXN) (PQinit MAXN) 0)
    as (pq & -> & Hm & Hp).
  { intros i Hi%elem_of_seq. unfold MAXN in Hi. lia. }
  { unfold PQ_n. rewrite length_seq. simpl. lia. }
  cbn [mbind option_bind].
  change (maxN (PQinit MAXN)) with MAXN in Hm.
  change (heap (PQinit MAXN)) with (@nil Node) in Hp. rewrite app_nil_r in Hp.
  rewrite <- leaf_nodes_unfold in Hp |- *.
  assert (length (leaf_nodes freq) ≤ MAXN)%nat as Hle.
  { rewrite leaf_nodes_unfold. etrans; [apply length_omap_le|]. by rewrite length_seq. }
  assert (length (heap pq) = length (leaf_nodes freq)) as Hlh by (by rewrite Hp).
  assert (Forall P (heap pq)) as Hall by (by rewrite Hp).
  rewrite Nat.add_0_l.
  destruct (length (leaf_nodes freq)) as [|[|s]] eqn:Hcount; [done| |].
  - destruct (PQdelmin_spec pq) as (single & pq1 & -> & _ & Hp1).
    { by destruct (heap pq). }
    cbn [mbind option_bind]. intros [= ->].
    rewrite <- Hp1 in Hall. by apply list.Forall_cons in Hall as [? _].
  - destruct (Enc.merge_loop (S (S s)) pq) as [pq'|] eqn:Hrun; [|done].
    cbn [mbind option_bind].
    pose proof (merge_loop_Forall P (S (S s)) pq pq' Hmerge) as Hall'.
    destruct (merge_loop_spec (S (S s)) pq) as (root' & Hrun' & _).
    { unfold PQ_n. lia. }
    { rewrite Hm. unfold MAXN in *. lia. }
    rewrite Hrun in Hrun'. injection Hrun' as ->.
    destruct (PQdelmin_spec (mkPQ [root'] (maxN pq))) as (m & pq1 & -> & _ & Hp1);
      [done|].
    cbn [mbind option_bind]. intros [= ->]. simpl in Hp1.
    assert (Forall P [root']) as Hr.
    { apply Hall'; [unfold PQ_n; lia|rewrite Hm; unfold MAXN in *; lia|done|done]. }
    rewrite <- Hp1 in Hr. by apply list.Forall_cons in Hr as [? _].
Qed.

Lemma weights_ok_leaf_nodes freq :
  Forall (λ t, weights_ok freq t = true) (leaf_nodes freq).
Proof.
  apply list.Forall_forall. intros t Ht.
  rewrite leaf_nodes_unfold in Ht. apply list_elem_of_omap in Ht as (i & Hi & Ht).
  apply elem_of_seq in Hi. unfold MAXN in Hi.
  apply leaf_of_Some in Ht as (f & Hf & Hpos & ->).
  cbn [weights_ok]. rewrite bidx_z2b by lia.
  rewrite (list_lookup_total_correct _ _ _ Hf).
  rewrite Z.eqb_refl. by apply Z.ltb_lt in Hpos as ->.
Qed.

(** X13: for every table of 256 counters [buildHuffmanTree] returns.
    It returns [NULL] exactly when every count is zero.  Otherwise every
    node of the tree has two children or none, the leaves are the
    symbols with a nonzero count, each once, a leaf holds the count of
    its symbol and any other node the 32-bit sum of its children, and
    the tree is lower than it has leaves, so no leaf is deeper than
    255. *)
Theorem buildHuffmanTree_tree_of_the_table (freq : list Z) :
  freq_table_ok freq →
  ∃ r, Enc.buildHuffmanTree freq = Some r ∧
       match r with
       | None => ∀ b, freq !!! bidx b = 0
       | Some root =>
           (∃ b, 0 < freq !!! bidx b) ∧
           strict root = true ∧ leaves root ≡ₚ symbols_of freq ∧
           (∀ b, b ∈ leaves root ↔ 0 < freq !!! bidx b) ∧
           weights_ok freq root = true ∧
           (height root < length (leaves root) ≤ 256)%nat
       end.
Proof.
  intros [Hlen Hrange].
  destruct (buildHuffmanTree_spec freq ltac:(lia)) as (r & Hb & Hr).
  exists r. split; [done|]. destruct r as [root|].
  - destruct Hr as (Hs & Hleaves & _ & _).
    assert (∀ b, b ∈ leaves root ↔ 0 < freq !!! bidx b) as Hin.
    { intros b. rewrite Hleaves. apply elem_of_symbols_of. lia. }
    split.
    { pose proof (leaves_nonempty root Hs) as Hne.
      destruct (leaves root) as [|b bs] eqn:E; [simpl in Hne; lia|].
      exists b. apply Hin. left. }
    split; [done|]. split; [done|]. split; [done|]. split.
    + apply (buildHuffmanTree_Forall (λ t, weights_ok freq t = true) freq root);
        [lia| |apply weights_ok_leaf_nodes|done].
      intros l r Hl Hr. cbn [weights_ok]. rewrite Hl, Hr.
      change (b2z x00 =? 0) with true. by rewrite Z.eqb_refl.
    + split; [by apply height_lt_leaves|].
      rewrite Hleaves. unfold symbols_of. rewrite length_fmap, leaf_nodes_unfold.
      etrans; [apply length_omap_le|]. by rewrite length_seq.
  - intros b. pose proof (bidx_lt b) as Hb'.
    assert (¬ 0 < freq !!! bidx b) as Hn.
    { rewrite <- elem_of_symbols_of by lia. rewrite Hr. apply not_elem_of_nil. }
    destruct (lookup_lt_is_Some_2 freq (bidx b) ltac:(lia)) as [f Hf].
    rewrite (list_lookup_total_correct _ _ _ Hf) in Hn |- *.
    pose proof (Forall_lookup_1 _ _ _ _ Hrange Hf) as Hfr. cbv beta in Hfr. lia.
Qed.

Lemma buildHuffmanTree_tree_of_the_table_witness :
  freq_table_ok aaabbc_freq ∧
  ∃ root, Enc.buildHuffmanTree aaabbc_freq = Some (Some root) ∧
          strict root = true ∧ leaves root ≡ₚ symbols_of aaabbc_freq ∧
          weights_ok aaabbc_freq root = true.
Proof.
  assert (freq_table_ok aaabbc_freq) as Hok.
  { split; [reflexivity|].
    apply Forall_forall. intros x Hx.
    assert (forallb (λ x, (0 <=? x) && (x <? 2 ^ 32)) aaabbc_freq = true) as Hb
      by (vm_compute; reflexivity).
    rewrite forallb_forall in Hb. specialize (Hb x Hx). lia. }
  split; [exact Hok|].
  destruct (buildHuffmanTree_tree_of_the_table aaabbc_freq Hok) as (r & Hb & Hr).
  destruct r as [root|].
  - destruct Hr as (_ & H1 & H2 & _ & H3 & _).
    exists root. split; [exact Hb|]. split; [exact H1|]. split; [exact H2|exact H3].
  - exfalso. specialize (Hr "a"%byte). vm_compute in Hr. discriminate Hr.
Defined.

(** ** The code table *)

(** X14: on a tree of at most 32 levels whose leaves hold distinct
    symbols, [generateCodes] called as in [main] gives every leaf the
    branches of its path from the root (0 for left, 1 for right, first
    branch first) as its code, with the number of branches as its
    length, and leaves the entries of all other symbols untouched. *)
Theorem generateCodes_codes_are_the_paths (t : Node) (codes : list Enc.CodeEntry) :
  NoDup (leaves t) → (height t ≤ 32)%nat → length codes = 256%nat →
  ∃ codes',
    Enc.generateCodes t codes 0 0 = Some codes' ∧ length codes' = 256%nat ∧
    (∀ i, (∀ c, c ∈ leaves t → i ≠ bidx c) → codes' !! i = codes !! i) ∧
    ∀ c p, path_to t p c →
      ∃ e, codes' !! bidx c = Some e ∧ entry_ok e ∧
           entry_bits e = p ∧ Enc.len e = Z.of_nat (length p).
Proof.
  intros Hnd Hh Hlen.
  destruct (generateCodes_spec t codes 0 []) as (codes' & Hg & Hl & Hsame & Hpath);
    [simpl; lia|apply holds_nil|].
  exists codes'. split; [exact Hg|]. split; [lia|]. split; [done|].
  intros c p Hp. by apply Hpath.
Qed.

Lemma generateCodes_codes_are_the_paths_witness :
  NoDup (leaves tree_ab) ∧ (height tree_ab ≤ 32)%nat ∧
  length (replicate MAXN (Enc.mkCodeEntry [] 0)) = 256%nat ∧
  ∃ codes' e,
    Enc.generateCodes tree_ab (replicate MAXN (Enc.mkCodeEntry [] 0)) 0 0
      = Some codes' ∧
    codes' !! bidx "b" = Some e ∧ entry_bits e = [true].
Proof.
  assert (NoDup (leaves tree_ab)) as H1.
  { change (NoDup ["a"; "b"]%byte). apply list.NoDup_cons.
    split; [|apply NoDup_singleton].
    intros H. apply list_elem_of_singleton in H. discriminate H. }
  assert (height tree_ab ≤ 32)%nat as H2 by (vm_compute; lia).
  assert (length (replicate MAXN (Enc.mkCodeEntry [] 0)) = 256%nat) as H3
    by reflexivity.
  split; [exact H1|]. split; [exact H2|]. split; [exact H3|].
  destruct (generateCodes_codes_are_the_paths tree_ab
              (replicate MAXN (Enc.mkCodeEntry [] 0)) H1 H2 H3)
    as (codes' & Hg & _ & _ & Hpath).
  destruct (Hpath "b"%byte [true]) as (e & He & _ & Hbits & _).
  { apply path_right. apply path_here. }
  exists codes', e. split; [exact Hg|]. split; [exact He|exact Hbits].
Defined.

(** X15: for a non-empty input of fewer than 2^32 bytes whose tree has
    at most 32 levels, the code table of [main] is prefix-free, and
    every byte of the input has a code of 1 to 32 bits in it. *)
Theorem codes_of_main_are_prefix_free (input : list byte) :
  input ≠ [] → Z.of_nat (length input) < 2 ^ 32 → (tree_height input ≤ 32)%nat →
  ∃ root codes,
    Enc.buildHuffmanTree (Enc.buildFreqTable input) = Some (Some root) ∧
    Enc.main_codes root = Some codes ∧ length codes = 256%nat ∧
    prefix_free codes ∧
    ∀ b, b ∈ input →
      ∃ e, codes !! bidx b = Some e ∧ entry_ok e ∧ 1 <= Enc.len e <= 32.
Proof.
  intros Hne Hlen Hheight. unfold tree_height in Hheight.
  pose proof (buildFreqTable_ok input) as [Hfl Hfr].
  pose proof (λ b, buildFreqTable_pos input b Hlen) as Hpos.
  remember (Enc.buildFreqTable input) as freq eqn:Hfreq. clear Hfreq.
  destruct (buildHuffmanTree_spec freq ltac:(lia)) as (r & Hbuild & Hr).
  rewrite Hbuild in Hheight |- *.
  destruct r as [root|]; last first.
  { destruct input as [|b ?]; [done|].
    assert (b ∈ symbols_of freq) as Hb.
    { apply elem_of_symbols_of; [lia|]. apply Hpos. left. }
    rewrite Hr in Hb. by apply elem_of_nil in Hb. }
  destruct Hr as (Hstrict & Hleaves & _ & _).
  assert (NoDup (leaves root)) as Hnd by (rewrite Hleaves; apply NoDup_symbols_of).
  destruct (main_codes_spec root Hnd Hheight) as (codes & Hcodes & Hcl & Hentries).
  destruct (main_codes_prefix_free freq root ltac:(lia) Hbuild Hheight)
    as (codes2 & Hcodes2 & Hpf).
  rewrite Hcodes in Hcodes2. injection Hcodes2 as <-.
  exists root, codes. split; [done|]. split; [done|]. split; [done|]. split; [done|].
  intros b Hb.
  destruct (Hentries b) as (e & He & Hok & Hn0 & Hl32 & _).
  { rewrite Hleaves. apply elem_of_symbols_of; [lia|]. by apply Hpos. }
  exists e. split; [done|]. split; [done|].
  rewrite length_entry_bits in Hl32.
  pose proof (main_codes_len root codes Hcodes) as Hlens.
  pose proof (Forall_lookup_1 _ _ _ _ Hlens He) as Hr. cbv beta in Hr. lia.
Qed.

Lemma codes_of_main_are_prefix_free_witness :
  aaabbc ≠ [] ∧ Z.of_nat (length aaabbc) < 2 ^ 32 ∧ (tree_height aaabbc ≤ 32)%nat ∧
  ∃ root codes,
    Enc.buildHuffmanTree (Enc.buildFreqTable aaabbc) = Some (Some root) ∧
    Enc.main_codes root = Some codes ∧ prefix_free codes.
Proof.
  assert (aaabbc ≠ []) as H1 by discriminate.
  assert (Z.of_nat (length aaabbc) < 2 ^ 32) as H2 by (vm_compute; reflexivity).
  assert (tree_height aaabbc ≤ 32)%nat as H3 by (vm_compute; lia).
  split; [exact H1|]. split; [exact H2|]. split; [exact H3|].
  destruct (codes_of_main_are_prefix_free aaabbc H1 H2 H3)
    as (root & codes & Hb & Hc & _ & Hpf & _).
  exists root, codes. split; [exact Hb|]. split; [exact Hc|exact Hpf].
Defined.

(** ** [compress] on any code table *)

Lemma compress_loop_cases codes data : ∀ buf,
  length codes = 256%nat → Forall entry_ok codes → buffer_ok buf →
  match Enc.compress_loop data codes buf with
  | Some (Some buf') =>
      Forall (λ b, Enc.len (codes !!! bidx b) ≠ 0) data ∧ buffer_ok buf' ∧
      written buf'
      = written buf ++ flat_map (λ b, entry_bits (codes !!! bidx b)) data
  | Some None => Exists (λ b, Enc.len (codes !!! bidx b) = 0) data
  | None => False
  end.
Proof.
  induction data as [|b data IH]; intros buf Hlen Hall Hok.
  - cbn [Enc.compress_loop flat_map]. split; [constructor|]. split; [done|].
    by rewrite app_nil_r.
  - cbn [Enc.compress_loop].
    destruct (lookup_lt_is_Some_2 codes (bidx b)) as [e He].
    { pose proof (bidx_lt b). lia. }
    rewrite He. cbn [mbind option_bind].
    assert (codes !!! bidx b = e) as Htot by (by apply list_lookup_total_correct).
    destruct (Enc.len e =? 0) eqn:Hz.
    { apply Z.eqb_eq in Hz. apply Exists_cons_hd. by rewrite Htot. }
    apply Z.eqb_neq in Hz.
    destruct (write_code_spec e buf Hok) as (buf1 & -> & Hok1 & Hw1).
    { by apply (Forall_lookup_1 _ _ _ _ Hall He). }
    cbn [mbind option_bind].
    specialize (IH buf1 Hlen Hall Hok1).
    destruct (Enc.compress_loop data codes buf1) as [[buf'|]|]; [| |done].
    + destruct IH as (Hf & Hok' & Hw').
      split; [apply list.Forall_cons; split; [by rewrite Htot|done]|].
      split; [done|]. cbn [flat_map].
      rewrite Hw', Hw1, Htot, <- (assoc_L (++)). reflexivity.
    + by apply Exists_cons_tl.
Qed.

(** X16: with a table of 256 entries whose arrays are long enough for
    their lengths, [compress] returns [NULL] ("No code for character")
    exactly when some byte of the data has an entry of length 0;
    otherwise the bytes of its buffer spell the codes of the bytes of the
    data, in order, followed by fewer than 8 zero bits. *)
Theorem compress_fails_only_without_a_code
    (data : list byte) (codes : list Enc.CodeEntry) :
  length codes = 256%nat → Forall entry_ok codes →
  match Enc.compress data codes with
  | Some (Some buf) =>
      Forall (λ b, Enc.len (codes !!! bidx b) ≠ 0) data ∧
      ∃ padding,
        bits_of_bytes (Enc.data buf)
        = flat_map (λ b, entry_bits (codes !!! bidx b)) data ++
          replicate padding false ∧ (padding < 8)%nat
  | Some None => Exists (λ b, Enc.len (codes !!! bidx b) = 0) data
  | None => False
  end.
Proof.
  intros Hlen Hall. unfold Enc.compress.
  pose proof (compress_loop_cases codes data Enc.bitBufferInit Hlen Hall buffer_ok_init)
    as Hc.
  destruct (Enc.compress_loop data codes Enc.bitBufferInit) as [[buf|]|]; [|done..].
  destruct Hc as (Hf & Hok & Hw). split; [done|].
  destruct (bitBufferFlush_spec buf Hok) as (Hbits & _ & Hpad).
  exists (Z.to_nat (padding_of buf)). split; [|lia].
  rewrite Hbits, Hw. reflexivity.
Qed.

Lemma compress_fails_only_without_a_code_witness :
  length (replicate MAXN (Enc.mkCodeEntry [] 0)) = 256%nat ∧
  Forall entry_ok (replicate MAXN (Enc.mkCodeEntry [] 0)) ∧
  Enc.compress ["a"%byte] (replicate MAXN (Enc.mkCodeEntry [] 0)) = Some None.
Proof.
  assert (length (replicate MAXN (Enc.mkCodeEntry [] 0)) = 256%nat) as H1
    by reflexivity.
  assert (Forall entry_ok (replicate MAXN (Enc.mkCodeEntry [] 0))) as H2.
  { apply Forall_replicate. unfold entry_ok. simpl. lia. }
  split; [exact H1|]. split; [exact H2|].
  pose proof (compress_fails_only_without_a_code ["a"%byte]
                (replicate MAXN (Enc.mkCodeEntry [] 0)) H1 H2) as H.
  destruct (Enc.compress ["a"%byte] (replicate MAXN (Enc.mkCodeEntry [] 0)))
    as [[buf|]|].
  - exfalso. destruct H as [H _]. apply list.Forall_cons in H as [H _].
    apply H. reflexivity.
  - reflexivity.
  - destruct H.
Defined.

(** ** [buildFreqTable] *)

Lemma count_fold_mod (b : byte) data : ∀ (t : list Z),
  freq_table_ok t →
  foldl (λ freq b, <[bidx b := u32 (freq !!! bidx b + 1)]> freq) t data !!! bidx b
  = u32 (t !!! bidx b + Z.of_nat (count_occ byte_eq_dec data b)).
Proof.
  induction data as [|x data IH]; intros t [Hlen Hrange].
  - cbn [foldl count_occ]. change (Z.of_nat 0) with 0. rewrite Z.add_0_r.
    unfold u32. symmetry. apply Z.mod_small.
    pose proof (bidx_lt b) as Hb.
    destruct (lookup_lt_is_Some_2 t (bidx b) ltac:(lia)) as [f Hf].
    rewrite (list_lookup_total_correct _ _ _ Hf).
    by apply (Forall_lookup_1 _ _ _ _ Hrange Hf).
  - cbn [foldl]. pose proof (bidx_lt x) as Hx.
    rewrite IH.
    2: { split; [by rewrite length_insert|].
         apply Forall_insert; [done|]. apply Z.mod_pos_bound. lia. }
    destruct (byte_eq_dec x b) as [->|Hne].
    + rewrite count_occ_cons_eq by done.
      rewrite list_lookup_total_insert_eq by lia.
      unfold u32. rewrite Zplus_mod_idemp_l. f_equal. lia.
    + rewrite count_occ_cons_neq by done.
      rewrite list_lookup_total_insert_ne; [done|].
      intros Heq. apply Hne. by apply bidx_inj.
Qed.

(** X17: [buildFreqTable] returns 256 counters of 32 bits, and the
    counter of every byte value is the number of its occurrences in the
    data modulo 2^32. *)
Theorem buildFreqTable_counts_occurrences (data : list byte) (b : byte) :
  freq_table_ok (Enc.buildFreqTable data) ∧
  Enc.buildFreqTable data !!! bidx b
  = Z.of_nat (count_occ byte_eq_dec data b) mod 2 ^ 32.
Proof.
  split; [apply buildFreqTable_ok|].
  unfold Enc.buildFreqTable. rewrite count_fold_mod.
  - rewrite lookup_total_replicate_2 by (rewrite MAXN_eq; apply bidx_lt).
    reflexivity.
  - split; [apply length_replicate|]. apply Forall_replicate. lia.
Qed.

(** ** The tree of huffman-00 and its leaves *)

Lemma H00_merge_loop_leaves fuel : ∀ a,
  (1 ≤ length a ≤ fuel)%nat →
  ∃ root, H00.merge_loop fuel a = Some [root] ∧
          leaves root ≡ₚ flat_map leaves a ∧
          (Forall (λ t, strict t = true) a → strict root = true) ∧
          ((2 ≤ length a)%nat ∨ Forall (λ t, is_leaf t = false) a →
           is_leaf root = false).
Proof.
  induction fuel as [|fuel IH]; intros a Hlen; [lia|].
  cbn [H00.merge_loop]. destruct (decide (length a ≠ 1%nat)) as [Hne|Hone].
  - destruct (extractMin_spec a) as (l & a1 & -> & Hp1);
      [destruct a; [simpl in Hlen; lia|done]|].
    cbn [mbind option_bind].
    assert (length a = S (length a1)) as Hl1 by (by rewrite <- Hp1).
    destruct (extractMin_spec a1) as (r & a2 & -> & Hp2);
      [destruct a1; [simpl in *; lia|done]|].
    cbn [mbind option_bind]. cbv zeta.
    assert (length a1 = S (length a2)) as Hl2 by (by rewrite <- Hp2).
    destruct (insertMinHeap_spec a2 (newNode "$" (u32 (freq l + freq r)) (Some l) (Some r)))
      as (a3 & -> & Hp3).
    cbn [mbind option_bind].
    destruct (IH a3) as (root & -> & Hleaves & Hstrict & Hinner).
    { rewrite Hp3. simpl. lia. }
    exists root. split; [done|].
    assert (a ≡ₚ l :: r :: a2) as Hpa by (by rewrite <- Hp1, <- Hp2).
    split; [|split].
    + rewrite Hleaves, Hp3, Hpa. cbn [flat_map leaves]. by rewrite (assoc_L (++)).
    + intros Hall. apply Hstrict. rewrite Hp3. rewrite Hpa in Hall.
      apply list.Forall_cons in Hall as [Hsl Hall].
      apply list.Forall_cons in Hall as [Hsr Hall].
      constructor; [|done]. simpl. by rewrite Hsl, Hsr.
    + intros _. apply Hinner. rewrite Hp3.
      destruct a2 as [|y a2]; [right|left; simpl; lia].
      by constructor.
  - destruct a as [|root [|??]]; simpl in *; try lia.
    exists root. split; [done|]. split; [by rewrite app_nil_r|].
    split; [by intros ?%Forall_inv|].
    intros [?|Hall]; [lia|]. by apply Forall_inv in Hall.
Qed.

(** The tree of huffman-00 for a table of 256 counters: the node
    ['$'] of frequency 0 without a symbol, the root with one child of a
    single symbol, or a strict tree over the symbols. *)
Lemma H00_buildHuffmanTree_leaves freq :
  (256 ≤ length freq)%nat →
  ∃ root,
    H00.buildHuffmanTree freq H00.MAX_CHARS = Some root ∧
    match symbols_of freq with
    | [] => root = newNode "$" 0 None None
    | _ => is_leaf root = false ∧ leaves root ≡ₚ symbols_of freq ∧
           (height root < 256)%nat
    end.
Proof.
  intros Hlen. unfold H00.buildHuffmanTree.
  rewrite H00_fill_spec by (unfold H00.MAX_CHARS; lia).
  change (seq 0 H00.MAX_CHARS) with (seq 0 MAXN). rewrite <- leaf_nodes_unfold.
  cbn [mbind option_bind]. unfold symbols_of.
  pose proof (strict_leaf_nodes freq (seq 0 MAXN)) as Hstrict.
  pose proof (leaves_leaf_nodes freq (seq 0 MAXN)) as Hll.
  assert (length (leaf_nodes freq) ≤ 256)%nat as Hcount.
  { rewrite leaf_nodes_unfold. etrans; [apply length_omap_le|]. by rewrite length_seq. }
  rewrite <- leaf_nodes_unfold in Hstrict, Hll.
  destruct (leaf_nodes freq) as [|n1 [|n2 rest]] eqn:Hnodes.
  - eexists. split; [done|]. done.
  - eexists. split; [done|]. cbn [fmap list_fmap].
    assert (n1 ∈ leaf_nodes freq) as Hin by (rewrite Hnodes; left).
    rewrite leaf_nodes_unfold in Hin.
    apply list_elem_of_omap in Hin as (i & _ & Hi).
    apply leaf_of_Some in Hi as (f & _ & _ & ->).
    split; [done|]. split; [done|]. simpl. lia.
  - destruct (buildMinHeap_spec (n1 :: n2 :: rest)) as (a1 & -> & Hp1);
      [simpl; lia|].
    cbn [mbind option_bind].
    destruct (H00_merge_loop_leaves (length a1) a1) as (root & -> & Hleaves & Hs & Hinner).
    { rewrite Hp1. simpl. lia. }
    cbn [mbind option_bind].
    destruct (extractMin_spec [root]) as (x & a' & -> & Hp); [done|].
    cbn [mbind option_bind]. exists x.
    assert (x = root) as ->.
    { apply Permutation_length in Hp as Hl. simpl in Hl.
      destruct a'; [|simpl in Hl; lia].
      apply Permutation_singleton_l in Hp. by injection Hp. }
    split; [done|].
    change (list_fmap Node byte ch (n1 :: n2 :: rest)) with (ch <$> n1 :: n2 :: rest).
    assert (leaves root ≡ₚ ch <$> n1 :: n2 :: rest) as Hl.
    { rewrite Hleaves, <- Hll. by apply Permutation_flat_map. }
    split; [apply Hinner; left; rewrite Hp1; simpl; lia|]. split; [done|].
    assert (strict root = true) as Hsr by (apply Hs; by rewrite Hp1).
    pose proof (height_lt_leaves root Hsr) as Hh.
    rewrite Hl, length_fmap in Hh. lia.
Qed.

(** ** [storeCodes] *)

Lemma code_chars_app p q : code_chars (p ++ q) = code_chars p ++ code_chars q.
Proof. unfold code_chars. apply fmap_app. Qed.

Lemma code_bits_chars p : code_bits (code_chars p) = p.
Proof.
  unfold code_bits, code_chars. rewrite <- list_fmap_compose.
  rewrite <- (list_fmap_id p) at 2. apply list_fmap_ext.
  intros i b _. by destruct b.
Qed.

Lemma storeCodes_spec t : ∀ codes acc,
  (length acc + height t < 256)%nat →
  ∃ codes',
    H00.storeCodes t codes (code_chars acc) = Some codes' ∧
    length codes' = length codes ∧
    (∀ i, (∀ c, c ∈ leaves t → i ≠ bidx c) → codes' !! i = codes !! i) ∧
    (NoDup (leaves t) → length codes = 256%nat →
     ∀ c p, path_to t p c → codes' !! bidx c = Some (Some (code_chars (acc ++ p)))).
Proof.
  induction t as [c0 f l r IHl IHr] using Node_ind'. intros codes acc Hh.
  assert (length (code_chars acc) = length acc) as Hca
    by (unfold code_chars; apply length_fmap).
  assert (∀ b : bool, code_chars acc ++ [if b then "1"%byte else "0"%byte]
                      = code_chars (acc ++ [b])) as Hsnoc.
  { intros b. by rewrite code_chars_app. }
  cbn [H00.storeCodes].
  destruct (decide (H00.MAX_CHARS ≤ length (code_chars acc))%nat) as [Hbig|_].
  { unfold H00.MAX_CHARS in Hbig. lia. }
  destruct l as [ln|] eqn:El, r as [rn|] eqn:Er.
  4: { (* a leaf *)
    cbn [mbind option_bind]. eexists. split; [reflexivity|].
    split; [by rewrite length_insert|]. split.
    - intros i Hi. rewrite list_lookup_insert_ne; [done|].
      intros Heq. apply (Hi c0); [simpl; left|done].
    - intros _ Hlen c p Hp. inversion Hp; subst.
      rewrite app_nil_r. apply list_lookup_insert_eq. pose proof (bidx_lt c). lia. }
  - (* both children *)
    simpl in Hh. rewrite (Hsnoc false), (Hsnoc true).
    destruct (IHl ln eq_refl codes (acc ++ [false]))
      as (codes1 & -> & Hl1 & Hsame1 & Hpath1).
    { rewrite length_app. simpl. lia. }
    cbn [mbind option_bind].
    destruct (IHr rn eq_refl codes1 (acc ++ [true]))
      as (codes2 & -> & Hl2 & Hsame2 & Hpath2).
    { rewrite length_app. simpl. lia. }
    cbn [mbind option_bind].
    exists codes2. split; [done|]. split; [congruence|]. split.
    + intros i Hi. rewrite Hsame2, Hsame1; [done|..];
        intros c Hc; apply Hi; simpl; apply elem_of_app; auto.
    + intros Hnd Hlen c p Hp. simpl in Hnd.
      apply list.NoDup_app in Hnd as (Hndl & Hdisj & Hndr).
      inversion Hp as [|? ? ? ? p' ? Hp'|? ? ? ? p' ? Hp']; subst.
      * rewrite Hsame2.
        -- rewrite (Hpath1 Hndl Hlen c p' Hp'). by rewrite <- (assoc_L (++)).
        -- intros c' Hc' Heq. apply bidx_inj in Heq as <-.
           apply (Hdisj c); [by eapply path_to_leaves|done].
      * rewrite (Hpath2 Hndr ltac:(congruence) c p' Hp'). by rewrite <- (assoc_L (++)).
  - (* a left child only *)
    simpl in Hh. rewrite (Hsnoc false).
    destruct (IHl ln eq_refl codes (acc ++ [false]))
      as (codes1 & -> & Hl1 & Hsame1 & Hpath1).
    { rewrite length_app. simpl. lia. }
    cbn [mbind option_bind].
    exists codes1. split; [done|]. split; [done|]. split.
    + intros i Hi. apply Hsame1. intros c Hc. apply Hi. simpl.
      apply elem_of_app. auto.
    + intros Hnd Hlen c p Hp. simpl in Hnd. rewrite app_nil_r in Hnd.
      inversion Hp as [|? ? ? ? p' ? Hp'|]; subst.
      rewrite (Hpath1 Hnd Hlen c p' Hp'). by rewrite <- (assoc_L (++)).
  - (* a right child only *)
    simpl in Hh. rewrite (Hsnoc true). cbn [mbind option_bind].
    destruct (IHr rn eq_refl codes (acc ++ [true]))
      as (codes2 & -> & Hl2 & Hsame2 & Hpath2).
    { rewrite length_app. simpl. lia. }
    cbn [mbind option_bind].
    exists codes2. split; [done|]. split; [done|]. split.
    + intros i Hi. apply Hsame2. intros c Hc. apply Hi. by simpl.
    + intros Hnd Hlen c p Hp. simpl in Hnd.
      inversion Hp as [| |? ? ? ? p' ? Hp']; subst.
      rewrite (Hpath2 Hnd Hlen c p' Hp'). by rewrite <- (assoc_L (++)).
Qed.

(** ** The packing loop of [encodeFile] *)

(** The local variables of the loop seen as the bit buffer of
    huffman-01, whose lemmas then apply. *)
Lemma put_code_char_as_write st ch :
  packer_ok st →
  Enc.bitBufferWriteBits
    (Enc.mkBitBuffer (H00.written_bytes st) (H00.buffer st) (H00.bit_count st))
    (Z.b2z (Byte.eqb ch "1")) 1
  = Some (Enc.mkBitBuffer
            (H00.written_bytes (H00.put_code_char st ch))
            (H00.buffer (H00.put_code_char st ch))
            (H00.bit_count (H00.put_code_char st ch))).
Proof.
  intros [Hu Hb]. destruct st as [d bb u]. cbn [H00.written_bytes H00.buffer H00.bit_count] in *.
  unfold Enc.bitBufferWriteBits, Enc.write_bit, H00.put_code_char.
  change (rev (seq 0 1)) with [0%nat].
  cbn [foldl mbind option_bind Enc.bit_buffer Enc.bits_used Enc.data
       H00.written_bytes H00.buffer H00.bit_count].
  destruct (decide (32 ≤ 0)%nat) as [|_]; [lia|].
  change (Z.of_nat 0) with 0. rewrite Z.shiftr_0_r.
  set (v := Byte.eqb ch "1").
  assert (Z.land (Z.b2z v) 1 = Z.b2z v) as -> by (by destruct v).
  rewrite lor_double_bit.
  assert (2 ^ u <= 2 ^ 7) as Hpow by (apply Z.pow_le_mono_r; lia).
  change (2 ^ 7) with 128 in Hpow.
  assert (u8 (Z.shiftl bb 1) = 2 * bb) as ->.
  { rewrite Z.shiftl_mul_pow2 by lia. change (2 ^ 1) with 2.
    unfold u8. change (2 ^ 8) with 256. rewrite Z.mod_small by lia. lia. }
  assert ((if v then Z.lor (2 * bb) 1 else 2 * bb) = 2 * bb + Z.b2z v) as ->.
  { destruct v; [|cbn [Z.b2z]; lia].
    rewrite <- (lor_double_bit bb true). rewrite Z.shiftl_mul_pow2 by lia.
    change (2 ^ 1) with 2. cbn [Z.b2z]. f_equal. lia. }
  assert (u8 (2 * bb + Z.b2z v) = 2 * bb + Z.b2z v) as ->.
  { unfold u8. change (2 ^ 8) with 256. apply Z.mod_small. destruct v; simpl; lia. }
  assert (u8 (u + 1) = u + 1) as ->.
  { unfold u8. change (2 ^ 8) with 256. apply Z.mod_small. lia. }
  by destruct (u + 1 =? 8).
Qed.

Lemma put_code_char_spec st ch :
  packer_ok st →
  packer_ok (H00.put_code_char st ch) ∧
  packed (H00.put_code_char st ch) = packed st ++ [Byte.eqb ch "1"].
Proof.
  intros Hok.
  destruct (bitBufferWriteBits_one
              (Enc.mkBitBuffer (H00.written_bytes st) (H00.buffer st) (H00.bit_count st))
              (Byte.eqb ch "1") Hok) as (buf' & Hw & Hok' & Hbits).
  rewrite put_code_char_as_write in Hw by done. injection Hw as <-.
  split; [exact Hok'|exact Hbits].
Qed.

Lemma put_code_spec code : ∀ st,
  packer_ok st →
  packer_ok (foldl H00.put_code_char st code) ∧
  packed (foldl H00.put_code_char st code) = packed st ++ code_bits code.
Proof.
  induction code as [|ch code IH]; intros st Hok.
  - cbn [foldl]. split; [done|]. unfold code_bits. cbn [fmap list_fmap].
    by rewrite app_nil_r.
  - cbn [foldl]. destruct (put_code_char_spec st ch Hok) as [Hok1 Hp1].
    destruct (IH _ Hok1) as [Hok2 Hp2]. split; [done|].
    rewrite Hp2, Hp1, <- (assoc_L (++)). reflexivity.
Qed.

Lemma put_bytes_spec codes (enc : byte → list bool) input : ∀ st,
  packer_ok st →
  (∀ c, c ∈ input → codes !! bidx c = Some (Some (code_chars (enc c)))) →
  packer_ok (foldl (H00.put_byte codes) st input) ∧
  packed (foldl (H00.put_byte codes) st input) = packed st ++ flat_map enc input.
Proof.
  induction input as [|c input IH]; intros st Hok Hcodes.
  - cbn [foldl flat_map]. split; [done|]. by rewrite app_nil_r.
  - cbn [foldl flat_map].
    assert (H00.put_byte codes st c
            = foldl H00.put_code_char st (code_chars (enc c))) as ->.
    { unfold H00.put_byte. by rewrite (Hcodes c) by left. }
    destruct (put_code_spec (code_chars (enc c)) st Hok) as [Hok1 Hp1].
    destruct (IH _ Hok1) as [Hok2 Hp2].
    { intros c' Hc'. apply Hcodes. by right. }
    split; [done|].
    rewrite Hp2, Hp1, code_bits_chars, <- (assoc_L (++)). reflexivity.
Qed.

(** The bytes after the header: the packed bits and the zero bits that
    complete the last byte. *)
Lemma packer_flush_spec st :
  packer_ok st →
  ∃ padding,
    bits_of_bytes
      (if 0 <? H00.bit_count st
       then H00.written_bytes st ++
            [z2b (u8 (Z.shiftl (H00.buffer st) (8 - H00.bit_count st)))]
       else H00.written_bytes st)
    = packed st ++ replicate padding false.
Proof.
  intros Hok.
  destruct (bitBufferFlush_spec
              (Enc.mkBitBuffer (H00.written_bytes st) (H00.buffer st) (H00.bit_count st))
              Hok) as (Hbits & _ & _).
  eexists. unfold Enc.bitBufferFlush in Hbits.
  cbn [Enc.bits_used Enc.bit_buffer Enc.data] in Hbits.
  destruct (0 <? H00.bit_count st); exact Hbits.
Qed.

(** ** The decoding loop of [decodeFile] *)

Lemma decode_bits_walk idxs c root size : ∀ current output,
  H00.decode_bits idxs c root current output size
  = h00_walk ((λ i, Z.testbit c (Z.of_nat i)) <$> idxs) root current output size.
Proof.
  induction idxs as [|i idxs IH]; intros current output; [done|].
  cbn [H00.decode_bits fmap list_fmap h00_walk].
  destruct (size <=? Z.of_nat (length output)); [done|].
  rewrite land_shiftr_1 by lia.
  assert ((if Z.b2z (Z.testbit c (Z.of_nat i)) =? 0 then left current else right current)
          = (if Z.testbit c (Z.of_nat i) then right current else left current)) as ->.
  { by destruct (Z.testbit c (Z.of_nat i)). }
  destruct (if Z.testbit c (Z.of_nat i) then right current else left current)
    as [current'|]; [|done].
  destruct (is_leaf current'); apply IH.
Qed.

Lemma h00_walk_done bits root current output size :
  size <= Z.of_nat (length output) →
  h00_walk bits root current output size = (current, output, false).
Proof.
  intros Hdone. destruct bits as [|b bits]; [done|].
  cbn [h00_walk]. by rewrite (proj2 (Z.leb_le _ _) Hdone).
Qed.

Lemma h00_walk_app a root size : ∀ b current output,
  h00_walk (a ++ b) root current output size
  = let '(current', output', bad) := h00_walk a root current output size in
    if bad then (current', output', true)
    else h00_walk b root current' output' size.
Proof.
  induction a as [|x a IH]; intros b current output; [done|].
  cbn [app h00_walk].
  destruct (size <=? Z.of_nat (length output)) eqn:Hdone.
  { apply Z.leb_le in Hdone. by rewrite h00_walk_done. }
  destruct (if x then right current else left current) as [current'|]; [|done].
  destruct (is_leaf current'); apply IH.
Qed.

Lemma decode_loop_walk payload root size : ∀ current output,
  H00.decode_loop payload root current output size
  = let '(_, output', bad) :=
      h00_walk (bits_of_bytes payload) root current output size in
    H00.Return0 bad output'.
Proof.
  induction payload as [|c payload IH]; intros current output.
  - cbn [H00.decode_loop]. by destruct (_ <? _).
  - cbn [H00.decode_loop].
    destruct (Z.of_nat (length output) <? size) eqn:Hlt.
    + change (bits_of_bytes (c :: payload))
        with (bits_of_byte c ++ bits_of_bytes payload).
      rewrite h00_walk_app, decode_bits_walk.
      change ((λ i, Z.testbit (b2z c) (Z.of_nat i)) <$> [7; 6; 5; 4; 3; 2; 1; 0]%nat)
        with (bits_of_byte c).
      destruct (h00_walk (bits_of_byte c) root current output size)
        as [[current' output'] bad].
      destruct bad; [done|]. apply IH.
    + apply Z.ltb_ge in Hlt. by rewrite h00_walk_done.
Qed.

Section Walk.
Variables (root : Node) (size : Z).

Lemma h00_walk_symbol p : ∀ current c output rest,
  path_to current p c → is_leaf current = false →
  Z.of_nat (length output) < size →
  h00_walk (p ++ rest) root current output size
  = h00_walk rest root root (output ++ [c]) size.
Proof.
  induction p as [|b p IH]; intros current c output rest Hpath Hinner Hlt.
  - inversion Hpath; subst. done.
  - destruct (path_to_inner _ _ _ Hpath Hinner) as (b' & p' & t' & [= <- <-] & Ht' & Hp').
    cbn [app h00_walk]. rewrite (proj2 (Z.leb_gt _ _) Hlt).
    assert ((if b then right current else left current) = Some t') as ->.
    { by destruct b. }
    destruct (is_leaf t') eqn:Hleaf.
    + destruct (path_to_leaf _ _ _ Hp' Hleaf) as [-> ->]. done.
    + by apply IH.
Qed.

Lemma h00_walk_all (enc : byte → list bool) syms : ∀ output tail,
  is_leaf root = false →
  (∀ c, c ∈ syms → path_to root (enc c) c) →
  size = Z.of_nat (length output + length syms) →
  h00_walk (flat_map enc syms ++ tail) root root output size
  = (root, output ++ syms, false).
Proof.
  induction syms as [|c syms IH]; intros output tail Hroot Henc Hsize.
  - cbn [flat_map app]. rewrite app_nil_r. apply h00_walk_done.
    simpl in Hsize. lia.
  - cbn [flat_map]. rewrite <- (assoc_L (++)).
    rewrite (h00_walk_symbol (enc c) root c); [|apply Henc; left|done|simpl in Hsize; lia].
    rewrite IH; [by rewrite <- (assoc_L (++))|done|..].
    + intros c' Hc'. apply Henc. by right.
    + rewrite length_app. simpl in *. lia.
Qed.

End Walk.

(** ** The header of huffman-00 *)

Lemma le_long_le_bytes n : 0 <= n < 2 ^ 63 → H00.le_long (le_bytes 8 n) = n.
Proof.
  intros Hn. unfold H00.le_long. rewrite le_value_le_bytes.
  change (8 * Z.of_nat 8) with 64.
  rewrite Z.mod_small by (change (2 ^ 64) with (2 * 2 ^ 63); lia).
  by rewrite (proj2 (Z.ltb_lt n (2 ^ 63))) by lia.
Qed.

Lemma length_freq_bytes (freq : list Z) :
  length (flat_map (le_bytes 4) freq) = (4 * length freq)%nat.
Proof.
  induction freq as [|f freq IH]; [done|].
  cbn [flat_map length]. rewrite length_app, length_le_bytes, IH. lia.
Qed.

Lemma read_freq_written freq rest :
  Forall (λ x, 0 <= x < 2 ^ 32) freq →
  H00.read_freq (length freq) (flat_map (le_bytes 4) freq ++ rest) = freq.
Proof.
  induction 1 as [|f freq Hf _ IH]; [done|].
  cbn [length H00.read_freq flat_map]. rewrite <- (assoc_L (++)).
  rewrite (take_app_length' (le_bytes 4 f)) by (by rewrite length_le_bytes).
  rewrite (drop_app_length' (le_bytes 4 f)) by (by rewrite length_le_bytes).
  rewrite IH. f_equal. rewrite le_value_le_bytes.
  change (8 * Z.of_nat 4) with 32. by apply Z.mod_small.
Qed.

(** [decodeFile] on a file with a whole header: the size, the table and
    the payload. *)
Lemma decodeFile_parts size freq payload :
  0 <= size < 2 ^ 63 → freq_table_ok freq →
  H00.decodeFile (le_bytes 8 size ++ flat_map (le_bytes 4) freq ++ payload)
  = root ← H00.buildHuffmanTree freq H00.MAX_CHARS;
    if is_leaf root && (Top.freq root =? 0) then Some (H00.Return0 false [])
    else Some (H00.decode_loop payload root root [] size).
Proof.
  intros Hsize [Hlen Hrange]. unfold H00.decodeFile, H00.MAX_CHARS.
  pose proof (length_le_bytes 8 size) as H8.
  pose proof (length_freq_bytes freq) as H4. rewrite Hlen in H4.
  destruct (decide _) as [Hs|_]; [rewrite !length_app in Hs; lia|].
  rewrite (take_app_length' (le_bytes 8 size)) by done.
  rewrite (drop_app_length' (le_bytes 8 size)) by done.
  destruct (decide _) as [Hs|_]; [rewrite !length_app in Hs; lia|].
  cbv zeta. rewrite le_long_le_bytes by done.
  rewrite (drop_app_length' (flat_map (le_bytes 4) freq)) by lia.
  rewrite <- Hlen at 1. by rewrite read_freq_written.
Qed.

(** ** huffman-00, end to end *)

Lemma h00_encodeFile_spec input :
  Z.of_nat (length input) < 2 ^ 32 →
  ∃ root codes body padding,
    let freq := Enc.buildFreqTable input in
    H00.buildHuffmanTree freq H00.MAX_CHARS = Some root ∧
    H00.storeCodes root (replicate H00.MAX_CHARS None) [] = Some codes ∧
    H00.encodeFile input
    = Some (le_bytes 8 (Z.of_nat (length input)) ++
            flat_map (le_bytes 4) freq ++ body) ∧
    (input = [] → root = newNode "$" 0 None None ∧ body = []) ∧
    (input ≠ [] →
     is_leaf root = false ∧
     ∃ enc : byte → list bool,
       (∀ c, c ∈ input →
             path_to root (enc c) c ∧
             codes !! bidx c = Some (Some (code_chars (enc c)))) ∧
       bits_of_bytes body = flat_map enc input ++ replicate padding false).
Proof.
  intros Hlen. unfold H00.encodeFile.
  change (foldl (λ freq c, <[bidx c := u32 (freq !!! bidx c + 1)]> freq)
                (replicate H00.MAX_CHARS 0) input)
    with (Enc.buildFreqTable input).
  pose proof (buildFreqTable_ok input) as [Hfl Hfr].
  pose proof (λ b, buildFreqTable_pos input b Hlen) as Hpos.
  assert (input = [] → symbols_of (Enc.buildFreqTable input) = []) as Hnil.
  { intros ->. vm_compute. reflexivity. }
  remember (Enc.buildFreqTable input) as freq eqn:Hfreq. clear Hfreq.
  destruct (H00_buildHuffmanTree_leaves freq ltac:(lia)) as (root & Hbuild & Hroot).
  rewrite Hbuild. cbn [mbind option_bind].
  destruct input as [|b0 input0] eqn:Hin.
  - rewrite (Hnil eq_refl) in Hroot. subst root.
    eexists _, _, [], 0%nat. cbv zeta.
    split; [done|]. split; [reflexivity|]. split; [reflexivity|].
    split; [done|]. done.
  - rewrite <- Hin in *. clear Hnil.
    assert (symbols_of freq ≠ []) as Hne.
    { intros Hs. assert (b0 ∈ symbols_of freq) as Hb.
      { apply elem_of_symbols_of; [lia|]. apply Hpos. rewrite Hin. left. }
      rewrite Hs in Hb. by apply elem_of_nil in Hb. }
    destruct (symbols_of freq) as [|s0 ss] eqn:Hsym; [done|].
    rewrite <- Hsym in *. destruct Hroot as (Hinner & Hleaves & Hheight).
    assert (NoDup (leaves root)) as Hnd by (rewrite Hleaves; apply NoDup_symbols_of).
    destruct (storeCodes_spec root (replicate H00.MAX_CHARS None) [])
      as (codes & Hstore & Hcl & _ & Hpaths); [simpl; lia|].
    change (code_chars []) with (@nil byte) in Hstore.
    rewrite Hstore. cbn [mbind option_bind].
    specialize (Hpaths Hnd eq_refl).
    set (enc := λ c : byte,
           match codes !! bidx c with
           | Some (Some code) => code_bits code
           | _ => []
           end).
    assert (∀ c, c ∈ input →
              path_to root (enc c) c ∧
              codes !! bidx c = Some (Some (code_chars (enc c)))) as Henc.
    { intros c Hc.
      assert (c ∈ leaves root) as Hcl'.
      { rewrite Hleaves. apply elem_of_symbols_of; [lia|]. by apply Hpos. }
      destruct (leaves_path_to root c Hcl') as [p Hp].
      pose proof (Hpaths c p Hp) as Hcode. cbn [app] in Hcode.
      unfold enc. rewrite Hcode, code_bits_chars. done. }
    destruct (put_bytes_spec codes enc input (H00.mkPacker [] 0 0)) as [Hok Hpacked].
    { unfold packer_ok. simpl. lia. }
    { intros c Hc. by apply Henc. }
    destruct (packer_flush_spec _ Hok) as [padding Hflush].
    cbv zeta. eexists root, codes, _, padding.
    split; [done|]. split; [done|]. split; [reflexivity|].
    split; [by intros ->|]. intros _. split; [done|].
    exists enc. split; [done|]. rewrite Hflush, Hpacked. reflexivity.
Qed.

(** X18: huffman-00 round trip.  For every input of fewer than 2^32
    bytes, the empty one included, [encodeFile] writes a file and
    [decodeFile] on that file writes exactly the input, without the
    message "Invalid Huffman tree path". *)
Theorem h00_roundtrip (input : list byte) :
  Z.of_nat (length input) < 2 ^ 32 →
  ∃ file,
    H00.encodeFile input = Some file ∧
    H00.decodeFile file = Some (H00.Return0 false input).
Proof.
  intros Hlen.
  destruct (h00_encodeFile_spec input Hlen)
    as (root & codes & body & padding & Hbuild & _ & Henc & Hempty & Hfull).
  cbv zeta in *. eexists. split; [exact Henc|].
  rewrite decodeFile_parts; [|lia|apply buildFreqTable_ok].
  rewrite Hbuild. cbn [mbind option_bind].
  destruct input as [|b0 input0] eqn:Hin.
  - destruct (Hempty eq_refl) as [-> ->]. reflexivity.
  - rewrite <- Hin in *.
    destruct Hfull as (Hinner & enc & Hcodes & Hbits); [by rewrite Hin|].
    rewrite Hinner. cbn [andb].
    rewrite decode_loop_walk, Hbits.
    rewrite (h00_walk_all root _ enc input [] _ Hinner); [done| |done].
    intros c Hc. by apply Hcodes.
Qed.

Lemma h00_roundtrip_witness :
  Z.of_nat (length aaabbc) < 2 ^ 32 ∧
  ∃ file, H00.encodeFile aaabbc = Some file ∧
          H00.decodeFile file = Some (H00.Return0 false aaabbc).
Proof.
  assert (Z.of_nat (length aaabbc) < 2 ^ 32) as H by (vm_compute; reflexivity).
  split; [exact H|]. exact (h00_roundtrip aaabbc H).
Defined.

(** X19: on a tree lower than 256 levels whose leaves hold distinct
    symbols, [storeCodes] stores for every leaf the string of its path
    from the root, '0' for a left branch and '1' for a right one, and
    leaves the entries of all other symbols as they were. *)
Theorem storeCodes_strings_are_the_paths
    (t : Node) (codes : list (option (list byte))) :
  NoDup (leaves t) → (height t < 256)%nat → length codes = 256%nat →
  ∃ codes',
    H00.storeCodes t codes [] = Some codes' ∧ length codes' = 256%nat ∧
    (∀ i, (∀ c, c ∈ leaves t → i ≠ bidx c) → codes' !! i = codes !! i) ∧
    ∀ c p, path_to t p c → codes' !! bidx c = Some (Some (code_chars p)).
Proof.
  intros Hnd Hh Hlen.
  destruct (storeCodes_spec t codes []) as (codes' & Hs & Hl & Hsame & Hpath);
    [simpl; lia|].
  exists codes'. split; [exact Hs|]. split; [lia|]. split; [done|].
  intros c p Hp. by apply Hpath.
Qed.

Lemma storeCodes_strings_are_the_paths_witness :
  NoDup (leaves tree_ab) ∧ (height tree_ab < 256)%nat ∧
  length (replicate H00.MAX_CHARS (@None (list byte))) = 256%nat ∧
  ∃ codes',
    H00.storeCodes tree_ab (replicate H00.MAX_CHARS None) [] = Some codes' ∧
    codes' !! bidx "b" = Some (Some ["1"%byte]).
Proof.
  assert (NoDup (leaves tree_ab)) as H1.
  { change (NoDup ["a"; "b"]%byte). apply list.NoDup_cons.
    split; [|apply NoDup_singleton].
    intros H. apply list_elem_of_singleton in H. discriminate H. }
  assert (height tree_ab < 256)%nat as H2 by (vm_compute; lia).
  assert (length (replicate H00.MAX_CHARS (@None (list byte))) = 256%nat) as H3
    by reflexivity.
  split; [exact H1|]. split; [exact H2|]. split; [exact H3|].
  destruct (storeCodes_strings_are_the_paths tree_ab
              (replicate H00.MAX_CHARS None) H1 H2 H3)
    as (codes' & Hs & _ & _ & Hpath).
  exists codes'. split; [exact Hs|].
  apply (Hpath "b"%byte [true]). apply path_right. apply path_here.
Defined.

(** X20: [buildHuffmanTree] of huffman-00 returns a tree for every table
    of 256 counters, never [NULL]: the leaf ['$'] of frequency 0 when
    every count is zero, and otherwise a root that is not a leaf, over a
    tree lower than 256 levels whose leaves are the symbols with a
    nonzero count, each once. *)
Theorem h00_tree_of_the_table (freq : list Z) :
  length freq = 256%nat →
  ∃ root,
    H00.buildHuffmanTree freq H00.MAX_CHARS = Some root ∧
    match symbols_of freq with
    | [] => root = newNode "$" 0 None None
    | _ => is_leaf root = false ∧ leaves root ≡ₚ symbols_of freq ∧
           NoDup (leaves root) ∧ (height root < 256)%nat
    end.
Proof.
  intros Hlen.
  destruct (H00_buildHuffmanTree_leaves freq ltac:(lia)) as (root & Hb & Hr).
  exists root. split; [done|].
  pose proof (NoDup_symbols_of freq) as Hnd.
  destruct (symbols_of freq) as [|s ss] eqn:Hs; [done|].
  destruct Hr as (H1 & H2 & H3). split; [done|]. split; [done|].
  split; [by rewrite H2|done].
Qed.

Lemma h00_tree_of_the_table_witness :
  length aaabbc_freq = 256%nat ∧
  ∃ root, H00.buildHuffmanTree aaabbc_freq H00.MAX_CHARS = Some root ∧
          is_leaf root = false ∧ leaves root ≡ₚ symbols_of aaabbc_freq.
Proof.
  assert (length aaabbc_freq = 256%nat) as H by reflexivity.
  split; [exact H|].
  destruct (h00_tree_of_the_table aaabbc_freq H) as (root & Hb & Hr).
  exists root. split; [exact Hb|].
  change (symbols_of aaabbc_freq) with ["a"; "b"; "c"]%byte in Hr |- *.
  destruct Hr as (H1 & H2 & _). split; [exact H1|exact H2].
Defined.

(** ** [decodeFile] on any file *)

Lemma h00_walk_length bits root size : ∀ current output,
  Z.of_nat (length (h00_walk bits root current output size).1.2)
  <= Z.max (Z.of_nat (length output)) size.
Proof.
  induction bits as [|b bits IH]; intros current output.
  - cbn [h00_walk fst snd]. lia.
  - cbn [h00_walk].
    destruct (size <=? Z.of_nat (length output)) eqn:Hdone; [cbn [fst snd]; lia|].
    apply Z.leb_gt in Hdone.
    destruct (if b then right current else left current) as [current'|];
      [|cbn [fst snd]; lia].
    destruct (is_leaf current').
    + etrans; [apply IH|]. rewrite length_app. simpl. lia.
    + etrans; [apply IH|]. lia.
Qed.

Lemma length_read_freq n : ∀ bs, length (H00.read_freq n bs) = n.
Proof. induction n as [|n IH]; intros bs; [done|]. cbn [H00.read_freq length]. by rewrite IH. Qed.

(** X21: [decodeFile] exits with status 1 exactly when the file is
    shorter than its header of 8 + 4 * 256 bytes.  On every other file,
    however corrupt, it returns to [main], which exits with status 0,
    and it has written no more bytes than the size field of the header
    says: none when that size is zero or negative. *)
Theorem h00_decodeFile_fails_only_on_a_short_header (file : list byte) :
  match H00.decodeFile file with
  | Some H00.Exit1 => (length file < 1032)%nat
  | Some (H00.Return0 _ output) =>
      (1032 ≤ length file)%nat ∧
      Z.of_nat (length output) <= Z.max 0 (H00.le_long (take 8 file))
  | None => False
  end.
Proof.
  unfold H00.decodeFile, H00.MAX_CHARS.
  destruct (decide (length file < 8)%nat) as [|H8]; [lia|].
  destruct (decide _) as [Hs|Hs]; [rewrite length_drop in Hs; lia|].
  rewrite length_drop in Hs. cbv zeta.
  destruct (H00_buildHuffmanTree_leaves (H00.read_freq 256 (drop 8 file)))
    as (root & Hb & _); [by rewrite length_read_freq|].
  unfold H00.MAX_CHARS in Hb. rewrite Hb. cbn [mbind option_bind].
  destruct (is_leaf root && (Top.freq root =? 0)).
  - split; [lia|]. simpl. lia.
  - rewrite decode_loop_walk.
    pose proof (h00_walk_length (bits_of_bytes (drop (4 * 256) (drop 8 file))) root
                  (H00.le_long (take 8 file)) root []) as Hl.
    destruct (h00_walk _ _ _ _ _) as [[cur out] bad]. cbn [fst snd length] in Hl.
    split; [lia|]. lia.
Qed.

(** ** What the checksum detects *)

Lemma crc32_fold data :
  crc32 data = Z.lxor (foldl crc_update 0xFFFFFFFF data) 0xFFFFFFFF.
Proof. reflexivity. Qed.

Lemma lxor_cancel_l a x y : Z.lxor a x = Z.lxor a y → x = y.
Proof.
  intros H. rewrite <- (Z.lxor_0_l x), <- (Z.lxor_0_l y).
  rewrite <- (Z.lxor_nilpotent a), !Z.lxor_assoc. by rewrite H.
Qed.

Lemma lxor_cancel_r a x y : Z.lxor x a = Z.lxor y a → x = y.
Proof. rewrite !(Z.lxor_comm _ a). apply lxor_cancel_l. Qed.

Lemma land_lxor_distr a b c :
  Z.land (Z.lxor a b) c = Z.lxor (Z.land a c) (Z.land b c).
Proof.
  apply Z.bits_inj'. intros n Hn.
  rewrite Z.land_spec, !Z.lxor_spec, !Z.land_spec.
  by destruct (Z.testbit a n), (Z.testbit b n), (Z.testbit c n).
Qed.

Lemma crc_index_lt crc b :
  (Z.to_nat (Z.land (Z.lxor crc (b2z b)) 0xFF) < 256)%nat.
Proof.
  change 255 with (Z.ones 8). rewrite Z.land_ones by lia.
  pose proof (Z.mod_pos_bound (Z.lxor crc (b2z b)) (2 ^ 8) ltac:(lia)).
  change (2 ^ 8) with 256 in *. lia.
Qed.

Lemma crc_index_inj crc1 crc2 b1 b2 :
  Z.to_nat (Z.land (Z.lxor crc1 (b2z b1)) 0xFF)
  = Z.to_nat (Z.land (Z.lxor crc2 (b2z b2)) 0xFF) →
  Z.lxor (Z.land crc1 0xFF) (b2z b1) = Z.lxor (Z.land crc2 0xFF) (b2z b2).
Proof.
  intros H.
  assert (∀ crc b, Z.land (Z.lxor crc (b2z b)) 255
                   = Z.lxor (Z.land crc 255) (b2z b)) as Hd.
  { intros crc b. rewrite land_lxor_distr. f_equal.
    change 255 with (Z.ones 8). rewrite Z.land_ones by lia.
    apply Z.mod_small. pose proof (b2z_range b). change (2 ^ 8) with 256. lia. }
  rewrite <- !Hd.
  assert (∀ crc b, 0 <= Z.land (Z.lxor crc (b2z b)) 255) as Hpos.
  { intros crc b. change 255 with (Z.ones 8). rewrite Z.land_ones by lia.
    apply Z.mod_pos_bound. lia. }
  pose proof (Hpos crc1 b1). pose proof (Hpos crc2 b2). lia.
Qed.

(** The top bytes of the 256 entries of the table are all different. *)
Lemma crc_table_top_bytes :
  NoDup ((λ t, Z.shiftr t 24) <$> init_crc32).
Proof.
  apply (bool_decide_unpack (NoDup ((λ t, Z.shiftr t 24) <$> init_crc32))).
  vm_compute. exact I.
Qed.

Lemma crc_table_inj i j :
  (i < 256)%nat → (j < 256)%nat →
  Z.shiftr (init_crc32 !!! i) 24 = Z.shiftr (init_crc32 !!! j) 24 → i = j.
Proof.
  intros Hi Hj Heq.
  assert (length init_crc32 = 256%nat) as Hlen by reflexivity.
  destruct (lookup_lt_is_Some_2 init_crc32 i ltac:(lia)) as [x Hx].
  destruct (lookup_lt_is_Some_2 init_crc32 j ltac:(lia)) as [y Hy].
  rewrite (list_lookup_total_correct _ _ _ Hx), (list_lookup_total_correct _ _ _ Hy) in Heq.
  apply (NoDup_lookup _ i j (Z.shiftr x 24) crc_table_top_bytes).
  - by rewrite list_lookup_fmap, Hx.
  - by rewrite list_lookup_fmap, Hy, Heq.
Qed.

Lemma shiftr_8_24 crc : 0 <= crc < 2 ^ 32 → Z.shiftr (Z.shiftr crc 8) 24 = 0.
Proof.
  intros Hr. rewrite Z.shiftr_shiftr by lia. change (8 + 24) with 32.
  rewrite Z.shiftr_div_pow2 by lia. by apply Z.div_small.
Qed.

Lemma crc_update_range crc b : 0 <= crc < 2 ^ 32 → 0 <= crc_update crc b < 2 ^ 32.
Proof.
  intros Hr. unfold crc_update. apply lxor_bound; [lia|apply init_crc32_range|].
  rewrite Z.shiftr_div_pow2 by lia. split; [apply Z.div_pos; lia|].
  apply Z.div_lt_upper_bound; lia.
Qed.

(** One step of the loop is injective in the byte ... *)
Lemma crc_update_inj_byte crc x y : crc_update crc x = crc_update crc y → x = y.
Proof.
  unfold crc_update. intros H. apply lxor_cancel_r in H.
  apply (f_equal (λ t, Z.shiftr t 24)) in H.
  apply crc_table_inj in H; [|apply crc_index_lt..].
  apply crc_index_inj, lxor_cancel_l in H. by apply b2z_inj.
Qed.

(** ... and in the running checksum. *)
Lemma crc_update_inj_crc b crc1 crc2 :
  0 <= crc1 < 2 ^ 32 → 0 <= crc2 < 2 ^ 32 →
  crc_update crc1 b = crc_update crc2 b → crc1 = crc2.
Proof.
  unfold crc_update. intros H1 H2 H.
  pose proof (f_equal (λ t, Z.shiftr t 24) H) as Htop. cbv beta in Htop.
  rewrite !Z.shiftr_lxor, !shiftr_8_24, !Z.lxor_0_r in Htop by done.
  apply crc_table_inj in Htop; [|apply crc_index_lt..].
  rewrite Htop in H. apply lxor_cancel_l in H.
  apply crc_index_inj, lxor_cancel_r in Htop.
  rewrite !Z.shiftr_div_pow2 in H by lia.
  change 255 with (Z.ones 8) in Htop. rewrite !Z.land_ones in Htop by lia.
  rewrite (Z.div_mod crc1 (2 ^ 8)), (Z.div_mod crc2 (2 ^ 8)) by lia.
  by rewrite H, Htop.
Qed.

Lemma crc_fold_range data : ∀ crc,
  0 <= crc < 2 ^ 32 → 0 <= foldl crc_update crc data < 2 ^ 32.
Proof.
  induction data as [|b data IH]; intros crc Hr; [done|].
  cbn [foldl]. apply IH. by apply crc_update_range.
Qed.

Lemma crc_fold_inj data : ∀ crc1 crc2,
  0 <= crc1 < 2 ^ 32 → 0 <= crc2 < 2 ^ 32 →
  foldl crc_update crc1 data = foldl crc_update crc2 data → crc1 = crc2.
Proof.
  induction data as [|b data IH]; intros crc1 crc2 H1 H2 H; [done|].
  cbn [foldl] in H. apply IH in H; [|by apply crc_update_range..].
  by apply (crc_update_inj_crc b).
Qed.

(** X22: the checksum detects every change of a single byte: two
    buffers that differ in one byte only, wherever it is, have different
    CRC-32 values. *)
Theorem crc32_detects_a_changed_byte (before after : list byte) (x y : byte) :
  x ≠ y → crc32 (before ++ x :: after) ≠ crc32 (before ++ y :: after).
Proof.
  intros Hne Heq. apply Hne. rewrite !crc32_fold in Heq.
  apply lxor_cancel_r in Heq. rewrite !foldl_app in Heq. cbn [foldl] in Heq.
  assert (0 <= foldl crc_update 4294967295 before < 2 ^ 32) as Hr
    by (apply crc_fold_range; lia).
  apply crc_fold_inj in Heq; [|by apply crc_update_range..].
  by apply crc_update_inj_byte in Heq.
Qed.

Lemma crc32_detects_a_changed_byte_witness :
  "b"%byte ≠ "c"%byte ∧
  crc32 (["a"] ++ "b" :: ["d"])%byte ≠ crc32 (["a"] ++ "c" :: ["d"])%byte.
Proof.
  assert ("b"%byte ≠ "c"%byte) as H by discriminate.
  split; [exact H|].
  exact (crc32_detects_a_changed_byte ["a"%byte] ["d"%byte] "b"%byte "c"%byte H).
Defined.

(** ** Every way [main] of enc.c can end *)

(** The table of [main] for a tree of at most 32 levels: the symbols of
    the tree have a code and no other symbol has one. *)
Lemma main_codes_table root :
  NoDup (leaves root) → (height root ≤ 32)%nat →
  ∃ codes,
    Enc.main_codes root = Some codes ∧ length codes = 256%nat ∧
    Forall entry_ok codes ∧
    ∀ b, (b ∈ leaves root → Enc.len (codes !!! bidx b) ≠ 0) ∧
         (b ∉ leaves root → Enc.len (codes !!! bidx b) = 0).
Proof.
  intros Hnd Hh.
  destruct (main_codes_spec root Hnd Hh) as (codes & Hcodes & Hcl & Hentries).
  exists codes. split; [done|]. split; [done|].
  assert (∀ i, (∀ c, c ∈ leaves root → i ≠ bidx c) →
               codes !! i = replicate MAXN (Enc.mkCodeEntry [] 0) !! i) as Hother.
  { intros i Hi. unfold Enc.main_codes in Hcodes.
    destruct (is_leaf root) eqn:Hl; cbn [negb] in Hcodes.
    - injection Hcodes as <-.
      destruct root as [c f [l|] [r|]]; try discriminate.
      apply list_lookup_insert_ne. intros Heq. apply (Hi c); [simpl; left|done].
    - destruct (generateCodes_spec root (replicate MAXN (Enc.mkCodeEntry [] 0)) 0 [])
        as (codes' & Hg & _ & Hsame & _); [simpl; lia|apply holds_nil|].
      simpl in Hg. rewrite Hg in Hcodes. injection Hcodes as <-.
      by apply Hsame. }
  split.
  - apply Forall_lookup_2. intros i e He.
    destruct (decide (Exists (λ c, i = bidx c) (leaves root))) as [Hex|Hnex].
    + apply list.Exists_exists in Hex as (c & Hc & ->).
      destruct (Hentries c Hc) as (e' & He' & Hok & _). by simplify_eq.
    + rewrite <- Forall_Exists_neg, list.Forall_forall in Hnex.
      rewrite Hother in He by (intros c Hc; by apply Hnex).
      apply lookup_replicate in He as [-> _]. unfold entry_ok. simpl. lia.
  - intros b. split.
    + intros Hb. destruct (Hentries b Hb) as (e & He & _ & Hn0 & _).
      by rewrite (list_lookup_total_correct _ _ _ He).
    + intros Hb. pose proof (bidx_lt b) as Hlt.
      assert (codes !! bidx b = Some (Enc.mkCodeEntry [] 0)) as He.
      { rewrite Hother.
        - apply lookup_replicate. split; [done|]. by rewrite MAXN_eq.
        - intros c Hc Heq. apply bidx_inj in Heq as <-. done. }
      by rewrite (list_lookup_total_correct _ _ _ He).
Qed.

Lemma pack_code_deep code depth : (32 < depth)%nat → Enc.pack_code code depth = None.
Proof.
  intros Hd. unfold Enc.pack_code.
  destruct depth as [|d]; [lia|]. rewrite <- cons_seq. cbn [foldl].
  assert (Enc.pack_bit code (S d) (Some (replicate ((S d + 7) / 8) 0)) 0 = None) as ->.
  { unfold Enc.pack_bit. cbn [mbind option_bind].
    destruct (decide (32 ≤ S d - 1 - 0)%nat); [done|lia]. }
  induction (seq 1 d) as [|i idxs IH]; [done|]. cbn [foldl]. exact IH.
Qed.

(** On a tree with a leaf below level 32 [generateCodes] has no defined
    result. *)
Lemma generateCodes_deep t : ∀ codes code depth,
  (32 < depth + height t)%nat → Enc.generateCodes t codes code depth = None.
Proof.
  induction t as [c0 f l r IHl IHr] using Node_ind'. intros codes code depth Hh.
  destruct l as [ln|] eqn:El, r as [rn|] eqn:Er; cbn [Enc.generateCodes height] in *.
  - destruct (decide (32 < S depth + height ln)%nat) as [Hl|Hl].
    + by rewrite (IHl ln eq_refl _ _ _ Hl).
    + destruct (Enc.generateCodes ln _ _ _) as [codes1|]; [|done].
      cbn [mbind option_bind]. apply (IHr rn eq_refl). lia.
  - rewrite (IHl ln eq_refl); [done|lia].
  - cbn [mbind option_bind]. apply (IHr rn eq_refl). lia.
  - rewrite pack_code_deep by lia. done.
Qed.

(** X23: the ways [main] of enc.c can end.  It prints "Input file is
    empty" exactly for the empty input, "Failed to build Huffman tree"
    only when every counter has wrapped to zero, and "Compression
    failed" only when the counter of some byte of the input has wrapped
    to zero; it never prints "Could not write frequency table"; when it
    succeeds every byte of the input has a nonzero count; and it has no
    defined result only on a tree of more than 32 levels. *)
Theorem Enc_main_outcomes (input : list byte) :
  match Enc.main input with
  | Some (Failure EmptyInput) => input = []
  | Some (Failure TreeBuildFailed) =>
      input ≠ [] ∧ ∀ b, Enc.buildFreqTable input !!! bidx b = 0
  | Some (Failure CompressionFailed) =>
      ∃ b, b ∈ input ∧ Enc.buildFreqTable input !!! bidx b = 0
  | Some (Failure _) => False
  | Some (Success file) =>
      input ≠ [] ∧ ∀ b, b ∈ input → 0 < Enc.buildFreqTable input !!! bidx b
  | None => (32 < tree_height input)%nat
  end.
Proof.
  unfold Enc.main, tree_height. cbv zeta.
  destruct (Z.of_nat (length input) <=? 0) eqn:Hempty.
  { apply Z.leb_le in Hempty. destruct input; [done|simpl in Hempty; lia]. }
  assert (input ≠ []) as Hne by (intros ->; discriminate).
  pose proof (buildFreqTable_ok input) as [Hfl Hfr].
  remember (Enc.buildFreqTable input) as freq eqn:Hfreq. clear Hfreq.
  assert (∀ b, 0 <= freq !!! bidx b) as Hpos.
  { intros b. pose proof (bidx_lt b).
    destruct (lookup_lt_is_Some_2 freq (bidx b) ltac:(lia)) as [f Hf].
    rewrite (list_lookup_total_correct _ _ _ Hf).
    pose proof (Forall_lookup_1 _ _ _ _ Hfr Hf) as Hr. cbv beta in Hr. lia. }
  destruct (buildHuffmanTree_spec freq ltac:(lia)) as (r & -> & Hr).
  cbn [mbind option_bind].
  destruct r as [root|]; last first.
  { split; [done|]. intros b. specialize (Hpos b).
    assert (¬ 0 < freq !!! bidx b); [|lia].
    rewrite <- elem_of_symbols_of by lia. rewrite Hr. apply not_elem_of_nil. }
  destruct Hr as (Hstrict & Hleaves & _ & _).
  assert (NoDup (leaves root)) as Hnd by (rewrite Hleaves; apply NoDup_symbols_of).
  assert (∀ b, b ∈ leaves root ↔ 0 < freq !!! bidx b) as Hin.
  { intros b. rewrite Hleaves. apply elem_of_symbols_of. lia. }
  destruct (decide (height root ≤ 32)%nat) as [Hh|Hh]; last first.
  { assert (Enc.main_codes root = None) as ->; [|cbn [mbind option_bind]; lia].
    unfold Enc.main_codes.
    destruct root as [c f [l|] [r|]]; cbn [is_leaf negb];
      try (apply generateCodes_deep; lia).
    simpl in Hh. lia. }
  destruct (main_codes_table root Hnd Hh) as (codes & -> & Hcl & Hok & Hlens).
  cbn [mbind option_bind].
  pose proof (compress_loop_cases codes input Enc.bitBufferInit Hcl Hok buffer_ok_init)
    as Hc.
  unfold Enc.compress.
  destruct (Enc.compress_loop input codes Enc.bitBufferInit) as [[buf|]|]; [| |done].
  - cbn [mbind option_bind]. destruct Hc as (Hall & _ & _).
    assert (∀ b, b ∈ input → 0 < freq !!! bidx b) as Hcounts.
    { intros b Hb.
      destruct (decide (0 < freq !!! bidx b)) as [|Hz]; [done|].
      rewrite list.Forall_forall in Hall. specialize (Hall b Hb).
      exfalso. apply Hall. apply Hlens. by rewrite Hin. }
    rewrite writeFreqTable_spec by lia.
    destruct (Z.of_nat (length (table_entries freq (seq 0 MAXN))) =? 0) eqn:Hts; [|done].
    apply Z.eqb_eq in Hts. rewrite length_table_entries_symbols in Hts.
    destruct input as [|b ?]; [done|].
    assert (b ∈ symbols_of freq) as Hb.
    { rewrite <- Hleaves. apply Hin, Hcounts. left. }
    destruct (symbols_of freq); [by apply elem_of_nil in Hb|simpl in Hts; lia].
  - cbn [mbind option_bind].
    apply list.Exists_exists in Hc as (b & Hb & Hlen).
    exists b. split; [done|]. specialize (Hpos b).
    assert (¬ 0 < freq !!! bidx b); [|lia].
    intros Hp. apply Hin in Hp. by apply (proj1 (Hlens b)) in Hp.
Qed.

End MoreProperties.

Section FirstVariantHeap.

#[local] Arguments Nat.div : simpl never.
#[local] Arguments Nat.modulo : simpl never.
#[local] Arguments Nat.mul : simpl never.
#[local] Arguments seq : simpl never.

(** ** The heap order of huffman-00 *)

Lemma parent0_cases (i j : nat) :
  (1 ≤ i → (i - 1) / 2 = j → i = 2 * j + 1 ∨ i = 2 * j + 2)%nat.
Proof.
  intros Hi <-. pose proof (Nat.div_mod_eq (i - 1) 2).
  pose proof (Nat.mod_upper_bound (i - 1) 2). lia.
Qed.

Lemma parent0_lt (i : nat) : (1 ≤ i → (i - 1) / 2 < i)%nat.
Proof. intros. apply Nat.Div0.div_lt_upper_bound. lia. Qed.

Lemma parent0_left (j : nat) : ((2 * j + 1 - 1) / 2 = j)%nat.
Proof. replace (2 * j + 1 - 1)%nat with (j * 2)%nat by lia. apply Nat.div_mul. lia. Qed.

Lemma parent0_right (j : nat) : ((2 * j + 2 - 1) / 2 = j)%nat.
Proof.
  replace (2 * j + 2 - 1)%nat with (j * 2 + 1)%nat by lia.
  rewrite Nat.div_add_l by lia. rewrite (Nat.div_small 1 2) by lia. lia.
Qed.

(** [minHeapify] at the slot [j], on the way down from the slot [k]:
    the order holds from [k] on but below [j], and the children of [j]
    are not below its parent. *)
Lemma minHeapify_heap fuel k : ∀ a j a',
  H00.minHeapify fuel a j = Some a' → (k ≤ j < length a)%nat →
  (∀ i p c, (1 ≤ i)%nat → (k ≤ (i - 1) / 2)%nat → ((i - 1) / 2)%nat ≠ j →
            a !! ((i - 1) / 2)%nat = Some p → a !! i = Some c → freq p <= freq c) →
  (∀ i p c, (1 ≤ j)%nat → (k ≤ (j - 1) / 2)%nat → (1 ≤ i)%nat → ((i - 1) / 2)%nat = j →
            a !! ((j - 1) / 2)%nat = Some p → a !! i = Some c → freq p <= freq c) →
  heap0_from k a'.
Proof.
  induction fuel as [|fuel IH]; intros a j a' Hrun Hj Hrest Hgrand; [discriminate|].
  cbn [H00.minHeapify] in Hrun. cbv zeta in Hrun.
  destruct (a !! j) as [at_j|] eqn:Hat; [|discriminate].
  cbn [mbind option_bind] in Hrun.
  (* the smaller of the slot and its left child *)
  assert (∃ s at_s, a !! s = Some at_s ∧ (s = j ∨ s = 2 * j + 1)%nat ∧
            freq at_s <= freq at_j ∧ (s ≠ j → freq at_s < freq at_j) ∧
            (∀ x, a !! (2 * j + 1)%nat = Some x → freq at_s <= freq x) ∧
            (at_smallest ← a !! s;
             smallest' ← (if decide (2 * j + 2 < length a)%nat
                          then at_r ← a !! (2 * j + 2)%nat;
                               Some (if freq at_r <? freq at_smallest
                                     then (2 * j + 2)%nat else s)
                          else Some s);
             if decide (smallest' = j) then Some a
             else at_s ← a !! smallest';
                  H00.minHeapify fuel (<[smallest' := at_j]> (<[j := at_s]> a)) smallest')
            = Some a') as (s & at_s & Hs & Hscase & Hsle & Hslt & Hsl & Hrun1).
  { destruct (decide (2 * j + 1 < length a)%nat) as [Hl|Hl].
    - destruct (a !! (2 * j + 1)%nat) as [at_l|] eqn:Hatl; [|discriminate].
      cbn [mbind option_bind] in Hrun.
      destruct (freq at_l <? freq at_j) eqn:Hcmp.
      + apply Z.ltb_lt in Hcmp. exists (2 * j + 1)%nat, at_l.
        split; [done|]. split; [by right|]. split; [lia|]. split; [lia|].
        split; [|done]. intros x Hx. simplify_eq. lia.
      + apply Z.ltb_ge in Hcmp. exists j, at_j.
        split; [done|]. split; [by left|]. split; [lia|]. split; [done|].
        split; [|done]. intros x Hx. simplify_eq. lia.
    - cbn [mbind option_bind] in Hrun. exists j, at_j.
      split; [done|]. split; [by left|]. split; [lia|]. split; [done|].
      split; [|done]. intros x Hx. apply lookup_lt_Some in Hx. lia. }
  clear Hrun. rewrite Hs in Hrun1. cbn [mbind option_bind] in Hrun1.
  (* the smallest of the three *)
  assert (∃ s' at_s', a !! s' = Some at_s' ∧
            (s' = j ∨ s' = 2 * j + 1 ∨ s' = 2 * j + 2)%nat ∧
            freq at_s' <= freq at_j ∧ (s' ≠ j → freq at_s' < freq at_j) ∧
            (∀ i x, (1 ≤ i)%nat → ((i - 1) / 2)%nat = j → a !! i = Some x →
                    freq at_s' <= freq x) ∧
            (if decide (s' = j) then Some a
             else at_s ← a !! s';
                  H00.minHeapify fuel (<[s' := at_j]> (<[j := at_s]> a)) s')
            = Some a') as (s' & at_s' & Hs' & Hs'case & Hs'le & Hs'lt & Hs'ch & Hrun2).
  { assert (∀ v, (∀ x, a !! (2 * j + 1)%nat = Some x → freq v <= freq x) →
                 (∀ x, a !! (2 * j + 2)%nat = Some x → freq v <= freq x) →
                 ∀ i x, (1 ≤ i)%nat → ((i - 1) / 2)%nat = j → a !! i = Some x →
                        freq v <= freq x) as Hboth.
    { intros v Hl Hr i x Hi Hp Hx.
      destruct (parent0_cases i j Hi Hp) as [-> | ->]; [by apply Hl|by apply Hr]. }
    destruct (decide (2 * j + 2 < length a)%nat) as [Hr|Hr].
    - destruct (a !! (2 * j + 2)%nat) as [at_r|] eqn:Hatr; [|discriminate].
      cbn [mbind option_bind] in Hrun1.
      destruct (freq at_r <? freq at_s) eqn:Hcmp.
      + apply Z.ltb_lt in Hcmp. exists (2 * j + 2)%nat, at_r.
        split; [done|]. split; [by right; right|]. split; [lia|]. split; [lia|].
        split; [|done]. apply Hboth.
        * intros x Hx. specialize (Hsl x Hx). lia.
        * intros x Hx. simplify_eq. lia.
      + apply Z.ltb_ge in Hcmp. exists s, at_s.
        split; [done|]. split; [destruct Hscase; auto|]. split; [done|]. split; [done|].
        split; [|done]. apply Hboth; [done|].
        intros x Hx. simplify_eq. lia.
    - cbn [mbind option_bind] in Hrun1. exists s, at_s.
      split; [done|]. split; [destruct Hscase; auto|]. split; [done|]. split; [done|].
      split; [|done]. apply Hboth; [done|].
      intros x Hx. apply lookup_lt_Some in Hx. lia. }
  clear Hrun1 Hs Hscase Hsle Hslt Hsl s at_s.
  destruct (decide (s' = j)) as [->|Hne].
  - (* nothing to swap *)
    injection Hrun2 as <-. simplify_eq.
    intros i p c Hi Hk Hp Hc.
    destruct (decide (((i - 1) / 2)%nat = j)) as [Hpj|Hpj].
    + rewrite Hpj, Hat in Hp. injection Hp as <-. by apply (Hs'ch i).
    + by apply (Hrest i).
  - rewrite Hs' in Hrun2. cbn [mbind option_bind] in Hrun2.
    specialize (Hs'lt Hne).
    assert (j < s' ∧ (s' - 1) / 2 = j)%nat as [Hjs Hps'].
    { destruct Hs'case as [->|[-> | ->]]; [done|..].
      - split; [lia|apply parent0_left].
      - split; [lia|apply parent0_right]. }
    pose proof (lookup_lt_Some _ _ _ Hs') as Hs'len.
    apply (IH _ _ _ Hrun2).
    + rewrite !length_insert. lia.
    + intros i p c Hi Hk Hpne Hp Hc.
      pose proof (parent0_lt i Hi) as Hplt.
      destruct (decide (((i - 1) / 2)%nat = j)) as [Hpj|Hpj].
      * rewrite Hpj in Hp.
        rewrite list_lookup_insert_ne in Hp by lia.
        rewrite list_lookup_insert_eq in Hp by lia. injection Hp as <-.
        destruct (decide (i = s')) as [->|His].
        -- rewrite list_lookup_insert_eq in Hc by (rewrite length_insert; lia).
           injection Hc as <-. lia.
        -- rewrite list_lookup_insert_ne in Hc by done.
           rewrite list_lookup_insert_ne in Hc by lia.
           by apply (Hs'ch i).
      * rewrite list_lookup_insert_ne in Hp by done.
        rewrite list_lookup_insert_ne in Hp by done.
        destruct (decide (i = j)) as [->|Hij].
        -- rewrite list_lookup_insert_ne in Hc by lia.
           rewrite list_lookup_insert_eq in Hc by lia. injection Hc as <-.
           by apply (Hgrand s' p at_s'); [lia|done|lia|done|done|done].
        -- assert (i ≠ s') by (intros ->; lia).
           rewrite list_lookup_insert_ne in Hc by done.
           rewrite list_lookup_insert_ne in Hc by done.
           by apply (Hrest i).
    + intros i p c _ _ Hi Hpi Hp Hc.
      rewrite Hps' in Hp.
      rewrite list_lookup_insert_ne in Hp by lia.
      rewrite list_lookup_insert_eq in Hp by lia. injection Hp as <-.
      pose proof (parent0_lt i Hi) as Hplt.
      rewrite list_lookup_insert_ne in Hc by lia.
      rewrite list_lookup_insert_ne in Hc by lia.
      apply (Hrest i at_s' c); [done|lia|lia|by rewrite Hpi|done].
Qed.

Lemma minHeapify_heap_from fuel a idx a' :
  H00.minHeapify fuel a idx = Some a' → (idx < length a)%nat →
  heap0_from (S idx) a → heap0_from idx a'.
Proof.
  intros Hrun Hidx Hfrom. apply (minHeapify_heap fuel idx a idx a' Hrun); [lia|..].
  - intros i p c Hi Hk Hne. apply Hfrom; [done|lia].
  - intros i p c Hj Hk. pose proof (parent0_lt idx Hj). lia.
Qed.

(** [buildMinHeap] puts an array of two or more nodes in heap order. *)
Lemma buildMinHeap_heap a a' :
  (2 ≤ length a)%nat → H00.buildMinHeap a = Some a' → heap0_ok a'.
Proof.
  intros Hlen. unfold H00.buildMinHeap. cbv zeta.
  set (m := ((length a - 1 - 1) / 2)%nat).
  assert (m < length a)%nat as Hm.
  { unfold m. apply Nat.Div0.div_lt_upper_bound. lia. }
  assert (heap0_from (S m) a) as Hstart.
  { intros i p c Hi Hk _ Hc. apply lookup_lt_Some in Hc.
    assert ((i - 1) / 2 ≤ m)%nat; [|lia].
    unfold m. apply Nat.Div0.div_le_mono. lia. }
  assert (∀ n a0 a1, (n ≤ S m)%nat → length a0 = length a → heap0_from n a0 →
            foldl (λ acc i, a' ← acc; H00.minHeapify (S (length a)) a' i)
                  (Some a0) (rev (seq 0 n)) = Some a1 →
            heap0_from 0 a1) as H.
  { induction n as [|n IH]; intros a0 a1 Hn Hl Hfrom Hrun.
    - cbn in Hrun. by injection Hrun as <-.
    - rewrite seq_S, rev_app_distr in Hrun. cbn [rev app foldl Nat.add] in Hrun.
      cbn [mbind option_bind] in Hrun.
      destruct (H00.minHeapify (S (length a)) a0 n) as [a2|] eqn:Hh; last first.
      { clear -Hrun. exfalso. induction (rev (seq 0 n)) as [|x l IHl]; [done|].
        cbn [foldl mbind option_bind] in Hrun. auto. }
      apply (IH a2 a1); [lia| |by apply (minHeapify_heap_from _ _ _ _ Hh); [lia|]|done].
      destruct (minHeapify_spec (S (length a)) a0 n) as (a3 & Ha3 & Hp); [lia|lia|].
      rewrite Hh in Ha3. injection Ha3 as <-. by rewrite Hp. }
  intros Hrun. apply (H (S m) a a'); [lia|done|done|done].
Qed.

(** In a heap the first slot holds a least frequency. *)
Lemma heap0_root a m :
  heap0_ok a → a !! 0%nat = Some m → ∀ x, x ∈ a → freq m <= freq x.
Proof.
  intros Hok Hm x Hx. apply list_elem_of_lookup in Hx as [i Hi].
  revert x Hi. induction (lt_wf i) as [i _ IH]. intros x Hi.
  destruct (decide (i = 0%nat)) as [->|Hne]; [by simplify_eq|].
  pose proof (parent0_lt i ltac:(lia)) as Hlt.
  pose proof (lookup_lt_Some _ _ _ Hi) as Hil.
  destruct (lookup_lt_is_Some_2 a ((i - 1) / 2) ltac:(lia)) as [p Hp].
  assert (freq m <= freq p) by (by apply (IH ((i - 1) / 2)%nat)).
  assert (freq p <= freq x) by (apply (Hok i); [lia|lia|done|done]).
  lia.
Qed.

Lemma extractMin_heap a x a' :
  heap0_ok a → H00.extractMin a = Some (x, a') →
  heap0_ok a' ∧ ∀ y, y ∈ a → freq x <= freq y.
Proof.
  intros Hok. unfold H00.extractMin.
  destruct (a !! 0%nat) as [temp|] eqn:Htemp; [|discriminate].
  cbn [mbind option_bind].
  destruct (a !! (length a - 1)%nat) as [last|] eqn:Hlast; [|discriminate].
  cbn [mbind option_bind]. cbv zeta.
  pose proof (lookup_lt_Some _ _ _ Htemp) as Hlen.
  assert (∀ a1, a1 = take (length a - 1) (<[0%nat := last]> a) →
            heap0_from 1 a1) as Hfrom1.
  { intros a1 -> i p c Hi Hk Hp Hc.
    apply lookup_take_Some in Hp as [Hp _]. apply lookup_take_Some in Hc as [Hc _].
    rewrite list_lookup_insert_ne in Hp by lia.
    rewrite list_lookup_insert_ne in Hc by lia.
    apply (Hok i); [done|lia|done|done]. }
  destruct (take (length a - 1) (<[0%nat := last]> a)) as [|y a1] eqn:Ha1.
  - intros [= <- <-]. split; [|by apply heap0_root].
    intros i p c _ _ Hp. done.
  - destruct (H00.minHeapify (length a) (y :: a1) 0) as [a2|] eqn:Hh; [|discriminate].
    cbn [mbind option_bind]. intros [= <- <-]. split; [|by apply heap0_root].
    apply (minHeapify_heap_from _ _ _ _ Hh); [simpl; lia|by apply Hfrom1].
Qed.

(** The loop of [insertMinHeap] with the hole at [i]. *)
Lemma sift_up_heap fuel : ∀ a i node a' i',
  H00.sift_up fuel a i node = Some (a', i') → (i < length a)%nat →
  (∀ j p c, (1 ≤ j)%nat → j ≠ i →
            a !! ((j - 1) / 2)%nat = Some p → a !! j = Some c → freq p <= freq c) →
  (∀ j p c, (1 ≤ i)%nat → (1 ≤ j)%nat → ((j - 1) / 2)%nat = i →
            a !! ((i - 1) / 2)%nat = Some p → a !! j = Some c → freq p <= freq c) →
  (∀ j c, (1 ≤ j)%nat → ((j - 1) / 2)%nat = i → a !! j = Some c →
          freq node <= freq c) →
  heap0_ok (<[i' := node]> a').
Proof.
  induction fuel as [|fuel IH]; intros a i node a' i' Hrun Hi Hbut Hgrand Hitem;
    [discriminate|].
  cbn [H00.sift_up] in Hrun.
  assert ((∀ p, (1 ≤ i)%nat → a !! ((i - 1) / 2)%nat = Some p → freq p <= freq node) →
          heap0_ok (<[i := node]> a)) as Hplace.
  { intros Hparent j p c Hj _ Hp Hc.
    pose proof (parent0_lt j Hj) as Hlt.
    destruct (decide (j = i)) as [->|Hji].
    - rewrite list_lookup_insert_eq in Hc by done. injection Hc as <-.
      rewrite list_lookup_insert_ne in Hp by lia. by apply Hparent.
    - rewrite list_lookup_insert_ne in Hc by done.
      destruct (decide (((j - 1) / 2)%nat = i)) as [Hjp|Hjp].
      + rewrite Hjp, list_lookup_insert_eq in Hp by done. injection Hp as <-.
        by apply (Hitem j).
      + rewrite list_lookup_insert_ne in Hp by done. by apply (Hbut j). }
  destruct (decide (i ≠ 0%nat)) as [Hne|Hz].
  - pose proof (parent0_lt i ltac:(lia)) as Hlt.
    destruct (a !! ((i - 1) / 2)%nat) as [parent|] eqn:Hparent; [|discriminate].
    cbn [mbind option_bind] in Hrun.
    destruct (freq node <? freq parent) eqn:Hcmp.
    + apply Z.ltb_lt in Hcmp.
      apply (IH _ _ _ _ _ Hrun).
      * rewrite length_insert. lia.
      * intros j p c Hj Hjne Hp Hc.
        pose proof (parent0_lt j Hj) as Hjlt.
        destruct (decide (j = i)) as [->|Hji].
        -- rewrite list_lookup_insert_eq in Hc by done. injection Hc as <-.
           rewrite list_lookup_insert_ne in Hp by lia.
           rewrite Hparent in Hp. injection Hp as <-. lia.
        -- rewrite list_lookup_insert_ne in Hc by done.
           destruct (decide (((j - 1) / 2)%nat = i)) as [Hjp|Hjp].
           ++ rewrite Hjp, list_lookup_insert_eq in Hp by done. injection Hp as <-.
              by apply (Hgrand j parent c); [lia|done|done|done|done].
           ++ rewrite list_lookup_insert_ne in Hp by done. by apply (Hbut j).
      * intros j p c Hpi Hj Hjp Hp Hc.
        pose proof (parent0_lt ((i - 1) / 2)%nat Hpi) as Hpplt.
        rewrite list_lookup_insert_ne in Hp by lia.
        assert (freq p <= freq parent) as Hpp.
        { apply (Hbut ((i - 1) / 2)%nat); [done|lia|done|done]. }
        destruct (decide (j = i)) as [->|Hji].
        -- rewrite list_lookup_insert_eq in Hc by done. by injection Hc as <-.
        -- rewrite list_lookup_insert_ne in Hc by done.
           assert (freq parent <= freq c);
             [apply (Hbut j); [done|done|by rewrite Hjp|done]|lia].
      * intros j c Hj Hjp Hc.
        destruct (decide (j = i)) as [->|Hji].
        -- rewrite list_lookup_insert_eq in Hc by done. injection Hc as <-. lia.
        -- rewrite list_lookup_insert_ne in Hc by done.
           assert (freq parent <= freq c);
             [apply (Hbut j); [done|done|by rewrite Hjp|done]|lia].
    + injection Hrun as <- <-. apply Hplace.
      intros p _ [= <-]. apply Z.ltb_ge in Hcmp. lia.
  - injection Hrun as <- <-. apply Hplace. intros p Hi1. lia.
Qed.

Lemma insertMinHeap_heap a node a' :
  heap0_ok a → H00.insertMinHeap a node = Some a' → heap0_ok a'.
Proof.
  intros Hok. unfold H00.insertMinHeap. cbv zeta.
  destruct (H00.sift_up _ _ _ _) as [[a1 i']|] eqn:Hrun; [|discriminate].
  cbn [mbind option_bind]. intros [= <-].
  apply (sift_up_heap _ _ _ _ _ _ Hrun).
  - rewrite length_app. simpl. lia.
  - intros j p c Hj Hjne Hp Hc.
    pose proof (parent0_lt j Hj) as Hlt.
    pose proof (lookup_lt_Some _ _ _ Hc) as Hjl. rewrite length_app in Hjl.
    simpl in Hjl.
    rewrite lookup_app_l in Hp by lia. rewrite lookup_app_l in Hc by lia.
    apply (Hok j); [done|lia|done|done].
  - intros j p c _ Hj Hjp _ Hc.
    apply lookup_lt_Some in Hc. rewrite length_app in Hc. simpl in Hc.
    destruct (parent0_cases j _ Hj Hjp); lia.
  - intros j c Hj Hjp Hc.
    apply lookup_lt_Some in Hc. rewrite length_app in Hc. simpl in Hc.
    destruct (parent0_cases j _ Hj Hjp); lia.
Qed.

Lemma heap0_ok_cab : heap0_ok (heap pq_cab).
Proof.
  intros i p c Hi _ Hp Hc.
  destruct i as [|[|[|i]]]; [lia|..]; vm_compute in Hp, Hc; simplify_eq;
    vm_compute; discriminate.
Qed.

(** X24: [buildMinHeap] of huffman-00 rearranges an array of two or more
    nodes into heap order: the result holds the same nodes, and no slot
    holds a frequency below that of its parent slot. *)
Theorem h00_buildMinHeap_makes_a_heap (a : list Node) :
  (2 ≤ length a)%nat →
  ∃ a', H00.buildMinHeap a = Some a' ∧ a' ≡ₚ a ∧ heap0_ok a'.
Proof.
  intros Hlen. destruct (buildMinHeap_spec a Hlen) as (a' & Hb & Hp).
  exists a'. split; [done|]. split; [done|]. by apply (buildMinHeap_heap a).
Qed.

Lemma h00_buildMinHeap_makes_a_heap_witness :
  (2 ≤ length [newNode "a" 3 None None; newNode "b" 2 None None;
               newNode "c" 1 None None])%nat ∧
  ∃ a', H00.buildMinHeap [newNode "a" 3 None None; newNode "b" 2 None None;
                          newNode "c" 1 None None] = Some a' ∧
        heap0_ok a'.
Proof.
  assert (2 ≤ length [newNode "a" 3 None None; newNode "b" 2 None None;
                      newNode "c" 1 None None])%nat as H by (simpl; lia).
  split; [exact H|].
  destruct (h00_buildMinHeap_makes_a_heap _ H) as (a' & H1 & _ & H2).
  exists a'. split; [exact H1|exact H2].
Defined.

(** X25: [extractMin] of huffman-00 on a non-empty array in heap order
    returns a node of least frequency, removes exactly that node and
    leaves the array in heap order. *)
Theorem h00_extractMin_returns_a_least_node (a : list Node) :
  heap0_ok a → a ≠ [] →
  ∃ x a', H00.extractMin a = Some (x, a') ∧ x :: a' ≡ₚ a ∧ heap0_ok a' ∧
          ∀ y, y ∈ a → freq x <= freq y.
Proof.
  intros Hok Hne. destruct (extractMin_spec a Hne) as (x & a' & He & Hp).
  destruct (extractMin_heap a x a' Hok He) as [Hok' Hmin].
  by exists x, a'.
Qed.

Lemma h00_extractMin_returns_a_least_node_witness :
  heap0_ok (heap pq_cab) ∧ heap pq_cab ≠ [] ∧
  ∃ x a', H00.extractMin (heap pq_cab) = Some (x, a') ∧ heap0_ok a' ∧
          ∀ y, y ∈ heap pq_cab → freq x <= freq y.
Proof.
  assert (heap pq_cab ≠ []) as Hne by discriminate.
  split; [exact heap0_ok_cab|]. split; [exact Hne|].
  destruct (h00_extractMin_returns_a_least_node (heap pq_cab) heap0_ok_cab Hne)
    as (x & a' & H1 & _ & H2 & H3).
  exists x, a'. split; [exact H1|]. split; [exact H2|exact H3].
Defined.

(** X26: [insertMinHeap] of huffman-00 adds the node to an array in heap
    order and leaves the array in heap order. *)
Theorem h00_insertMinHeap_keeps_heap_order (a : list Node) (node : Node) :
  heap0_ok a →
  ∃ a', H00.insertMinHeap a node = Some a' ∧ a' ≡ₚ node :: a ∧ heap0_ok a'.
Proof.
  intros Hok. destruct (insertMinHeap_spec a node) as (a' & Hi & Hp).
  exists a'. split; [done|]. split; [done|]. by apply (insertMinHeap_heap a node).
Qed.

Lemma h00_insertMinHeap_keeps_heap_order_witness :
  heap0_ok (heap pq_cab) ∧
  ∃ a', H00.insertMinHeap (heap pq_cab) (newNode "d" 0 None None) = Some a' ∧
        a' ≡ₚ newNode "d" 0 None None :: heap pq_cab ∧ heap0_ok a'.
Proof.
  split; [exact heap0_ok_cab|].
  exact (h00_insertMinHeap_keeps_heap_order (heap pq_cab) (newNode "d" 0 None None)
           heap0_ok_cab).
Defined.

End FirstVariantHeap.

Section SiblingOrder.

#[local] Arguments Nat.div : simpl never.
#[local] Arguments Nat.modulo : simpl never.
#[local] Arguments Nat.mul : simpl never.
#[local] Arguments seq : simpl never.

(** ** The merge loops take the two lightest nodes *)

Lemma left_le_leaf_nodes freq idxs :
  Forall (λ t, left_le t = true) (omap (leaf_of freq) idxs).
Proof.
  induction idxs as [|i idxs IH]; csimpl; [constructor|].
  destruct (leaf_of freq i) as [n|] eqn:E; [|done].
  apply leaf_of_Some in E as (f & _ & _ & ->). by constructor.
Qed.

Lemma insert_fold_heap freq idxs : ∀ pq symbols pq' symbols',
  heap_ok (heap pq) →
  foldl (λ acc i, st ← acc; Enc.insert_symbol freq st i) (Some (pq, symbols)) idxs
    = Some (pq', symbols') →
  heap_ok (heap pq').
Proof.
  induction idxs as [|i idxs IH]; intros pq symbols pq' symbols' Hok Hrun.
  - cbn [foldl] in Hrun. by injection Hrun as <- _.
  - cbn [foldl mbind option_bind] in Hrun.
    destruct (Enc.insert_symbol freq (pq, symbols) i) as [[pq1 s1]|] eqn:Hins; last first.
    { exfalso. clear -Hrun. induction idxs as [|x l IHl]; [done|].
      cbn [foldl mbind option_bind] in Hrun. auto. }
    apply (IH pq1 s1 pq' symbols'); [|done].
    unfold Enc.insert_symbol in Hins.
    destruct (freq !! i) as [f|]; [|done]. cbn [mbind option_bind] in Hins.
    destruct (0 <? f).
    + destruct (PQinsert pq _) as [pq2|] eqn:Hi; [|done].
      cbn [mbind option_bind] in Hins. injection Hins as <- _.
      by eapply PQinsert_heap.
    + by injection Hins as <- _.
Qed.

Lemma merge_loop_ordered symbols : ∀ pq pq',
  symbols = PQ_n pq → (1 ≤ symbols ≤ maxN pq)%nat →
  heap_ok (heap pq) → Forall (λ t, left_le t = true) (heap pq) →
  Enc.merge_loop symbols pq = Some pq' →
  Forall (λ t, left_le t = true) (heap pq').
Proof.
  induction symbols as [|symbols IH]; intros pq pq' Hn Hb Hok Hall Hrun; [lia|].
  destruct symbols as [|s].
  - cbn [Enc.merge_loop] in Hrun. by injection Hrun as <-.
  - rewrite merge_loop_step in Hrun.
    destruct (PQdelmin_least pq Hok) as (l & pq1 & Hd1 & Hm1 & Hp1 & Hok1 & Hmin1).
    { unfold PQ_n in Hn. by destruct (heap pq). }
    rewrite Hd1 in Hrun. cbn [mbind option_bind] in Hrun.
    assert (length (heap pq1) = S s) as Hl1.
    { apply Permutation_length in Hp1. unfold PQ_n in Hn. simpl in Hp1. lia. }
    destruct (PQdelmin_least pq1 Hok1) as (r & pq2 & Hd2 & Hm2 & Hp2 & Hok2 & Hmin2).
    { by destruct (heap pq1). }
    rewrite Hd2 in Hrun. cbn [mbind option_bind] in Hrun.
    assert (length (heap pq2) = s) as Hl2.
    { apply Permutation_length in Hp2. simpl in Hp2. lia. }
    destruct (PQinsert_spec pq2 (newNode x00 (u32 (freq l + freq r)) (Some l) (Some r)))
      as (pq3 & Hi3 & Hm3 & Hp3).
    { unfold PQ_n. lia. }
    rewrite Hi3 in Hrun. cbn [mbind option_bind] in Hrun.
    apply (IH pq3 pq'); [| | | |done].
    + unfold PQ_n. apply Permutation_length in Hp3. simpl in Hp3. lia.
    + lia.
    + by eapply PQinsert_heap.
    + rewrite Hp3. rewrite <- Hp1, <- Hp2 in Hall.
      apply list.Forall_cons in Hall as [Hl Hall].
      apply list.Forall_cons in Hall as [Hr Hall].
      apply list.Forall_cons. split; [|done].
      cbn [left_le]. rewrite Hl, Hr.
      assert (freq l <= freq r) as Hle.
      { apply Hmin1. rewrite <- Hp1, <- Hp2. right. left. }
      by rewrite (proj2 (Z.leb_le _ _) Hle).
Qed.

(** X27: in the tree [buildHuffmanTree] of huffman-01 returns for a
    table of 256 counters, at every node with two children the
    frequency of the left child is at most that of the right child: the
    first node [PQdelmin] hands out becomes the left child, and it is a
    least node of the queue. *)
Theorem buildHuffmanTree_left_child_is_lighter (freq : list Z) (root : Node) :
  length freq = 256%nat →
  Enc.buildHuffmanTree freq = Some (Some root) → left_le root = true.
Proof.
  intros Hlen. unfold Enc.buildHuffmanTree.
  destruct (insert_fold_spec freq (seq 0 MAXN) (PQinit MAXN) 0)
    as (pq & Hfold & Hm & Hp).
  { intros i Hi%elem_of_seq. unfold MAXN in Hi. lia. }
  { unfold PQ_n. rewrite length_seq. simpl. lia. }
  pose proof (insert_fold_heap freq (seq 0 MAXN) (PQinit MAXN) 0 _ _ heap_ok_nil Hfold)
    as Hok.
  rewrite Hfold. cbn [mbind option_bind].
  change (maxN (PQinit MAXN)) with MAXN in Hm.
  change (heap (PQinit MAXN)) with (@nil Node) in Hp. rewrite app_nil_r in Hp.
  assert (Forall (λ t, left_le t = true) (heap pq)) as Hall.
  { rewrite Hp. apply left_le_leaf_nodes. }
  rewrite <- leaf_nodes_unfold in Hp |- *.
  assert (length (leaf_nodes freq) ≤ MAXN)%nat as Hle.
  { rewrite leaf_nodes_unfold. etrans; [apply length_omap_le|]. by rewrite length_seq. }
  assert (length (heap pq) = length (leaf_nodes freq)) as Hlh by (by rewrite Hp).
  rewrite Nat.add_0_l.
  destruct (length (leaf_nodes freq)) as [|[|s]] eqn:Hcount; [done| |].
  - destruct (PQdelmin_spec pq) as (single & pq1 & -> & _ & Hp1).
    { by destruct (heap pq). }
    cbn [mbind option_bind]. intros [= ->].
    rewrite <- Hp1 in Hall. by apply list.Forall_cons in Hall as [? _].
  - destruct (Enc.merge_loop (S (S s)) pq) as [pq'|] eqn:Hrun; [|done].
    cbn [mbind option_bind].
    pose proof (merge_loop_ordered (S (S s)) pq pq') as Hall'.
    destruct (merge_loop_spec (S (S s)) pq) as (root' & Hrun' & _).
    { unfold PQ_n. lia. }
    { rewrite Hm. unfold MAXN in *. lia. }
    rewrite Hrun in Hrun'. injection Hrun' as ->.
    destruct (PQdelmin_spec (mkPQ [root'] (maxN pq))) as (m & pq1 & -> & _ & Hp1);
      [done|].
    cbn [mbind option_bind]. intros [= ->]. simpl in Hp1.
    assert (Forall (λ t, left_le t = true) [root']) as Hr.
    { apply Hall'; [unfold PQ_n; lia|rewrite Hm; unfold MAXN in *; lia|done|done|done]. }
    rewrite <- Hp1 in Hr. by apply list.Forall_cons in Hr as [? _].
Qed.

Lemma buildHuffmanTree_left_child_is_lighter_witness :
  ∃ root,
    length aaabbc_freq = 256%nat ∧
    Enc.buildHuffmanTree aaabbc_freq = Some (Some root) ∧ left_le root = true.
Proof.
  destruct (Enc.buildHuffmanTree aaabbc_freq) as [[root|]|] eqn:Hb;
    [|vm_compute in Hb; discriminate..].
  exists root.
  assert (length aaabbc_freq = 256%nat) as H by reflexivity.
  split; [exact H|]. split; [reflexivity|].
  exact (buildHuffmanTree_left_child_is_lighter aaabbc_freq root H Hb).
Defined.

(** ** The same for huffman-00 *)

Lemma H00_merge_loop_ordered fuel : ∀ a a',
  (1 ≤ length a)%nat → heap0_ok a → Forall (λ t, left_le t = true) a →
  H00.merge_loop fuel a = Some a' →
  Forall (λ t, left_le t = true) a'.
Proof.
  induction fuel as [|fuel IH]; intros a a' Hlen Hok Hall Hrun; [done|].
  cbn [H00.merge_loop] in Hrun.
  destruct (decide (length a ≠ 1%nat)) as [Hne|Hone]; [|by injection Hrun as <-].
  destruct (extractMin_spec a) as (l & a1 & He1 & Hp1);
    [destruct a; [simpl in Hlen; lia|done]|].
  rewrite He1 in Hrun. cbn [mbind option_bind] in Hrun.
  destruct (extractMin_heap a l a1 Hok He1) as [Hok1 Hmin1].
  assert (length a = S (length a1)) as Hl1 by (by rewrite <- Hp1).
  destruct (extractMin_spec a1) as (r & a2 & He2 & Hp2);
    [destruct a1; [simpl in *; lia|done]|].
  rewrite He2 in Hrun. cbn [mbind option_bind] in Hrun. cbv zeta in Hrun.
  destruct (extractMin_heap a1 r a2 Hok1 He2) as [Hok2 _].
  destruct (insertMinHeap_spec a2 (newNode "$" (u32 (freq l + freq r)) (Some l) (Some r)))
    as (a3 & Hi3 & Hp3).
  rewrite Hi3 in Hrun. cbn [mbind option_bind] in Hrun.
  apply (IH a3 a'); [| | |done].
  - rewrite Hp3. simpl. lia.
  - by eapply insertMinHeap_heap.
  - rewrite Hp3. rewrite <- Hp1, <- Hp2 in Hall.
    apply list.Forall_cons in Hall as [Hl Hall].
    apply list.Forall_cons in Hall as [Hr Hall].
    apply list.Forall_cons. split; [|done].
    cbn [left_le]. rewrite Hl, Hr.
    assert (freq l <= freq r) as Hle.
    { apply Hmin1. rewrite <- Hp1, <- Hp2. right. left. }
    by rewrite (proj2 (Z.leb_le _ _) Hle).
Qed.

(** X28: the same holds in the tree [buildHuffmanTree] of huffman-00
    returns for a table of at least 256 counters: at every node with two
    children the frequency of the left child is at most that of the
    right child. *)
Theorem h00_left_child_is_lighter (freq : list Z) (root : Node) :
  (256 ≤ length freq)%nat →
  H00.buildHuffmanTree freq H00.MAX_CHARS = Some root → left_le root = true.
Proof.
  intros Hlen. unfold H00.buildHuffmanTree.
  rewrite H00_fill_spec by (unfold H00.MAX_CHARS; lia).
  change (seq 0 H00.MAX_CHARS) with (seq 0 MAXN). rewrite <- leaf_nodes_unfold.
  cbn [mbind option_bind].
  pose proof (left_le_leaf_nodes freq (seq 0 MAXN)) as Hall.
  rewrite <- leaf_nodes_unfold in Hall.
  destruct (leaf_nodes freq) as [|n1 [|n2 rest]] eqn:Hnodes.
  - by intros [= <-].
  - intros [= <-]. by apply list.Forall_cons in Hall as [? _].
  - destruct (buildMinHeap_spec (n1 :: n2 :: rest)) as (a1 & Hb & Hp1);
      [simpl; lia|].
    assert (heap0_ok a1) as Hok1.
    { apply (buildMinHeap_heap (n1 :: n2 :: rest)); [simpl; lia|done]. }
    rewrite Hb. cbn [mbind option_bind].
    destruct (H00.merge_loop (length a1) a1) as [a2|] eqn:Hrun; [|done].
    cbn [mbind option_bind].
    assert (Forall (λ t, left_le t = true) a2) as Hall2.
    { apply (H00_merge_loop_ordered (length a1) a1 a2); [|done| |done].
      - rewrite Hp1. simpl. lia.
      - by rewrite Hp1. }
    destruct (H00.extractMin a2) as [[x a3]|] eqn:He; [|done].
    cbn [mbind option_bind]. intros [= <-].
    assert (a2 ≠ []) as Hne.
    { intros ->. by vm_compute in He. }
    destruct (extractMin_spec a2 Hne) as (x' & a3' & He' & Hp).
    rewrite He in He'. injection He' as <- <-.
    rewrite <- Hp in Hall2. by apply list.Forall_cons in Hall2 as [? _].
Qed.

Lemma h00_left_child_is_lighter_witness :
  ∃ root,
    (256 ≤ length aaabbc_freq)%nat ∧
    H00.buildHuffmanTree aaabbc_freq H00.MAX_CHARS = Some root ∧
    left_le root = true.
Proof.
  destruct (H00.buildHuffmanTree aaabbc_freq H00.MAX_CHARS) as [root|] eqn:Hb;
    [|vm_compute in Hb; discriminate].
  exists root.
  assert (256 ≤ length aaabbc_freq)%nat as H by (vm_compute; lia).
  split; [exact H|]. split; [reflexivity|].
  exact (h00_left_child_is_lighter aaabbc_freq root H Hb).
Defined.

End SiblingOrder.
